(** * tinyformat: the format-string scanner, the specifier interpreter and
      the driver loop of [tinyformat.cpp], embedded in Rocq.

    The four functions of the translation unit are modelled as they are
    written:
    - [parseIntAndAdvance]        (lines 8-14),
    - [printFormatStringLiteral]  (lines 22-43),
    - [streamStateFromFormat]     (lines 56-239),
    - [formatImpl]                (lines 243-299).

    A [const char*] into the NUL-terminated format string is the list of
    characters from the pointer to the terminator; dereferencing the end of
    the list reads the terminator.  The destination [std::ostream] is a record
    of the text written so far and of the four pieces of formatting
    configuration the code touches.  [TINYFORMAT_ERROR] is a macro of the
    missing header: it is modelled by a policy that either returns to the
    code after recording the message, or leaves the function at once. *)

From Stdlib Require Import ZArith List Bool Ascii String Lia.
Import ListNotations.

Local Open Scope char_scope.
Local Open Scope Z_scope.

(** ** Characters and C strings *)

Definition cstr := list ascii.

Definition NUL : ascii := Ascii.zero.

(** [*c] *)
Definition deref (c : cstr) : ascii :=
  match c with
  | [] => NUL
  | ch :: _ => ch
  end.

(** [c + 1] *)
Definition advance (c : cstr) : cstr := tl c.

Definition code (ch : ascii) : Z := Z.of_N (N_of_ascii ch).

(** [ch >= '0' && ch <= '9'] *)
Definition is_digit (ch : ascii) : bool :=
  (code "0" <=? code ch) && (code ch <=? code "9").

Definition cstring (s : string) : cstr := list_ascii_of_string s.

(** ** Machine integers *)

(** [int] is 32 bits wide; overflowing arithmetic is written as the
    two's-complement wrap-around. *)
Definition int_wrap (z : Z) : Z := (z + 2 ^ 31) mod 2 ^ 32 - 2 ^ 31.

(** ** The stream *)

(** [std::ios::fmtflags] is a bitmask type.  The values of its elements are
    those of libstdc++'s [ios_base.h]. *)
Module ios.
Definition boolalpha   : Z := 1.
Definition dec         : Z := 2.
Definition fixed       : Z := 4.
Definition hex         : Z := 8.
Definition internal    : Z := 16.
Definition left        : Z := 32.
Definition oct         : Z := 64.
Definition right       : Z := 128.
Definition scientific  : Z := 256.
Definition showbase    : Z := 512.
Definition showpoint   : Z := 1024.
Definition showpos     : Z := 2048.
Definition skipws      : Z := 4096.
Definition unitbuf     : Z := 8192.
Definition uppercase   : Z := 16384.
Definition adjustfield : Z := Z.lor left (Z.lor right internal).
Definition basefield   : Z := Z.lor dec (Z.lor oct hex).
Definition floatfield  : Z := Z.lor scientific fixed.
End ios.

Record ostream := mkStream {
  written   : list ascii;   (* the characters put on the stream so far *)
  width     : Z;            (* out.width() *)
  precision : Z;            (* out.precision() *)
  flags     : Z;            (* out.flags() *)
  fill      : ascii         (* out.fill() *)
}.

(** [out.width(w)], [out.precision(p)], [out.fill(ch)], [out.flags(f)] *)
Definition set_width (w : Z) (o : ostream) : ostream :=
  mkStream (written o) w (precision o) (flags o) (fill o).
Definition set_precision (p : Z) (o : ostream) : ostream :=
  mkStream (written o) (width o) p (flags o) (fill o).
Definition set_fill (ch : ascii) (o : ostream) : ostream :=
  mkStream (written o) (width o) (precision o) (flags o) ch.
Definition set_flags (f : Z) (o : ostream) : ostream :=
  mkStream (written o) (width o) (precision o) f (fill o).

(** [out.setf(f)]: [fl |= f] *)
Definition setf (f : Z) (o : ostream) : ostream :=
  set_flags (Z.lor (flags o) f) o.
(** [out.setf(f, mask)]: [fl = (fl & ~mask) | (f & mask)] *)
Definition setf_mask (f mask : Z) (o : ostream) : ostream :=
  set_flags (Z.lor (Z.ldiff (flags o) mask) (Z.land f mask)) o.
(** [out.unsetf(mask)]: [fl &= ~mask] *)
Definition unsetf (mask : Z) (o : ostream) : ostream :=
  set_flags (Z.ldiff (flags o) mask) o.

(** [out.flags() & f] used as a condition *)
Definition test_flag (f : Z) (o : ostream) : bool :=
  negb (Z.land (flags o) f =? 0).

(** [out.write(s, n)]: unformatted output of the first [n] characters at
    [s]; the formatting configuration is neither read nor changed. *)
Definition put (s : list ascii) (o : ostream) : ostream :=
  mkStream (written o ++ s) (width o) (precision o) (flags o) (fill o).
Definition write (s : cstr) (n : nat) (o : ostream) : ostream :=
  put (firstn n s) o.

(** [out << str] for a [std::string]: formatted output.  The text is padded
    with the fill character up to the field width, after the text when the
    adjustment is [left] and before it otherwise, and the width is reset
    to zero. *)
Definition insert_string (s : list ascii) (o : ostream) : ostream :=
  let pad := repeat (fill o) (Z.to_nat (width o - Z.of_nat (List.length s))) in
  let text := if Z.land (flags o) ios.adjustfield =? ios.left
              then s ++ pad else pad ++ s in
  set_width 0 (put text o).

(** The formatting configuration of a stream: what [formatImpl] saves and
    restores. *)
Definition config (o : ostream) : Z * Z * Z * ascii :=
  (width o, precision o, flags o, fill o).

(** ** Parsing integers (lines 8-14) *)

Fixpoint parseInt_loop (i : Z) (c : cstr) : Z * cstr :=
  match c with
  | [] => (i, c)
  | ch :: c' =>
      if is_digit ch
      then parseInt_loop (int_wrap (10 * i + (code ch - code "0"))) c'
      else (i, c)
  end.

Definition parseIntAndAdvance (c : cstr) : Z * cstr := parseInt_loop 0 c.

(** ** The literal scanner (lines 22-43) *)

(** The loop of [printFormatStringLiteral].  [fmt] is the start of the
    pending literal run, [n] is [c - fmt]. *)
Fixpoint scan_literal (o : ostream) (fmt : cstr) (n : nat) (c : cstr)
  : ostream * cstr :=
  match c with
  | [] => (write fmt n o, c)                    (* case '\0' *)
  | ch :: c1 =>
      if Ascii.eqb ch NUL then (write fmt n o, c)
      else if Ascii.eqb ch "%" then
        let o' := write fmt n o in
        match c1 with
        | ch1 :: c2 =>
            if Ascii.eqb ch1 "%"
            then scan_literal o' c1 1 c2        (* fmt = ++c; then ++c *)
            else (o', c)
        | [] => (o', c)                         (* *(c + 1) is '\0' *)
        end
      else scan_literal o fmt (S n) c1          (* default: ++c *)
  end.

Definition printFormatStringLiteral (o : ostream) (fmt : cstr)
  : ostream * cstr :=
  scan_literal o fmt 0 fmt.

(** ** Error reporting and the arguments *)

(** [TINYFORMAT_ERROR(reason)] comes from the header, which lets the host
    define it.  The code after each use ([return fmtStart;], [return c;],
    [return;], or simply the next statement) is what runs when the macro
    comes back; a macro that throws or aborts never comes back. *)
Inductive error_policy :=
| ErrorReturns    (* the message is recorded and execution goes on *)
| ErrorUnwinds.   (* the message is recorded and control leaves formatImpl *)

Record world := mkWorld {
  out     : ostream;        (* the destination stream *)
  reports : list string     (* the reasons handed to TINYFORMAT_ERROR, oldest first *)
}.

Inductive result (A : Type) :=
| Normal (a : A)
| Unwinding.
Arguments Normal {A} a.
Arguments Unwinding {A}.

Definition M (A : Type) : Type := world -> world * result A.

Definition ret {A} (a : A) : M A := fun w => (w, Normal a).

Definition bind {A B} (m : M A) (k : A -> M B) : M B :=
  fun w =>
    let (w', r) := m w in
    match r with
    | Normal a => k a w'
    | Unwinding => (w', Unwinding)
    end.

Notation "x <- m ;; k" := (bind m (fun x => k))
  (at level 61, m at next level, right associativity).
Notation "' pat <- m ;; k" := (bind m (fun x => match x with pat => k end))
  (at level 61, pat pattern, m at next level, right associativity).
Notation "m ;; k" := (bind m (fun _ => k))
  (at level 61, right associativity).

Definition get_out : M ostream := fun w => (w, Normal (out w)).
Definition set_out (o : ostream) : M unit :=
  fun w => (mkWorld o (reports w), Normal tt).
Definition on_out (f : ostream -> ostream) : M unit :=
  fun w => (mkWorld (f (out w)) (reports w), Normal tt).

Definition TINYFORMAT_ERROR (policy : error_policy) (reason : string) : M unit :=
  fun w =>
    (mkWorld (out w) (reports w ++ [reason]),
     match policy with
     | ErrorReturns => Normal tt
     | ErrorUnwinds => Unwinding
     end).

(** [detail::FormatArg] is declared in the header.  The code uses two of its
    members: [toInt()], and [format(out, fmtBegin, fmtEnd, ntrunc)], which
    renders the value on the stream it is given. *)
Record FormatArg := mkArg {
  toInt  : Z;
  format : ostream -> cstr -> cstr -> Z -> ostream
}.

(** The messages of the translation unit. *)
Module msg.
Local Open Scope string_scope.
Definition no_spec        := "tinyformat: Not enough conversion specifiers in format string".
Definition no_width_arg   := "tinyformat: Not enough arguments to read variable width".
Definition no_prec_arg    := "tinyformat: Not enough arguments to read variable precision".
Definition hex_float      := "tinyformat: the %a and %A conversion specs are not supported".
Definition percent_n      := "tinyformat: %n conversion spec not supported".
Definition unterminated   := "tinyformat: Conversion spec incorrectly terminated by end of string".
Definition no_format_arg  := "tinyformat: Not enough format arguments".
Definition too_many_specs := "tinyformat: Too many conversion specifiers in format string".
End msg.

(** ** The specifier interpreter (lines 56-239) *)

(** Lines 66-73. *)
Definition reset_stream (o : ostream) : ostream :=
  unsetf
    (Z.lor ios.adjustfield (Z.lor ios.basefield (Z.lor ios.floatfield
      (Z.lor ios.showbase (Z.lor ios.boolalpha (Z.lor ios.showpoint
        (Z.lor ios.showpos ios.uppercase)))))))
    (set_fill " " (set_precision 6 (set_width 0 o))).

(** 1) Parse flags (lines 79-114). *)
Fixpoint parse_flags (o : ostream) (spacePadPositive : bool) (widthExtra : Z)
  (c : cstr) : ostream * bool * Z * cstr :=
  match c with
  | [] => (o, spacePadPositive, widthExtra, c)
  | ch :: c' =>
      if Ascii.eqb ch "#" then
        parse_flags (setf (Z.lor ios.showpoint ios.showbase) o)
                    spacePadPositive widthExtra c'
      else if Ascii.eqb ch "0" then
        parse_flags (if test_flag ios.left o then o
                     else setf_mask ios.internal ios.adjustfield (set_fill "0" o))
                    spacePadPositive widthExtra c'
      else if Ascii.eqb ch "-" then
        parse_flags (setf_mask ios.left ios.adjustfield (set_fill " " o))
                    spacePadPositive widthExtra c'
      else if Ascii.eqb ch " " then
        parse_flags o (if test_flag ios.showpos o then spacePadPositive else true)
                    widthExtra c'
      else if Ascii.eqb ch "+" then
        parse_flags (setf ios.showpos o) false 1 c'
      else (o, spacePadPositive, widthExtra, c)
  end.

Section Interpreter.
Variable policy : error_policy.
Variable formatters : list FormatArg.

(** [numFormatters] is the length of the array [formatters] points to, so
    [argIndex < numFormatters] holds exactly when [formatters[argIndex]]
    exists. *)
Definition numFormatters : nat := List.length formatters.

(** [if (argIndex < numFormatters) v = formatters[argIndex++].toInt();
     else TINYFORMAT_ERROR(reason);] with [v] initialised to 0.  [toInt()]
    returns an [int]: the value read is confined to 32 bits. *)
Definition next_int (reason : string) (argIndex : nat) : M (Z * nat) :=
  match nth_error formatters argIndex with
  | Some a => ret (int_wrap (toInt a), S argIndex)
  | None => TINYFORMAT_ERROR policy reason ;; ret (0, argIndex)
  end.

(** 2) Parse width (lines 116-138): the new [widthSet], [argIndex], [c]. *)
Definition parse_width (c : cstr) (argIndex : nat) : M (bool * nat * cstr) :=
  '(widthSet, c) <-
     (if is_digit (deref c)
      then let (i, c') := parseIntAndAdvance c in
           on_out (set_width i) ;; ret (true, c')
      else ret (false, c)) ;;
  if Ascii.eqb (deref c) "*" then
    '(width, argIndex) <- next_int msg.no_width_arg argIndex ;;
    width <-
      (if width <? 0
       then on_out (fun o => setf_mask ios.left ios.adjustfield (set_fill " " o)) ;;
            ret (int_wrap (- width))
       else ret width) ;;
    on_out (set_width width) ;;
    ret (true, argIndex, advance c)
  else ret (widthSet, argIndex, c).

(** 3) Parse precision (lines 140-161): the new [precisionSet],
    [argIndex], [c]. *)
Definition parse_precision (c : cstr) (argIndex : nat)
  : M (bool * nat * cstr) :=
  if Ascii.eqb (deref c) "." then
    let c := advance c in
    '(precision, argIndex, c) <-
       (if Ascii.eqb (deref c) "*" then
          '(p, argIndex) <- next_int msg.no_prec_arg argIndex ;;
          ret (p, argIndex, advance c)
        else if is_digit (deref c) then
          let (p, c') := parseIntAndAdvance c in ret (p, argIndex, c')
        else if Ascii.eqb (deref c) "-" then
          let (_, c') := parseIntAndAdvance (advance c) in ret (0, argIndex, c')
        else ret (0, argIndex, c)) ;;
    on_out (set_precision precision) ;;
    ret (true, argIndex, c)
  else ret (false, argIndex, c).
End Interpreter.

(** 4) Ignore any C99 length modifier (lines 163-165). *)
Definition is_length_modifier (ch : ascii) : bool :=
  Ascii.eqb ch "l" || Ascii.eqb ch "h" || Ascii.eqb ch "L" ||
  Ascii.eqb ch "j" || Ascii.eqb ch "z" || Ascii.eqb ch "t".

Fixpoint skip_length_modifier (c : cstr) : cstr :=
  match c with
  | [] => c
  | ch :: c' => if is_length_modifier ch then skip_length_modifier c' else c
  end.

(** The locals of [streamStateFromFormat] when it reaches the conversion
    character (line 166). *)
Record spec_locals := mkLocals {
  l_spacePadPositive : bool;
  l_widthExtra       : Z;
  l_widthSet         : bool;
  l_precisionSet     : bool;
  l_argIndex         : nat;
  l_c                : cstr
}.

(** What the caller gets back: the three reference parameters and the
    returned pointer. *)
Record spec_result := mkSpec {
  res_spacePadPositive : bool;
  res_ntrunc           : Z;
  res_argIndex         : nat;
  res_fmtEnd           : cstr
}.

(** How the [switch] on the conversion character is left. *)
Inductive switch_exit :=
| Break (intConversion : bool) (ntrunc : Z)
| ReturnAtTerminator.                        (* case '\0': return c; *)

Definition is_conv (ch : ascii) (s : string) : bool :=
  existsb (Ascii.eqb ch) (list_ascii_of_string s).

Section Specifier.
Variable policy : error_policy.
Variable formatters : list FormatArg.

(** Lines 66-138, entered with [c = fmtStart + 1]: the reset of the
    stream, the flags and the width.  The outputs are [spacePadPositive],
    [widthExtra], [widthSet], [argIndex] and [c]. *)
Definition parse_flags_width (spacePadPositive : bool) (c : cstr)
  (argIndex : nat) : M (bool * Z * bool * nat * cstr) :=
  on_out reset_stream ;;
  o <- get_out ;;
  let '(o, spacePadPositive, widthExtra, c) :=
    parse_flags o spacePadPositive 0 c in
  set_out o ;;
  '(widthSet, argIndex, c) <- parse_width policy formatters c argIndex ;;
  ret (spacePadPositive, widthExtra, widthSet, argIndex, c).

(** Lines 66-165: everything before the conversion character. *)
Definition parse_spec_prefix (spacePadPositive : bool) (c : cstr)
  (argIndex : nat) : M spec_locals :=
  '(spacePadPositive, widthExtra, widthSet, argIndex, c) <-
     parse_flags_width spacePadPositive c argIndex ;;
  '(precisionSet, argIndex, c) <- parse_precision policy formatters c argIndex ;;
  ret (mkLocals spacePadPositive widthExtra widthSet precisionSet argIndex
                (skip_length_modifier c)).

(** 5) The conversion character (lines 169-227). *)
Definition conversion (ch : ascii) (precisionSet : bool) (ntrunc : Z)
  : M switch_exit :=
  if is_conv ch "udi" then
    on_out (setf_mask ios.dec ios.basefield) ;; ret (Break true ntrunc)
  else if is_conv ch "o" then
    on_out (setf_mask ios.oct ios.basefield) ;; ret (Break true ntrunc)
  else if is_conv ch "Xxp" then
    (if Ascii.eqb ch "X" then on_out (setf ios.uppercase) else ret tt) ;;
    on_out (setf_mask ios.hex ios.basefield) ;; ret (Break true ntrunc)
  else if is_conv ch "Ee" then
    (if Ascii.eqb ch "E" then on_out (setf ios.uppercase) else ret tt) ;;
    on_out (setf_mask ios.scientific ios.floatfield) ;;
    on_out (setf_mask ios.dec ios.basefield) ;; ret (Break false ntrunc)
  else if is_conv ch "Ff" then
    (if Ascii.eqb ch "F" then on_out (setf ios.uppercase) else ret tt) ;;
    on_out (setf_mask ios.fixed ios.floatfield) ;; ret (Break false ntrunc)
  else if is_conv ch "Gg" then
    (if Ascii.eqb ch "G" then on_out (setf ios.uppercase) else ret tt) ;;
    on_out (setf_mask ios.dec ios.basefield) ;;
    on_out (fun o => set_flags (Z.ldiff (flags o) ios.floatfield) o) ;;
    ret (Break false ntrunc)
  else if is_conv ch "aA" then
    TINYFORMAT_ERROR policy msg.hex_float ;; ret (Break false ntrunc)
  else if is_conv ch "c" then
    ret (Break false ntrunc)
  else if is_conv ch "s" then
    o <- get_out ;;
    let ntrunc := if precisionSet then int_wrap (precision o) else ntrunc in
    on_out (setf ios.boolalpha) ;; ret (Break false ntrunc)
  else if is_conv ch "n" then
    TINYFORMAT_ERROR policy msg.percent_n ;; ret (Break false ntrunc)
  else if Ascii.eqb ch NUL then
    TINYFORMAT_ERROR policy msg.unterminated ;; ret ReturnAtTerminator
  else ret (Break false ntrunc).

(** 6) Lines 228-237. *)
Definition precision_as_width (widthExtra : Z) (o : ostream) : ostream :=
  set_fill "0"
    (setf_mask ios.internal ios.adjustfield
       (set_width (precision o + widthExtra) o)).

Definition streamStateFromFormat (spacePadPositive : bool) (ntrunc : Z)
  (fmtStart : cstr) (argIndex : nat) : M spec_result :=
  if negb (Ascii.eqb (deref fmtStart) "%") then
    TINYFORMAT_ERROR policy msg.no_spec ;;
    ret (mkSpec spacePadPositive ntrunc argIndex fmtStart)
  else
    l <- parse_spec_prefix spacePadPositive (advance fmtStart) argIndex ;;
    x <- conversion (deref (l_c l)) (l_precisionSet l) ntrunc ;;
    match x with
    | ReturnAtTerminator =>
        ret (mkSpec (l_spacePadPositive l) ntrunc (l_argIndex l) (l_c l))
    | Break intConversion ntrunc =>
        (if intConversion && l_precisionSet l && negb (l_widthSet l)
         then on_out (precision_as_width (l_widthExtra l))
         else ret tt) ;;
        ret (mkSpec (l_spacePadPositive l) ntrunc (l_argIndex l)
                    (advance (l_c l)))
    end.

(** ** The driver (lines 243-299) *)

(** Lines 277-284: render on a temporary stream with the sign shown, turn
    every '+' of the text into a space, insert the text in [out]. *)
Definition format_space_padded (arg : FormatArg) (fmt fmtEnd : cstr)
  (ntrunc : Z) (o : ostream) : ostream :=
  let tmpStream := mkStream [] (width o) (precision o) (flags o) (fill o) in
  let tmpStream := setf ios.showpos tmpStream in
  let tmpStream := format arg tmpStream fmt fmtEnd ntrunc in
  let result :=
    map (fun ch => if Ascii.eqb ch "+" then " " else ch) (written tmpStream) in
  insert_string result o.

(** How the [for] loop is left. *)
Inductive loop_exit :=
| LoopDone (fmt : cstr)    (* the condition argIndex < numFormatters failed *)
| EarlyReturn              (* the return of line 265 *)
| OutOfFuel.

(** Lines 253-287.  Every turn increments [argIndex], so [numFormatters]
    turns are enough: see [formatImpl_loop_fuel]. *)
Fixpoint formatImpl_loop (fuel : nat) (fmt : cstr) (argIndex : nat)
  : M loop_exit :=
  if (argIndex <? numFormatters formatters)%nat then
    match fuel with
    | O => ret OutOfFuel
    | S fuel =>
        o <- get_out ;;
        let (o, fmt) := printFormatStringLiteral o fmt in
        set_out o ;;
        r <- streamStateFromFormat false (-1) fmt argIndex ;;
        let argIndex := res_argIndex r in
        match nth_error formatters argIndex with
        | None =>                       (* argIndex >= numFormatters *)
            TINYFORMAT_ERROR policy msg.no_format_arg ;;
            ret EarlyReturn
        | Some arg =>
            on_out (if negb (res_spacePadPositive r)
                    then fun o => format arg o fmt (res_fmtEnd r) (res_ntrunc r)
                    else format_space_padded arg fmt (res_fmtEnd r) (res_ntrunc r)) ;;
            formatImpl_loop fuel (res_fmtEnd r) (S argIndex)
        end
    end
  else ret (LoopDone fmt).

(** Lines 295-298. *)
Definition restore_stream (origWidth origPrecision origFlags : Z)
  (origFill : ascii) (o : ostream) : ostream :=
  set_fill origFill
    (set_flags origFlags (set_precision origPrecision (set_width origWidth o))).

Definition formatImpl (fmt : cstr) : M unit :=
  o <- get_out ;;
  let origWidth := width o in
  let origPrecision := precision o in
  let origFlags := flags o in
  let origFill := fill o in
  x <- formatImpl_loop (numFormatters formatters) fmt 0 ;;
  match x with
  | LoopDone fmt =>
      o <- get_out ;;
      let (o, fmt) := printFormatStringLiteral o fmt in
      set_out o ;;
      (if negb (Ascii.eqb (deref fmt) NUL)
       then TINYFORMAT_ERROR policy msg.too_many_specs
       else ret tt) ;;
      on_out (restore_stream origWidth origPrecision origFlags origFill)
  | EarlyReturn => ret tt
  | OutOfFuel => ret tt
  end.
End Specifier.

(** A freshly constructed stream: [std::ios] starts with [skipws | dec],
    width 0, precision 6 and a blank fill character. *)
Definition fresh_stream : ostream :=
  mkStream [] 0 6 (Z.lor ios.skipws ios.dec) " ".

Definition fresh_world : world := mkWorld fresh_stream [].

(** An argument for the examples: an integer handle whose rendering is the
    text it was built with, put on the stream as [out << text]. *)
Definition sample_arg (n : Z) (text : string) : FormatArg :=
  mkArg n (fun o _ _ _ => insert_string (cstring text) o).

(** ** The vocabulary of the properties *)

(** A literal character: neither the terminator nor a percent sign. *)
Definition literal_char (ch : ascii) : bool :=
  negb (Ascii.eqb ch NUL) && negb (Ascii.eqb ch "%").

(** The flag characters of the loop of lines 79-114. *)
Definition is_flag (ch : ascii) : bool := is_conv ch "#0- +".

(** Whether the flag [ch] is among the flags [fl]. *)
Definition has_flag (ch : ascii) (fl : list ascii) : bool :=
  existsb (Ascii.eqb ch) fl.

(** The conversion characters the [switch] has a case for, the terminator
    apart. *)
Definition known_conversions : string := "diuoxXpeEfFgGcsaAn".

(** Those that set [intConversion]. *)
Definition integer_conversions : string := "diuoxXp".

(** The positions of two flags in the bitmask. *)
Definition showpos_bit : Z := 11.

(** The number a run of digits is read as. *)
Definition decimal_value (ds : list ascii) : Z := fst (parseIntAndAdvance ds).

(** The values of an [int]. *)
Definition in_int (z : Z) : Prop := - 2 ^ 31 <= z < 2 ^ 31.

(** The stream as "%d" configures it. *)
Definition decimal_stream (o : ostream) : ostream :=
  setf_mask ios.dec ios.basefield (reset_stream o).

(** A computation that comes back to its caller from every state. *)
Definition returns {A} (m : M A) : Prop :=
  forall w, exists w' a, m w = (w', Normal a).

(** A computation that leaves an attribute of the destination stream as it
    found it, however it ends. *)
Definition preserves {A X} (attr : ostream -> X) (m : M A) : Prop :=
  forall w w' r, m w = (w', r) -> attr (out w') = attr (out w).

(** What a computation guarantees about the value it returns. *)
Definition ensures {A} (m : M A) (P : A -> Prop) : Prop :=
  forall w w' a, m w = (w', Normal a) -> P a.

(** The characters at which the flags, the width and the precision stop. *)
Definition ends_number (ch : ascii) : bool :=
  negb (is_flag ch) && negb (is_digit ch) && negb (Ascii.eqb ch "*")
  && negb (Ascii.eqb ch ".").

(** ** More vocabulary: numerals, cursors, scanning *)

(** The value of a digit and of a decimal numeral, most significant digit
    first. *)
Definition digit_value (ch : ascii) : Z := code ch - code "0".

Definition numeral_value (ds : list ascii) : Z :=
  fold_left (fun i ch => 10 * i + digit_value ch) ds 0.

(** [r] is a cursor into the string that [c] points to, at or behind [c]. *)
Definition cursor_in (c r : cstr) : Prop := exists pre, c = pre ++ r.

(** Where the literal scanner may stop: at the terminator, or at a '%' that
    is not followed by a second one. *)
Definition scan_stop (c : cstr) : bool :=
  Ascii.eqb (deref c) NUL
  || (Ascii.eqb (deref c) "%" && negb (Ascii.eqb (deref (advance c)) "%")).

(** The percent signs of a text, counted, and what is left of the text
    without them. *)
Definition percents (s : list ascii) : nat :=
  List.length (filter (Ascii.eqb "%") s).

Definition non_percents (s : list ascii) : list ascii :=
  filter (fun ch => negb (Ascii.eqb ch "%")) s.

(** A text with every pair of '%' replaced by one '%', read from the left;
    every other character stays where it is. *)
Fixpoint unescape (c : list ascii) : list ascii :=
  match c with
  | [] => []
  | ch :: c1 =>
      match c1 with
      | ch1 :: c2 =>
          if Ascii.eqb ch "%" && Ascii.eqb ch1 "%"
          then "%" :: unescape c2
          else ch :: unescape c1
      | [] => [ch]
      end
  end.

(** The flags that [streamStateFromFormat] clears before it reads a
    specifier (lines 71-73). *)
Definition reset_mask : Z :=
  Z.lor ios.adjustfield (Z.lor ios.basefield (Z.lor ios.floatfield
    (Z.lor ios.showbase (Z.lor ios.boolalpha (Z.lor ios.showpoint
      (Z.lor ios.showpos ios.uppercase)))))).

(** One read of a variable width or precision: it takes the argument at
    the index when there is one, and never one behind the last. *)
Definition arg_step (fs : list FormatArg) (ai ai' : nat) : Prop :=
  (ai <= ai' <= S ai)%nat /\ (ai' <= Nat.max ai (List.length fs))%nat.

(** The stream as the reset of lines 66-73 and the flags [fl] leave it. *)
Definition flags_stream (sp : bool) (fl : list ascii) (o : ostream) : ostream :=
  fst (fst (fst (parse_flags (reset_stream o) sp 0 fl))).

(** The values of [spacePadPositive] and [widthExtra] behind the flags
    [fl]. *)
Definition flags_space_pad (sp : bool) (fl : list ascii) : bool :=
  if has_flag "+" fl then false else sp || has_flag " " fl.

Definition flags_width_extra (fl : list ascii) : Z :=
  if has_flag "+" fl then 1 else 0.

(** The same result with one more argument taken. *)
Definition one_more_argument (r : result spec_result) : result spec_result :=
  match r with
  | Normal r =>
      Normal (mkSpec (res_spacePadPositive r) (res_ntrunc r)
                     (S (res_argIndex r)) (res_fmtEnd r))
  | Unwinding => Unwinding
  end.

(** The conversion characters for numbers, and what lines 172-203 choose
    for each: the base, the floating-point notation and the case. *)
Definition numeric_conversions : string := "diuoxXpeEfFgG".

Definition conversion_base (ch : ascii) : Z :=
  if is_conv ch "diueEgG" then ios.dec
  else if is_conv ch "o" then ios.oct
  else if is_conv ch "xXp" then ios.hex
  else 0.

Definition conversion_float (ch : ascii) : Z :=
  if is_conv ch "eE" then ios.scientific
  else if is_conv ch "fF" then ios.fixed
  else 0.

Definition conversion_upper (ch : ascii) : Z :=
  if is_conv ch "XEFG" then ios.uppercase else 0.

(** An invariant of the destination stream that a computation keeps,
    however it ends. *)
Definition keeps_invariant {A} (P : ostream -> Prop) (m : M A) : Prop :=
  forall w w' r, m w = (w', r) -> P (out w) -> P (out w').

(** The fill characters that a specifier can leave. *)
Definition blank_or_zero (o : ostream) : Prop :=
  fill o = " " \/ fill o = "0".

(** Under the policy that leaves the function at a report: nothing is
    reported when the computation returns, and exactly one reason when it
    does not. *)
Definition reports_at_most_once {A} (m : M A) : Prop :=
  forall w w' r, m w = (w', r) ->
    match r with
    | Normal _ => reports w' = reports w
    | Unwinding => exists reason, reports w' = reports w ++ [reason]
    end.

(** An argument whose rendering only appends to the stream it is given. *)
Definition appends_only (a : FormatArg) : Prop :=
  forall o fmt fmtEnd n,
    exists s, written (format a o fmt fmtEnd n) = written o ++ s.

(** A computation that only appends to the destination stream. *)
Definition grows {A} (m : M A) : Prop :=
  forall w w' r, m w = (w', r) ->
    exists s, written (out w') = written (out w) ++ s.

(** ** Format strings without a variable width or precision *)

(** A precision that is written out: nothing, or a '.' and digits. *)
Definition plain_precision (p : cstr) : bool :=
  match p with
  | [] => true
  | ch :: ds => Ascii.eqb ch "." && forallb is_digit ds
  end.

(** A conversion character that ends a specifier without a report: any
    character the [switch] of lines 169-227 has no report for (the
    [default] case included) and that none of the earlier loops consumes.
    '%' is left out because the literal scanner reads "%%" as an escape. *)
Definition plain_conversion (ch : ascii) : bool :=
  ends_number ch && negb (is_length_modifier ch) &&
  negb (is_conv ch "aA") && negb (is_conv ch "n") &&
  negb (Ascii.eqb ch NUL) && negb (Ascii.eqb ch "%").

(** [plain_format n fmt]: the format string [fmt] is made of literal
    characters, escapes "%%" and [n] specifiers of the form
    %[flags][width][.precision][length]conversion. *)
Inductive plain_format : nat -> cstr -> Prop :=
| plain_end : plain_format 0 []
| plain_char n ch fmt :
    literal_char ch = true -> plain_format n fmt ->
    plain_format n (ch :: fmt)
| plain_escape n fmt :
    plain_format n fmt -> plain_format n ("%" :: "%" :: fmt)
| plain_spec n fl ds prec lens conv fmt :
    forallb is_flag fl = true ->
    forallb is_digit ds = true ->
    plain_precision prec = true ->
    forallb is_length_modifier lens = true ->
    plain_conversion conv = true ->
    plain_format n fmt ->
    plain_format (S n) ("%" :: fl ++ ds ++ prec ++ lens ++ conv :: fmt).

(** * Properties *)

(** ** Streams *)

Lemma put_nil (o : ostream) : put [] o = o.
Proof.
  destruct o as [txt w p f ch]; unfold put; simpl.
  now rewrite app_nil_r.
Qed.

Lemma put_put (s t : list ascii) (o : ostream) :
  put t (put s o) = put (s ++ t) o.
Proof.
  unfold put; simpl. now rewrite app_assoc.
Qed.

Lemma write_prefix (pre c : cstr) (o : ostream) :
  write (pre ++ c) (List.length pre) o = put pre o.
Proof.
  unfold write. rewrite firstn_app, firstn_all, Nat.sub_diag.
  simpl. now rewrite app_nil_r.
Qed.

Lemma write_0 (c : cstr) (o : ostream) : write c 0 o = o.
Proof. unfold write. simpl. apply put_nil. Qed.

(** ** The literal scanner *)

(** The pending run [pre] of the scanner is written sooner or later: the
    scan goes on as if it had been written at once. *)
Lemma scan_literal_run (c pre : cstr) (o : ostream) :
  scan_literal o (pre ++ c) (List.length pre) c = scan_literal (put pre o) c 0 c.
Proof.
  revert pre o.
  induction c as [|ch c1 IH]; intros pre o; simpl.
  - now rewrite write_prefix, write_0.
  - rewrite write_prefix, write_0.
    destruct (Ascii.eqb ch NUL); [reflexivity|].
    destruct (Ascii.eqb ch "%"); [reflexivity|].
    change (pre ++ ch :: c1) with (pre ++ [ch] ++ c1).
    rewrite app_assoc.
    replace (S (List.length pre)) with (List.length (pre ++ [ch]))
      by (rewrite length_app; simpl; lia).
    rewrite IH.
    change (ch :: c1) with ([ch] ++ c1).
    change 1%nat with (List.length [ch]).
    rewrite (IH [ch] (put pre o)).
    now rewrite put_put.
Qed.

Lemma scanner_at_end (o : ostream) :
  printFormatStringLiteral o [] = (o, []).
Proof.
  unfold printFormatStringLiteral; simpl. now rewrite write_0.
Qed.

(** One literal character is copied and the scan goes on behind it. *)
Lemma scanner_literal_char (ch : ascii) (rest : cstr) (o : ostream) :
  literal_char ch = true ->
  printFormatStringLiteral o (ch :: rest)
  = printFormatStringLiteral (put [ch] o) rest.
Proof.
  unfold literal_char, printFormatStringLiteral; intros H.
  apply andb_true_iff in H as [H0 H1].
  apply negb_true_iff in H0, H1.
  simpl. rewrite H0, H1.
  apply (scan_literal_run rest [ch] o).
Qed.

Lemma scanner_literal_run (s rest : cstr) (o : ostream) :
  forallb literal_char s = true ->
  printFormatStringLiteral o (s ++ rest)
  = printFormatStringLiteral (put s o) rest.
Proof.
  revert o. induction s as [|ch s IH]; intros o H; simpl in *.
  - now rewrite put_nil.
  - apply andb_true_iff in H as [Hc Hs].
    rewrite scanner_literal_char by assumption.
    rewrite IH by assumption.
    now rewrite put_put.
Qed.

(** The escape: two percent signs give one, and the scan goes on. *)
Lemma scanner_escape (rest : cstr) (o : ostream) :
  printFormatStringLiteral o ("%" :: "%" :: rest)
  = printFormatStringLiteral (put ["%"] o) rest.
Proof.
  unfold printFormatStringLiteral; simpl.
  rewrite write_0.
  apply (scan_literal_run rest ["%"] o).
Qed.

Lemma scanner_escapes (N : nat) (rest : cstr) (o : ostream) :
  printFormatStringLiteral o (repeat "%" (2 * N) ++ rest)
  = printFormatStringLiteral (put (repeat "%" N) o) rest.
Proof.
  revert o. induction N as [|N IH]; intros o.
  - simpl. now rewrite put_nil.
  - replace (2 * S N)%nat with (S (S (2 * N))) by lia.
    simpl repeat. simpl app.
    rewrite scanner_escape, IH, put_put.
    reflexivity.
Qed.

(** A percent sign that is not followed by another one stops the scan. *)
Lemma scanner_stops (rest : cstr) (o : ostream) :
  deref rest <> "%" ->
  printFormatStringLiteral o ("%" :: rest) = (o, "%" :: rest).
Proof.
  unfold printFormatStringLiteral; intros H; simpl.
  rewrite write_0.
  destruct rest as [|ch rest]; [reflexivity|].
  simpl in H. apply Ascii.eqb_neq in H. now rewrite H.
Qed.

(** C6: in the literal scanner, "%%" gives exactly one literal '%', whatever
    follows, and more generally a run of 2N '%' gives N of them, the scan
    going on behind the run; when the text behind the run holds no '%', the
    output is exactly N '%' and that text, and the scan ends at the
    terminator; a run of 2N+1 '%' gives N literal '%' and the returned
    cursor is at the last '%' of the run, the start of a specifier. *)
Theorem percent_runs_collapse :
  (forall o rest,
      printFormatStringLiteral o ("%" :: "%" :: rest)
      = printFormatStringLiteral (put ["%"] o) rest) /\
  (forall o N rest,
      printFormatStringLiteral o (repeat "%" (2 * N) ++ rest)
      = printFormatStringLiteral (put (repeat "%" N) o) rest) /\
  (forall o N rest,
      forallb literal_char rest = true ->
      printFormatStringLiteral o (repeat "%" (2 * N) ++ rest)
      = (put (repeat "%" N ++ rest) o, [])) /\
  (forall o N rest,
      deref rest <> "%" ->
      printFormatStringLiteral o (repeat "%" (2 * N + 1) ++ rest)
      = (put (repeat "%" N) o, "%" :: rest)).
Proof.
  split; [|split; [|split]].
  - intros o rest. apply scanner_escape.
  - intros o N rest. apply scanner_escapes.
  - intros o N rest H.
    rewrite scanner_escapes.
    rewrite <- (app_nil_r rest) at 1.
    rewrite scanner_literal_run by assumption.
    now rewrite scanner_at_end, put_put.
  - intros o N rest H.
    rewrite repeat_app, <- app_assoc.
    rewrite scanner_escapes.
    simpl. now apply scanner_stops.
Qed.

Lemma percent_runs_collapse_witness :
  printFormatStringLiteral fresh_stream (cstring "%%%%%%done")
  = (put (cstring "%%%done") fresh_stream, []) /\
  printFormatStringLiteral fresh_stream (cstring "%%%%%d and more")
  = (put (cstring "%%") fresh_stream, cstring "%d and more").
Proof.
  destruct percent_runs_collapse as (_ & _ & Heven & Hodd).
  split.
  - apply (Heven fresh_stream 3%nat (cstring "done")). reflexivity.
  - apply (Hodd fresh_stream 2%nat (cstring "d and more")).
    simpl. discriminate.
Defined.

(** ** The driver on a format string without specifiers *)

Lemma scanner_plain_text (s : cstr) (o : ostream) :
  forallb literal_char s = true ->
  printFormatStringLiteral o s = (put s o, []).
Proof.
  intros H.
  rewrite <- (app_nil_r s) at 1.
  rewrite scanner_literal_run by assumption.
  apply scanner_at_end.
Qed.

(** C9: a format string that holds no '%' (and, being a C string, no NUL
    before its end), formatted with no argument, is written to the output
    character for character; nothing is reported and the call returns. *)
Theorem plain_text_is_copied (policy : error_policy) (fmt : cstr) (w : world) :
  forallb literal_char fmt = true ->
  formatImpl policy [] fmt w
  = (mkWorld (put fmt (out w)) (reports w), Normal tt).
Proof.
  intros H.
  unfold formatImpl, bind, get_out, set_out, on_out, ret; simpl.
  rewrite scanner_plain_text by assumption.
  simpl. reflexivity.
Qed.

Lemma plain_text_is_copied_witness :
  formatImpl ErrorUnwinds [] (cstring "hello, world") fresh_world
  = (mkWorld (put (cstring "hello, world") fresh_stream) [], Normal tt).
Proof.
  apply (plain_text_is_copied ErrorUnwinds (cstring "hello, world") fresh_world).
  reflexivity.
Defined.

(** ** Computations *)

Lemma bind_normal {A B} (m : M A) (k : A -> M B) w w' a :
  m w = (w', Normal a) -> bind m k w = k a w'.
Proof. intros H. unfold bind. now rewrite H. Qed.

Lemma bind_unwinding {A B} (m : M A) (k : A -> M B) w w' :
  m w = (w', Unwinding) -> bind m k w = (w', Unwinding).
Proof. intros H. unfold bind. now rewrite H. Qed.

Lemma returns_ret {A} (a : A) : returns (ret a).
Proof. intros w. exists w, a. reflexivity. Qed.

Lemma returns_bind {A B} (m : M A) (k : A -> M B) :
  returns m -> (forall a, returns (k a)) -> returns (bind m k).
Proof.
  intros Hm Hk w.
  destruct (Hm w) as (w1 & a & E).
  destruct (Hk a w1) as (w2 & b & E2).
  exists w2, b. now rewrite (bind_normal _ _ _ _ _ E).
Qed.

Lemma returns_on_out (f : ostream -> ostream) : returns (on_out f).
Proof. intros w. eexists; eexists; reflexivity. Qed.

Lemma returns_get_out : returns get_out.
Proof. intros w. eexists; eexists; reflexivity. Qed.

Lemma returns_set_out (o : ostream) : returns (set_out o).
Proof. intros w. eexists; eexists; reflexivity. Qed.

Lemma returns_error (reason : string) :
  returns (TINYFORMAT_ERROR ErrorReturns reason).
Proof. intros w. eexists; eexists; reflexivity. Qed.

Create HintDb returns.
#[local] Hint Resolve returns_ret returns_on_out returns_get_out
  returns_set_out returns_error : returns.

Ltac returns_step :=
  match goal with
  | |- returns (bind _ _) => apply returns_bind; [|intros]
  | |- returns (if ?b then _ else _) => destruct b
  | |- returns (match ?x with _ => _ end) => destruct x
  | |- returns _ => solve [auto with returns]
  end.

Section Preserves.
Context {X : Type} (attr : ostream -> X).

Lemma preserves_ret {A} (a : A) : preserves attr (ret a).
Proof. intros w w' r H. inversion H. reflexivity. Qed.

Lemma preserves_bind {A B} (m : M A) (k : A -> M B) :
  preserves attr m -> (forall a, preserves attr (k a)) ->
  preserves attr (bind m k).
Proof.
  intros Hm Hk w w' r. unfold bind.
  destruct (m w) as [w1 [a|]] eqn:E; intros H.
  - rewrite (Hk a _ _ _ H). apply (Hm _ _ _ E).
  - inversion H; subst. apply (Hm _ _ _ E).
Qed.

Lemma preserves_on_out (f : ostream -> ostream) :
  (forall o, attr (f o) = attr o) -> preserves attr (on_out f).
Proof. intros Hf w w' r H. inversion H. apply Hf. Qed.

Lemma preserves_get_out : preserves attr get_out.
Proof. intros w w' r H. inversion H. reflexivity. Qed.

Lemma preserves_error policy reason :
  preserves attr (TINYFORMAT_ERROR policy reason).
Proof. intros w w' r H. inversion H. reflexivity. Qed.
End Preserves.

Ltac preserves_step :=
  match goal with
  | |- preserves _ (bind _ _) => apply preserves_bind; [|intros]
  | |- preserves _ (ret _) => apply preserves_ret
  | |- preserves _ get_out => apply preserves_get_out
  | |- preserves _ (TINYFORMAT_ERROR _ _) => apply preserves_error
  | |- preserves _ (on_out _) =>
      apply preserves_on_out; intros; reflexivity
  | |- preserves _ (if ?b then _ else _) => destruct b
  | |- preserves _ (match ?x with _ => _ end) => destruct x
  end.

Lemma ensures_ret {A} (a : A) (P : A -> Prop) : P a -> ensures (ret a) P.
Proof. intros H w w' b E. inversion E; subst. exact H. Qed.

Lemma ensures_bind {A B} (m : M A) (k : A -> M B) (Q : A -> Prop)
  (P : B -> Prop) :
  ensures m Q -> (forall a, Q a -> ensures (k a) P) -> ensures (bind m k) P.
Proof.
  intros Hm Hk w w' b. unfold bind.
  destruct (m w) as [w1 [a|]] eqn:E; [|discriminate].
  intros H. exact (Hk a (Hm _ _ _ E) _ _ _ H).
Qed.

Lemma ensures_any {A} (m : M A) : ensures m (fun _ => True).
Proof. intros w w' a _. exact I. Qed.

(** ** Format flags as bits *)

Lemma land_pow2 (x k : Z) :
  0 <= k -> (Z.land x (2 ^ k) =? 0) = negb (Z.testbit x k).
Proof.
  intros Hk.
  destruct (Z.testbit x k) eqn:E; simpl.
  - apply Z.eqb_neq. intros H0.
    assert (Hb : Z.testbit (Z.land x (2 ^ k)) k = true).
    { rewrite Z.land_spec, E, Z.pow2_bits_true; [reflexivity | lia]. }
    rewrite H0, Z.bits_0 in Hb. discriminate.
  - apply Z.eqb_eq. apply Z.bits_inj'. intros n Hn.
    rewrite Z.land_spec, Z.bits_0.
    destruct (Z.eq_dec n k) as [->|Hne].
    + now rewrite E.
    + rewrite Z.pow2_bits_false by lia. apply andb_false_r.
Qed.

(** Testing a one-bit flag reads that bit. *)
Lemma test_flag_bit (k : Z) (o : ostream) :
  0 <= k -> test_flag (2 ^ k) o = Z.testbit (flags o) k.
Proof.
  intros Hk. unfold test_flag.
  rewrite land_pow2 by assumption. apply negb_involutive.
Qed.

Lemma testbit_setf (f : Z) (o : ostream) (k : Z) :
  Z.testbit (flags (setf f o)) k = Z.testbit (flags o) k || Z.testbit f k.
Proof. unfold setf; simpl. apply Z.lor_spec. Qed.

Lemma testbit_setf_mask (f mask : Z) (o : ostream) (k : Z) :
  Z.testbit (flags (setf_mask f mask o)) k
  = (Z.testbit (flags o) k && negb (Z.testbit mask k))
    || (Z.testbit f k && Z.testbit mask k).
Proof.
  unfold setf_mask; simpl.
  now rewrite Z.lor_spec, Z.ldiff_spec, Z.land_spec.
Qed.

Lemma testbit_unsetf (mask : Z) (o : ostream) (k : Z) :
  Z.testbit (flags (unsetf mask o)) k
  = Z.testbit (flags o) k && negb (Z.testbit mask k).
Proof. unfold unsetf; simpl. apply Z.ldiff_spec. Qed.

(** After [setf(f, mask)] the field [mask] holds [f & mask]. *)
Lemma field_after_setf_mask (f mask : Z) (o : ostream) :
  Z.land (flags (setf_mask f mask o)) mask = Z.land f mask.
Proof.
  unfold setf_mask; simpl.
  apply Z.bits_inj'. intros n _.
  rewrite !Z.land_spec, Z.lor_spec, Z.ldiff_spec, Z.land_spec.
  destruct (Z.testbit (flags o) n), (Z.testbit f n), (Z.testbit mask n);
    reflexivity.
Qed.

(** Replaces the bits of closed constants by their values. *)
Ltac const_bits :=
  repeat match goal with
  | |- context [Z.testbit ?c ?k] =>
      let v := eval vm_compute in (Z.testbit c k) in
      lazymatch v with
      | true => change (Z.testbit c k) with true
      | false => change (Z.testbit c k) with false
      end
  end.

Ltac flag_bits :=
  rewrite ?testbit_setf, ?testbit_setf_mask, ?testbit_unsetf;
  const_bits;
  rewrite ?andb_true_r, ?andb_false_r, ?orb_false_r, ?orb_true_r.

Lemma test_showpos (o : ostream) :
  test_flag ios.showpos o = Z.testbit (flags o) showpos_bit.
Proof. apply (test_flag_bit 11). lia. Qed.


Lemma showpos_after_reset (o : ostream) :
  test_flag ios.showpos (reset_stream o) = false.
Proof.
  rewrite test_showpos. unfold reset_stream, showpos_bit.
  rewrite testbit_unsetf. const_bits. apply andb_false_r.
Qed.

(** ** Values of type [int] *)

Lemma int_wrap_in_int (z : Z) : in_int (int_wrap z).
Proof.
  unfold in_int, int_wrap.
  pose proof (Z.mod_pos_bound (z + 2 ^ 31) (2 ^ 32) ltac:(lia)). lia.
Qed.

Lemma int_wrap_small (z : Z) : in_int z -> int_wrap z = z.
Proof.
  unfold in_int, int_wrap. intros H.
  rewrite Z.mod_small by lia. lia.
Qed.

Lemma zero_in_int : in_int 0.
Proof. unfold in_int. lia. Qed.

Lemma parseInt_loop_in_int (c : cstr) (i : Z) :
  in_int i -> in_int (fst (parseInt_loop i c)).
Proof.
  revert i. induction c as [|ch c IH]; intros i Hi; simpl; [assumption|].
  destruct (is_digit ch); [|assumption].
  apply IH, int_wrap_in_int.
Qed.

Lemma parseInt_loop_app (ds tail : cstr) :
  forallb is_digit ds = true ->
  is_digit (deref tail) = false ->
  forall i, parseInt_loop i (ds ++ tail) = (fst (parseInt_loop i ds), tail).
Proof.
  intros Hds Htail.
  induction ds as [|d ds IH]; intros i; cbn [app parseInt_loop fst].
  - destruct tail as [|ch tail]; [reflexivity|].
    cbn [deref] in Htail. cbn [parseInt_loop]. now rewrite Htail.
  - cbn [forallb] in Hds. apply andb_true_iff in Hds as [Hd Hds].
    rewrite Hd. apply IH, Hds.
Qed.

(** ** The flags *)

Lemma is_flag_cases (ch : ascii) :
  is_flag ch = true ->
  ch = "#" \/ ch = "0" \/ ch = "-" \/ ch = " " \/ ch = "+".
Proof.
  unfold is_flag, is_conv; simpl.
  rewrite !orb_true_iff, !Ascii.eqb_eq. intuition discriminate.
Qed.

Lemma parse_flags_stops (o : ostream) (sp : bool) (we : Z) (c : cstr) :
  is_flag (deref c) = false -> parse_flags o sp we c = (o, sp, we, c).
Proof.
  destruct c as [|ch c]; [reflexivity|].
  unfold is_flag, is_conv; simpl. rewrite !orb_false_iff.
  intros (H1 & H2 & H3 & H4 & H5 & _).
  now rewrite H1, H2, H3, H4, H5.
Qed.

(** The five flag cases of the loop. *)
Lemma parse_flags_hash o sp we c :
  parse_flags o sp we ("#" :: c)
  = parse_flags (setf (Z.lor ios.showpoint ios.showbase) o) sp we c.
Proof. reflexivity. Qed.

Lemma parse_flags_zero o sp we c :
  parse_flags o sp we ("0" :: c)
  = parse_flags (if test_flag ios.left o then o
                 else setf_mask ios.internal ios.adjustfield (set_fill "0" o))
                sp we c.
Proof. reflexivity. Qed.

Lemma parse_flags_minus o sp we c :
  parse_flags o sp we ("-" :: c)
  = parse_flags (setf_mask ios.left ios.adjustfield (set_fill " " o)) sp we c.
Proof. reflexivity. Qed.

Lemma parse_flags_space o sp we c :
  parse_flags o sp we (" " :: c)
  = parse_flags o (if test_flag ios.showpos o then sp else true) we c.
Proof. reflexivity. Qed.

Lemma parse_flags_plus o sp we c :
  parse_flags o sp we ("+" :: c) = parse_flags (setf ios.showpos o) false 1 c.
Proof. reflexivity. Qed.

Lemma has_flag_cons (a b : ascii) (fl : list ascii) :
  has_flag a (b :: fl) = Ascii.eqb a b || has_flag a fl.
Proof. reflexivity. Qed.

(** Decides the comparisons of character constants. *)
Ltac const_chars :=
  repeat match goal with
  | |- context [Ascii.eqb ?a ?b] =>
      let v := eval vm_compute in (Ascii.eqb a b) in
      lazymatch v with
      | true => change (Ascii.eqb a b) with true
      | false => change (Ascii.eqb a b) with false
      end
  end;
  cbn [orb andb negb].

(** What the flag loop leaves behind when it runs over the flags [fl]:
    the sign-related outputs, and the parts of the stream it never touches. *)
Lemma parse_flags_spec (fl rest : cstr) :
  forallb is_flag fl = true ->
  is_flag (deref rest) = false ->
  forall (o : ostream) (sp : bool) (we : Z),
  exists o',
    parse_flags o sp we (fl ++ rest)
    = (o',
       if has_flag "+" fl then false
       else sp || (has_flag " " fl && negb (test_flag ios.showpos o)),
       if has_flag "+" fl then 1 else we,
       rest) /\
    test_flag ios.showpos o' = test_flag ios.showpos o || has_flag "+" fl /\
    written o' = written o /\ width o' = width o /\ precision o' = precision o.
Proof.
  intros Hfl Hrest.
  induction fl as [|ch fl IH]; intros o sp we.
  - exists o. simpl. rewrite parse_flags_stops by assumption.
    rewrite !orb_false_r. auto.
  - simpl in Hfl. apply andb_true_iff in Hfl as [Hch Hfl].
    specialize (IH Hfl).
    rewrite <- app_comm_cons, !has_flag_cons.
    destruct (is_flag_cases ch Hch) as [-> | [-> | [-> | [-> | ->]]]];
      const_chars.
    + rewrite parse_flags_hash.
      destruct (IH (setf (Z.lor ios.showpoint ios.showbase) o) sp we)
        as (o' & E & Hp & Hw & Hwd & Hpr).
      exists o'. rewrite E, Hp, !test_showpos. unfold showpos_bit.
      flag_bits. auto.
    + rewrite parse_flags_zero.
      destruct (IH (if test_flag ios.left o then o
                    else setf_mask ios.internal ios.adjustfield (set_fill "0" o))
                   sp we) as (o' & E & Hp & Hw & Hwd & Hpr).
      exists o'. rewrite E, Hp, Hw, Hwd, Hpr.
      destruct (test_flag ios.left o); [auto|].
      rewrite !test_showpos. unfold showpos_bit. flag_bits. auto.
    + rewrite parse_flags_minus.
      destruct (IH (setf_mask ios.left ios.adjustfield (set_fill " " o)) sp we)
        as (o' & E & Hp & Hw & Hwd & Hpr).
      exists o'. rewrite E, Hp, Hw, Hwd, Hpr.
      rewrite !test_showpos. unfold showpos_bit. flag_bits. auto.
    + rewrite parse_flags_space.
      destruct (IH o (if test_flag ios.showpos o then sp else true) we)
        as (o' & E & Hp & Hw & Hwd & Hpr).
      exists o'. rewrite E.
      destruct (has_flag "+" fl), (test_flag ios.showpos o), sp,
        (has_flag " " fl); auto.
    + rewrite parse_flags_plus.
      destruct (IH (setf ios.showpos o) false 1)
        as (o' & E & Hp & Hw & Hwd & Hpr).
      exists o'. rewrite E, Hp, Hw, Hwd, Hpr.
      rewrite !test_showpos. unfold showpos_bit. flag_bits.
      destruct (has_flag "+" fl), (has_flag " " fl); simpl; auto.
Qed.

Lemma parse_flags_keeps_precision (c : cstr) :
  forall o sp we,
    precision (fst (fst (fst (parse_flags o sp we c)))) = precision o.
Proof.
  induction c as [|ch c IH]; intros o sp we; [reflexivity|].
  simpl.
  destruct (Ascii.eqb ch "#"); [now rewrite IH|].
  destruct (Ascii.eqb ch "0");
    [rewrite IH; now destruct (test_flag ios.left o)|].
  destruct (Ascii.eqb ch "-"); [now rewrite IH|].
  destruct (Ascii.eqb ch " "); [now rewrite IH|].
  destruct (Ascii.eqb ch "+"); [now rewrite IH|].
  reflexivity.
Qed.

(** ** The width, the precision and the length modifier *)

Lemma digit_is_no_star (ch : ascii) :
  is_digit ch = true -> Ascii.eqb ch "*" = false.
Proof.
  intros H. destruct (Ascii.eqb ch "*") eqn:E; [|reflexivity].
  apply Ascii.eqb_eq in E. subst ch. discriminate H.
Qed.

Lemma parse_width_absent policy fs c ai w :
  is_digit (deref c) = false ->
  Ascii.eqb (deref c) "*" = false ->
  parse_width policy fs c ai w = (w, Normal (false, ai, c)).
Proof.
  intros Hd Hs. unfold parse_width. rewrite Hd.
  unfold bind, ret. now rewrite Hs.
Qed.

Lemma parse_width_keeps_precision policy fs c ai :
  preserves precision (parse_width policy fs c ai).
Proof. unfold parse_width, next_int. repeat preserves_step. Qed.

(** The precision step on '.' and a run of digits, which may be empty. *)
Lemma parse_precision_digits policy fs ds tail ai w :
  forallb is_digit ds = true ->
  is_digit (deref tail) = false ->
  Ascii.eqb (deref tail) "*" = false ->
  Ascii.eqb (deref tail) "-" = false ->
  parse_precision policy fs ("." :: ds ++ tail) ai w
  = (mkWorld (set_precision (decimal_value ds) (out w)) (reports w),
     Normal (true, ai, tail)).
Proof.
  intros Hds Hd Hs Hm.
  unfold parse_precision. cbn [deref advance tl]. const_chars.
  destruct ds as [|d ds].
  - cbn [app]. rewrite Hs, Hd, Hm. reflexivity.
  - simpl in Hds. apply andb_true_iff in Hds as [Hdig Hds].
    cbn [app deref]. rewrite (digit_is_no_star d Hdig), Hdig.
    unfold parseIntAndAdvance.
    change (d :: ds ++ tail) with ((d :: ds) ++ tail).
    rewrite parseInt_loop_app;
      [reflexivity | simpl; now rewrite Hdig | assumption].
Qed.

Lemma parse_precision_negative policy fs c ai w :
  parse_precision policy fs ("." :: "-" :: c) ai w
  = (mkWorld (set_precision 0 (out w)) (reports w),
     Normal (true, ai, snd (parseIntAndAdvance c))).
Proof.
  unfold parse_precision. cbn [deref advance tl].
  const_chars.
  change (is_digit "-") with false. cbv iota.
  destruct (parseIntAndAdvance c) as [p c2].
  reflexivity.
Qed.

Lemma parse_precision_absent policy fs c ai w :
  deref c <> "." ->
  parse_precision policy fs c ai w = (w, Normal (false, ai, c)).
Proof.
  intros H. apply Ascii.eqb_neq in H.
  unfold parse_precision. now rewrite H.
Qed.


Lemma skip_length_modifier_app (lens tail : cstr) :
  forallb is_length_modifier lens = true ->
  is_length_modifier (deref tail) = false ->
  skip_length_modifier (lens ++ tail) = tail.
Proof.
  intros Hl Htail.
  induction lens as [|ch lens IH]; cbn [app skip_length_modifier].
  - destruct tail as [|c tail]; [reflexivity|].
    cbn [deref] in Htail. cbn [skip_length_modifier]. now rewrite Htail.
  - cbn [forallb] in Hl. apply andb_true_iff in Hl as [Hch Hl].
    rewrite Hch. apply IH, Hl.
Qed.

Lemma returns_next_int fs reason ai :
  returns (next_int ErrorReturns fs reason ai).
Proof. unfold next_int. repeat returns_step. Qed.

Lemma returns_parse_width fs c ai :
  returns (parse_width ErrorReturns fs c ai).
Proof.
  unfold parse_width.
  repeat (returns_step || apply returns_next_int).
Qed.

Lemma returns_parse_precision fs c ai :
  returns (parse_precision ErrorReturns fs c ai).
Proof.
  unfold parse_precision.
  repeat (returns_step || apply returns_next_int).
Qed.

Lemma ensures_next_int policy fs reason ai :
  ensures (next_int policy fs reason ai) (fun r => (ai <= snd r)%nat).
Proof.
  unfold next_int. destruct (nth_error fs ai).
  - apply ensures_ret. simpl. lia.
  - eapply ensures_bind; [apply ensures_any|].
    intros _ _. apply ensures_ret. simpl. lia.
Qed.

Lemma ensures_parse_width policy fs c ai :
  ensures (parse_width policy fs c ai) (fun r => (ai <= snd (fst r))%nat).
Proof.
  unfold parse_width.
  eapply ensures_bind; [apply ensures_any|].
  intros [ws c1] _.
  destruct (Ascii.eqb (deref c1) "*").
  - eapply ensures_bind; [apply ensures_next_int|].
    intros [v ai1] Hai. simpl in Hai.
    eapply ensures_bind; [apply ensures_any|]. intros v' _.
    eapply ensures_bind; [apply ensures_any|]. intros _ _.
    apply ensures_ret. simpl. exact Hai.
  - apply ensures_ret. simpl. lia.
Qed.

Lemma ensures_parse_precision policy fs c ai :
  ensures (parse_precision policy fs c ai) (fun r => (ai <= snd (fst r))%nat).
Proof.
  unfold parse_precision.
  destruct (Ascii.eqb (deref c) "."); [|apply ensures_ret; simpl; lia].
  eapply ensures_bind with (Q := fun r => (ai <= snd (fst r))%nat).
  - destruct (Ascii.eqb (deref (advance c)) "*").
    + eapply ensures_bind; [apply ensures_next_int|].
      intros [p ai1] Hai. apply ensures_ret. exact Hai.
    + destruct (is_digit (deref (advance c))).
      * destruct (parseIntAndAdvance (advance c)).
        apply ensures_ret. simpl. lia.
      * destruct (Ascii.eqb (deref (advance c)) "-").
        -- destruct (parseIntAndAdvance (advance (advance c))).
           apply ensures_ret. simpl. lia.
        -- apply ensures_ret. simpl. lia.
  - intros [[p ai1] c1] Hai. simpl in Hai.
    eapply ensures_bind; [apply ensures_any|]. intros _ _.
    apply ensures_ret. simpl. exact Hai.
Qed.

(** ** The part before the conversion character *)

Lemma flags_width_inv policy fs sp c ai w w2 sp1 we1 ws ai2 c2 :
  parse_flags_width policy fs sp c ai w = (w2, Normal (sp1, we1, ws, ai2, c2)) ->
  exists o1 c1,
    parse_flags (reset_stream (out w)) sp 0 c = (o1, sp1, we1, c1) /\
    (parse_width policy fs c1 ai (mkWorld o1 (reports w))
     = (w2, Normal (ws, ai2, c2))).
Proof.
  unfold parse_flags_width.
  rewrite (bind_normal _ _ w (mkWorld (reset_stream (out w)) (reports w)) tt)
    by reflexivity.
  rewrite (bind_normal _ _ _ (mkWorld (reset_stream (out w)) (reports w))
             (reset_stream (out w))) by reflexivity.
  destruct (parse_flags (reset_stream (out w)) sp 0 c)
    as [[[o1 sp0] we0] c1] eqn:EF.
  rewrite (bind_normal _ _ _ (mkWorld o1 (reports w)) tt) by reflexivity.
  destruct (parse_width policy fs c1 ai (mkWorld o1 (reports w)))
    as [w3 [[[ws0 ai0] c0]|]] eqn:EW.
  - rewrite (bind_normal _ _ _ _ _ EW). unfold ret.
    intros H; inversion H; subst. eauto.
  - rewrite (bind_unwinding _ _ _ _ EW). discriminate.
Qed.

Lemma flags_width_run policy fs sp c ai w o1 sp1 we1 c1 w2 ws ai2 c2 :
  parse_flags (reset_stream (out w)) sp 0 c = (o1, sp1, we1, c1) ->
  parse_width policy fs c1 ai (mkWorld o1 (reports w))
  = (w2, Normal (ws, ai2, c2)) ->
  parse_flags_width policy fs sp c ai w = (w2, Normal (sp1, we1, ws, ai2, c2)).
Proof.
  intros EF EW. unfold parse_flags_width.
  rewrite (bind_normal _ _ w (mkWorld (reset_stream (out w)) (reports w)) tt)
    by reflexivity.
  rewrite (bind_normal _ _ _ (mkWorld (reset_stream (out w)) (reports w))
             (reset_stream (out w))) by reflexivity.
  rewrite EF.
  rewrite (bind_normal _ _ _ (mkWorld o1 (reports w)) tt) by reflexivity.
  now rewrite (bind_normal _ _ _ _ _ EW).
Qed.

Lemma prefix_after_flags_width policy fs sp c ai w w2 sp1 we1 ws ai2 c2 :
  parse_flags_width policy fs sp c ai w = (w2, Normal (sp1, we1, ws, ai2, c2)) ->
  parse_spec_prefix policy fs sp c ai w
  = ('(precisionSet, argIndex, c) <- parse_precision policy fs c2 ai2 ;;
     ret (mkLocals sp1 we1 ws precisionSet argIndex (skip_length_modifier c)))
      w2.
Proof.
  intros H. unfold parse_spec_prefix.
  now rewrite (bind_normal _ _ _ _ _ H).
Qed.

Lemma prefix_inv policy fs sp c ai w w1 l :
  parse_spec_prefix policy fs sp c ai w = (w1, Normal l) ->
  exists sp1 we1 w2 ws ai2 c2 ps c3,
    (parse_flags_width policy fs sp c ai w
     = (w2, Normal (sp1, we1, ws, ai2, c2))) /\
    parse_precision policy fs c2 ai2 w2 = (w1, Normal (ps, l_argIndex l, c3)) /\
    l = mkLocals sp1 we1 ws ps (l_argIndex l) (skip_length_modifier c3).
Proof.
  unfold parse_spec_prefix.
  destruct (parse_flags_width policy fs sp c ai w)
    as [w2 [[[[[sp1 we1] ws] ai2] c2]|]] eqn:EFW.
  - rewrite (bind_normal _ _ _ _ _ EFW).
    destruct (parse_precision policy fs c2 ai2 w2)
      as [w3 [[[ps ai3] c3]|]] eqn:EP.
    + rewrite (bind_normal _ _ _ _ _ EP). unfold ret.
      intros H; inversion H; subst; clear H. cbn [l_argIndex].
      exists sp1, we1, w2, ws, ai2, c2, ps, c3. auto.
    + rewrite (bind_unwinding _ _ _ _ EP). discriminate.
  - rewrite (bind_unwinding _ _ _ _ EFW). discriminate.
Qed.

(** The sign-related locals are those of the flag loop. *)
Lemma prefix_flags policy fs sp fl rest ai w w1 l :
  forallb is_flag fl = true ->
  is_flag (deref rest) = false ->
  parse_spec_prefix policy fs sp (fl ++ rest) ai w = (w1, Normal l) ->
  l_spacePadPositive l
  = (if has_flag "+" fl then false else sp || has_flag " " fl) /\
  l_widthExtra l = (if has_flag "+" fl then 1 else 0).
Proof.
  intros Hfl Hrest H.
  destruct (prefix_inv _ _ _ _ _ _ _ _ H)
    as (sp1 & we1 & w2 & ws & ai2 & c2 & ps & c3 & EFW & _ & ->).
  destruct (flags_width_inv _ _ _ _ _ _ _ _ _ _ _ _ EFW) as (o1 & c1 & EF & _).
  destruct (parse_flags_spec fl rest Hfl Hrest (reset_stream (out w)) sp 0)
    as (o' & E & _).
  rewrite E in EF. inversion EF; subst; clear EF. cbn [l_spacePadPositive l_widthExtra].
  rewrite showpos_after_reset. cbn [negb]. now rewrite andb_true_r.
Qed.


(** The flags and the width leave the precision at the 6 of line 68. *)
Lemma flags_width_precision policy fs sp c ai w w2 r :
  parse_flags_width policy fs sp c ai w = (w2, r) ->
  precision (out w2) = 6.
Proof.
  unfold parse_flags_width.
  rewrite (bind_normal _ _ w (mkWorld (reset_stream (out w)) (reports w)) tt)
    by reflexivity.
  rewrite (bind_normal _ _ _ (mkWorld (reset_stream (out w)) (reports w))
             (reset_stream (out w))) by reflexivity.
  pose proof (parse_flags_keeps_precision c (reset_stream (out w)) sp 0) as Hf.
  destruct (parse_flags (reset_stream (out w)) sp 0 c)
    as [[[o1 sp0] we0] c1] eqn:EF.
  cbn [fst] in Hf.
  rewrite (bind_normal _ _ _ (mkWorld o1 (reports w)) tt) by reflexivity.
  intros H.
  assert (Hp : preserves precision
                 ('(widthSet, argIndex, c2) <- parse_width policy fs c1 ai ;;
                  ret (sp0, we0, widthSet, argIndex, c2))).
  { apply preserves_bind; [apply parse_width_keeps_precision|].
    intros [[ws a2] c2]. apply preserves_ret. }
  rewrite (Hp _ _ _ H). cbn [out]. rewrite Hf. reflexivity.
Qed.

Lemma returns_parse_spec_prefix fs sp c ai :
  returns (parse_spec_prefix ErrorReturns fs sp c ai).
Proof.
  unfold parse_spec_prefix, parse_flags_width.
  repeat (returns_step || apply returns_parse_width
          || apply returns_parse_precision).
Qed.

Lemma prefix_argIndex policy fs sp c ai w w1 l :
  parse_spec_prefix policy fs sp c ai w = (w1, Normal l) ->
  (ai <= l_argIndex l)%nat.
Proof.
  intros H.
  destruct (prefix_inv _ _ _ _ _ _ _ _ H)
    as (sp1 & we1 & w2 & ws & ai2 & c2 & ps & c3 & EFW & EP & _).
  destruct (flags_width_inv _ _ _ _ _ _ _ _ _ _ _ _ EFW) as (o1 & c1 & _ & EW).
  apply ensures_parse_width in EW. apply ensures_parse_precision in EP.
  simpl in EW, EP. lia.
Qed.

Lemma length_modifier_ends_number (ch : ascii) :
  is_length_modifier ch = true -> ends_number ch = true.
Proof.
  unfold is_length_modifier. rewrite !orb_true_iff, !Ascii.eqb_eq.
  intros [[[[[-> | ->] | ->] | ->] | ->] | ->]; reflexivity.
Qed.

Lemma deref_app_cons (l : cstr) (ch : ascii) (rest : cstr) :
  deref (l ++ ch :: rest) = match l with [] => ch | x :: _ => x end.
Proof. destruct l; reflexivity. Qed.

Lemma ends_number_after_modifiers (lens : cstr) (ch : ascii) (rest : cstr) :
  forallb is_length_modifier lens = true ->
  ends_number ch = true ->
  ends_number (deref (lens ++ ch :: rest)) = true.
Proof.
  intros Hl Hch. rewrite deref_app_cons.
  destruct lens as [|x lens]; [assumption|].
  simpl in Hl. apply andb_true_iff in Hl as [Hx _].
  now apply length_modifier_ends_number.
Qed.

Lemma ends_number_inv (ch : ascii) :
  ends_number ch = true ->
  is_flag ch = false /\ is_digit ch = false /\
  Ascii.eqb ch "*" = false /\ Ascii.eqb ch "." = false.
Proof.
  unfold ends_number. rewrite !andb_true_iff, !negb_true_iff. tauto.
Qed.

(** Flags that are followed by neither a width nor a '*'. *)
Lemma flags_width_without_width policy fs sp fl tail ai w :
  forallb is_flag fl = true ->
  is_flag (deref tail) = false ->
  is_digit (deref tail) = false ->
  Ascii.eqb (deref tail) "*" = false ->
  exists o',
    parse_flags (reset_stream (out w)) sp 0 (fl ++ tail)
    = (o', if has_flag "+" fl then false else sp || has_flag " " fl,
       if has_flag "+" fl then 1 else 0, tail) /\
    written o' = written (out w) /\
    parse_flags_width policy fs sp (fl ++ tail) ai w
    = (mkWorld o' (reports w),
       Normal (if has_flag "+" fl then false else sp || has_flag " " fl,
               if has_flag "+" fl then 1 else 0, false, ai, tail)).
Proof.
  intros Hfl Hf Hd Hs.
  destruct (parse_flags_spec fl tail Hfl Hf (reset_stream (out w)) sp 0)
    as (o' & EF & _ & Hwr & _ & _).
  rewrite showpos_after_reset in EF. cbn [negb] in EF.
  rewrite andb_true_r in EF.
  exists o'. split; [exact EF|]. split; [exact Hwr|].
  apply (flags_width_run _ _ _ _ _ _ _ _ _ _ _ _ _ _ EF).
  apply parse_width_absent; assumption.
Qed.

(** The part before the conversion character of a specifier made of
    flags, '.', digits and length modifiers. *)
Lemma prefix_of_literal_precision policy fs sp fl ds lens ch rest ai w :
  forallb is_flag fl = true ->
  forallb is_digit ds = true ->
  forallb is_length_modifier lens = true ->
  ends_number ch = true ->
  Ascii.eqb ch "-" = false ->
  is_length_modifier ch = false ->
  exists o1,
    precision o1 = decimal_value ds /\
    written o1 = written (out w) /\
    parse_spec_prefix policy fs sp (fl ++ "." :: ds ++ lens ++ ch :: rest) ai w
    = (mkWorld o1 (reports w),
       Normal (mkLocals
                 (if has_flag "+" fl then false else sp || has_flag " " fl)
                 (if has_flag "+" fl then 1 else 0)
                 false true ai (ch :: rest))).
Proof.
  intros Hfl Hds Hlens Hch Hminus Hnolen.
  pose proof (ends_number_after_modifiers lens ch rest Hlens Hch) as Htail.
  apply ends_number_inv in Htail as (_ & Htd & Hts & _).
  assert (Htm : Ascii.eqb (deref (lens ++ ch :: rest)) "-" = false).
  { rewrite deref_app_cons. destruct lens as [|x lens]; [assumption|].
    simpl in Hlens. apply andb_true_iff in Hlens as [Hx _].
    revert Hx. unfold is_length_modifier.
    rewrite !orb_true_iff, !Ascii.eqb_eq.
    intros [[[[[-> | ->] | ->] | ->] | ->] | ->]; reflexivity. }
  destruct (flags_width_without_width policy fs sp fl
              ("." :: ds ++ lens ++ ch :: rest) ai w Hfl eq_refl eq_refl
              eq_refl) as (o' & _ & Hwr & EFW).
  exists (set_precision (decimal_value ds) o').
  split; [reflexivity|]. split; [exact Hwr|].
  rewrite (prefix_after_flags_width _ _ _ _ _ _ _ _ _ _ _ _ EFW).
  rewrite (bind_normal _ _ _ _ _
             (parse_precision_digits policy fs ds _ ai _ Hds Htd Hts Htm)).
  unfold ret.
  rewrite skip_length_modifier_app; [reflexivity | assumption |].
  cbn [deref]. assumption.
Qed.

(** The same for a specifier made of flags and length modifiers only: the
    stream is the one the flag loop leaves. *)
Lemma prefix_of_plain policy fs sp fl lens ch rest ai w :
  forallb is_flag fl = true ->
  forallb is_length_modifier lens = true ->
  ends_number ch = true ->
  is_length_modifier ch = false ->
  exists o',
    parse_flags (reset_stream (out w)) sp 0 (fl ++ lens ++ ch :: rest)
    = (o', if has_flag "+" fl then false else sp || has_flag " " fl,
       if has_flag "+" fl then 1 else 0, lens ++ ch :: rest) /\
    precision o' = 6 /\
    parse_spec_prefix policy fs sp (fl ++ lens ++ ch :: rest) ai w
    = (mkWorld o' (reports w),
       Normal (mkLocals
                 (if has_flag "+" fl then false else sp || has_flag " " fl)
                 (if has_flag "+" fl then 1 else 0)
                 false false ai (ch :: rest))).
Proof.
  intros Hfl Hlens Hch Hnolen.
  pose proof (ends_number_after_modifiers lens ch rest Hlens Hch) as Htail.
  apply ends_number_inv in Htail as (Htf & Htd & Hts & Htp).
  destruct (flags_width_without_width policy fs sp fl (lens ++ ch :: rest)
              ai w Hfl Htf Htd Hts) as (o' & EF & _ & EFW).
  exists o'. split; [exact EF|].
  split; [apply (flags_width_precision _ _ _ _ _ _ _ _ EFW)|].
  rewrite (prefix_after_flags_width _ _ _ _ _ _ _ _ _ _ _ _ EFW).
  assert (Hdot : deref (lens ++ ch :: rest) <> ".")
    by (now apply Ascii.eqb_neq).
  rewrite (bind_normal _ _ _ _ _ (parse_precision_absent policy fs _ ai _ Hdot)).
  unfold ret.
  rewrite skip_length_modifier_app; [reflexivity | assumption |].
  cbn [deref]. assumption.
Qed.

(** ** The conversion character *)

Lemma is_conv_cons (ch a : ascii) (s : string) :
  is_conv ch (String a s) = Ascii.eqb ch a || is_conv ch s.
Proof. reflexivity. Qed.

Lemma is_conv_nil (ch : ascii) : is_conv ch EmptyString = false.
Proof. reflexivity. Qed.

Lemma conversion_default policy ch ps nt w :
  is_conv ch known_conversions = false ->
  ch <> NUL ->
  conversion policy ch ps nt w = (w, Normal (Break false nt)).
Proof.
  unfold known_conversions. rewrite !is_conv_cons, is_conv_nil.
  rewrite !orb_false_iff.
  intros (Hd & Hi & Hu & Ho & Hx & HX & Hp & He & HE & Hf & HF & Hg & HG
          & Hc & Hs & Ha & HA & Hn & _) H0.
  apply Ascii.eqb_neq in H0.
  unfold conversion.
  rewrite !is_conv_cons, !is_conv_nil.
  now rewrite Hd, Hi, Hu, Ho, Hx, HX, Hp, He, HE, Hf, HF, Hg, HG, Hc, Hs,
    Ha, HA, Hn, H0.
Qed.

Lemma integer_conversion_cases (ch : ascii) :
  is_conv ch integer_conversions = true ->
  ch = "d" \/ ch = "i" \/ ch = "u" \/ ch = "o" \/ ch = "x" \/ ch = "X"
  \/ ch = "p".
Proof.
  unfold integer_conversions. rewrite !is_conv_cons, is_conv_nil.
  rewrite !orb_true_iff, !Ascii.eqb_eq. intuition discriminate.
Qed.

Lemma integer_conversion_ends_number (ch : ascii) :
  is_conv ch integer_conversions = true ->
  ends_number ch = true /\ is_length_modifier ch = false.
Proof.
  intros H.
  destruct (integer_conversion_cases ch H)
    as [-> | [-> | [-> | [-> | [-> | [-> | ->]]]]]]; split; reflexivity.
Qed.

(** The [switch] on an integer conversion: it marks the conversion as an
    integer one, reports nothing, and touches the flags only. *)
Lemma conversion_integer policy ch ps nt w :
  is_conv ch integer_conversions = true ->
  exists f,
    conversion policy ch ps nt w
    = (mkWorld (set_flags f (out w)) (reports w), Normal (Break true nt)).
Proof.
  intros H.
  destruct (integer_conversion_cases ch H)
    as [-> | [-> | [-> | [-> | [-> | [-> | ->]]]]]];
    eexists; reflexivity.
Qed.

Lemma conversion_keeps_precision policy ch ps nt :
  preserves precision (conversion policy ch ps nt).
Proof. unfold conversion. repeat preserves_step. Qed.

Lemma returns_conversion ch ps nt :
  returns (conversion ErrorReturns ch ps nt).
Proof. unfold conversion. repeat returns_step. Qed.

(** ** The specifier interpreter as a whole *)

(** Once the part before the conversion character has been parsed, the
    function is the [switch] followed by lines 228-238. *)
Lemma spec_after_prefix policy fs sp nt c ai w w1 l :
  parse_spec_prefix policy fs sp c ai w = (w1, Normal l) ->
  streamStateFromFormat policy fs sp nt ("%" :: c) ai w
  = (x <- conversion policy (deref (l_c l)) (l_precisionSet l) nt ;;
     match x with
     | ReturnAtTerminator =>
         ret (mkSpec (l_spacePadPositive l) nt (l_argIndex l) (l_c l))
     | Break intConversion ntrunc =>
         (if intConversion && l_precisionSet l && negb (l_widthSet l)
          then on_out (precision_as_width (l_widthExtra l))
          else ret tt) ;;
         ret (mkSpec (l_spacePadPositive l) ntrunc (l_argIndex l)
                     (advance (l_c l)))
     end) w1.
Proof.
  intros H.
  unfold streamStateFromFormat. cbn [deref advance tl].
  const_chars.
  unfold bind at 1. rewrite H. reflexivity.
Qed.

(** The same when the prefix leaves the function. *)
Lemma spec_prefix_unwinds policy fs sp nt c ai w w1 :
  parse_spec_prefix policy fs sp c ai w = (w1, Unwinding) ->
  streamStateFromFormat policy fs sp nt ("%" :: c) ai w = (w1, Unwinding).
Proof.
  intros H.
  unfold streamStateFromFormat. cbn [deref advance tl].
  const_chars.
  unfold bind at 1. now rewrite H.
Qed.

(** What comes back from a specifier that starts with '%': the sign request
    and the argument index are those of the prefix. *)
Lemma spec_result_inv policy fs sp nt c ai w w' r :
  streamStateFromFormat policy fs sp nt ("%" :: c) ai w = (w', Normal r) ->
  exists w1 l,
    parse_spec_prefix policy fs sp c ai w = (w1, Normal l) /\
    res_spacePadPositive r = l_spacePadPositive l /\
    res_argIndex r = l_argIndex l.
Proof.
  destruct (parse_spec_prefix policy fs sp c ai w) as [w1 [l|]] eqn:Hpre.
  - rewrite (spec_after_prefix _ _ _ nt _ _ _ _ _ Hpre).
    intros H. exists w1, l. split; [reflexivity|].
    unfold bind, ret, on_out in H.
    destruct (conversion policy (deref (l_c l)) (l_precisionSet l) nt w1)
      as [w2 [[ic nt'|]|]]; try discriminate.
    + destruct (ic && l_precisionSet l && negb (l_widthSet l));
        inversion H; subst; auto.
    + inversion H; subst; auto.
  - rewrite (spec_prefix_unwinds _ _ _ nt _ _ _ _ Hpre). discriminate.
Qed.

(** Whatever comes after the prefix leaves the precision alone. *)
Lemma spec_keeps_prefix_precision policy fs sp nt c ai w w1 r1 :
  parse_spec_prefix policy fs sp c ai w = (w1, r1) ->
  precision (out (fst (streamStateFromFormat policy fs sp nt ("%" :: c) ai w)))
  = precision (out w1).
Proof.
  intros Hpre. destruct r1 as [l|].
  - rewrite (spec_after_prefix _ _ _ nt _ _ _ _ _ Hpre).
    match goal with
    | |- precision (out (fst (?m w1))) = _ =>
        assert (Hp : preserves precision m)
    end.
    { apply preserves_bind; [apply conversion_keeps_precision|].
      intros [ic nt'|]; repeat preserves_step. }
    match goal with
    | |- precision (out (fst (?m w1))) = _ =>
        destruct (m w1) as [w' r] eqn:E
    end.
    apply (Hp _ _ _ E).
  - now rewrite (spec_prefix_unwinds _ _ _ nt _ _ _ _ Hpre).
Qed.

(** When errors are only recorded, the specifier interpreter always comes
    back to the driver. *)
Lemma returns_streamStateFromFormat fs sp nt c ai :
  returns (streamStateFromFormat ErrorReturns fs sp nt c ai).
Proof.
  unfold streamStateFromFormat.
  repeat (returns_step || apply returns_parse_spec_prefix
          || apply returns_conversion).
Qed.

Lemma spec_argIndex policy fs sp nt c ai w w' r :
  streamStateFromFormat policy fs sp nt c ai w = (w', Normal r) ->
  (ai <= res_argIndex r)%nat.
Proof.
  destruct c as [|ch c].
  - unfold streamStateFromFormat. cbn [deref]. const_chars.
    unfold bind, ret. destruct (TINYFORMAT_ERROR policy msg.no_spec w) as [w1 [[]|]];
      intros H; inversion H; subst. simpl. lia.
  - destruct (Ascii.eqb ch "%") eqn:Ech.
    + apply Ascii.eqb_eq in Ech. subst ch. intros H.
      destruct (spec_result_inv _ _ _ _ _ _ _ _ _ H) as (w1 & l & Hpre & _ & ->).
      eapply prefix_argIndex; eassumption.
    + unfold streamStateFromFormat. cbn [deref]. rewrite Ech. cbn [negb].
      unfold bind, ret.
      destruct (TINYFORMAT_ERROR policy msg.no_spec w) as [w1 [[]|]];
        intros H; inversion H; subst. simpl. lia.
Qed.

(** ** What the specifier interpreter does *)

(** C5: after the flags of a specifier have been parsed, with
    [spacePadPositive] false on entry as [formatImpl] passes it,
    [spacePadPositive] is true exactly when the flags hold a space and no
    '+', in whatever order the flags are written; this is also the value
    [streamStateFromFormat] hands back whenever it returns, which it always
    does when errors are only recorded. *)
Theorem space_pad_unless_plus policy fs nt fl rest ai w :
  forallb is_flag fl = true ->
  is_flag (deref rest) = false ->
  (exists o' we,
      parse_flags (reset_stream (out w)) false 0 (fl ++ rest)
      = (o', has_flag " " fl && negb (has_flag "+" fl), we, rest)) /\
  (forall w' r,
      streamStateFromFormat policy fs false nt ("%" :: fl ++ rest) ai w
      = (w', Normal r) ->
      res_spacePadPositive r = has_flag " " fl && negb (has_flag "+" fl)) /\
  (exists w' r,
      streamStateFromFormat ErrorReturns fs false nt ("%" :: fl ++ rest) ai w
      = (w', Normal r)).
Proof.
  intros Hfl Hrest. split; [|split].
  - destruct (parse_flags_spec fl rest Hfl Hrest (reset_stream (out w)) false 0)
      as (o' & E & _).
    exists o', (if has_flag "+" fl then 1 else 0).
    rewrite E, showpos_after_reset.
    destruct (has_flag "+" fl), (has_flag " " fl); reflexivity.
  - intros w' r H.
    destruct (spec_result_inv _ _ _ _ _ _ _ _ _ H) as (w1 & l & Hpre & -> & _).
    destruct (prefix_flags _ _ _ _ _ _ _ _ _ Hfl Hrest Hpre) as [-> _].
    destruct (has_flag "+" fl), (has_flag " " fl); reflexivity.
  - apply returns_streamStateFromFormat.
Qed.

Lemma space_pad_unless_plus_witness :
  (exists o' we,
      parse_flags (reset_stream fresh_stream) false 0 (cstring " +-5d")
      = (o', false, we, cstring "5d")) /\
  (exists o' we,
      parse_flags (reset_stream fresh_stream) false 0 (cstring "0 #d")
      = (o', true, we, cstring "d")).
Proof.
  split.
  - destruct (space_pad_unless_plus ErrorReturns [] (-1) (cstring " +-")
                (cstring "5d") 0 fresh_world) as [H _];
      [reflexivity | reflexivity | exact H].
  - destruct (space_pad_unless_plus ErrorReturns [] (-1) (cstring "0 #")
                (cstring "d") 0 fresh_world) as [H _];
      [reflexivity | reflexivity | exact H].
Defined.

(** The emulation of lines 228-237, from the locals at line 166. *)
Lemma integer_precision_from_locals policy fs sp nt fl rest ai w w1 l :
  forallb is_flag fl = true ->
  is_flag (deref rest) = false ->
  parse_spec_prefix policy fs sp (fl ++ rest) ai w = (w1, Normal l) ->
  is_conv (deref (l_c l)) integer_conversions = true ->
  l_precisionSet l = true ->
  l_widthSet l = false ->
  exists w',
    streamStateFromFormat policy fs sp nt ("%" :: fl ++ rest) ai w
    = (w', Normal (mkSpec (l_spacePadPositive l) nt (l_argIndex l)
                          (advance (l_c l)))) /\
    width (out w') = precision (out w1) + (if has_flag "+" fl then 1 else 0) /\
    precision (out w') = precision (out w1) /\
    fill (out w') = "0" /\
    Z.land (flags (out w')) ios.adjustfield = ios.internal /\
    written (out w') = written (out w1) /\
    reports w' = reports w1.
Proof.
  intros Hfl Hrest Hpre Hconv Hps Hws.
  destruct (prefix_flags _ _ _ _ _ _ _ _ _ Hfl Hrest Hpre) as [_ Hwe].
  destruct (conversion_integer policy _ (l_precisionSet l) nt w1 Hconv)
    as [f Ef].
  rewrite (spec_after_prefix _ _ _ nt _ _ _ _ _ Hpre).
  rewrite (bind_normal _ _ _ _ _ Ef).
  rewrite Hps, Hws, Hwe. cbn [andb negb].
  eexists. split; [reflexivity|].
  cbn [out reports].
  repeat split.
  unfold precision_as_width.
  change (flags (set_fill "0" ?o)) with (flags o).
  apply field_after_setf_mask.
Qed.

(** C4: for a conversion character of the integer family (d i u o x X p),
    when a precision was given and no width was, the stream leaves
    [streamStateFromFormat] with its width set to the precision plus one if
    the flags held a '+' (plus nothing otherwise), with '0' as fill character
    and internal adjustment; the precision itself is kept, nothing is
    reported, and the cursor is just past the conversion character.  The
    first part states it from the locals [precisionSet] and [widthSet] of
    the code, the second for every specifier written as flags, '.', digits,
    length modifiers and an integer conversion character. *)
Theorem integer_precision_becomes_width policy fs sp nt ai w :
  (forall fl rest w1 l,
      forallb is_flag fl = true ->
      is_flag (deref rest) = false ->
      parse_spec_prefix policy fs sp (fl ++ rest) ai w = (w1, Normal l) ->
      is_conv (deref (l_c l)) integer_conversions = true ->
      l_precisionSet l = true ->
      l_widthSet l = false ->
      exists w',
        streamStateFromFormat policy fs sp nt ("%" :: fl ++ rest) ai w
        = (w', Normal (mkSpec (l_spacePadPositive l) nt (l_argIndex l)
                              (advance (l_c l)))) /\
        width (out w')
        = precision (out w1) + (if has_flag "+" fl then 1 else 0) /\
        precision (out w') = precision (out w1) /\
        fill (out w') = "0" /\
        Z.land (flags (out w')) ios.adjustfield = ios.internal /\
        written (out w') = written (out w1) /\
        reports w' = reports w1) /\
  (forall fl ds lens conv rest,
      forallb is_flag fl = true ->
      forallb is_digit ds = true ->
      forallb is_length_modifier lens = true ->
      is_conv conv integer_conversions = true ->
      exists w',
        streamStateFromFormat policy fs sp nt
          ("%" :: fl ++ "." :: ds ++ lens ++ conv :: rest) ai w
        = (w', Normal (mkSpec
                         (if has_flag "+" fl then false
                          else sp || has_flag " " fl)
                         nt ai rest)) /\
        width (out w')
        = decimal_value ds + (if has_flag "+" fl then 1 else 0) /\
        precision (out w') = decimal_value ds /\
        fill (out w') = "0" /\
        Z.land (flags (out w')) ios.adjustfield = ios.internal /\
        written (out w') = written (out w) /\
        reports w' = reports w).
Proof.
  split.
  - intros fl rest w1 l. apply integer_precision_from_locals.
  - intros fl ds lens conv rest Hfl Hds Hlens Hconv.
    destruct (integer_conversion_ends_number conv Hconv) as [Hend Hnolen].
    assert (Hminus : Ascii.eqb conv "-" = false).
    { destruct (integer_conversion_cases conv Hconv)
        as [-> | [-> | [-> | [-> | [-> | [-> | ->]]]]]]; reflexivity. }
    destruct (prefix_of_literal_precision policy fs sp fl ds lens conv rest
                ai w Hfl Hds Hlens Hend Hminus Hnolen)
      as (o1 & Hp & Hwo & Hpre).
    destruct (integer_precision_from_locals policy fs sp nt fl
                ("." :: ds ++ lens ++ conv :: rest) ai w _ _ Hfl eq_refl Hpre
                Hconv eq_refl eq_refl)
      as (w' & E & Hw & Hpr & Hf & Ha & Hwr & Hr).
    cbn [l_spacePadPositive l_argIndex l_c advance tl out reports] in *.
    exists w'. rewrite E, Hw, Hpr, Hp, Hwr, Hwo.
    repeat split; assumption.
Qed.

Lemma integer_precision_becomes_width_witness :
  (exists w',
      streamStateFromFormat ErrorReturns [sample_arg 4 "255"] false (-1)
        (cstring "%.*x|") 0 fresh_world
      = (w', Normal (mkSpec false (-1) 1 (cstring "|"))) /\
      width (out w') = 4 + 0 /\
      precision (out w') = 4 /\
      fill (out w') = "0" /\
      Z.land (flags (out w')) ios.adjustfield = ios.internal /\
      written (out w') = [] /\
      reports w' = []) /\
  (exists w',
      streamStateFromFormat ErrorReturns [] false (-1) (cstring "%+.5ld|") 0
        fresh_world
      = (w', Normal (mkSpec false (-1) 0 (cstring "|"))) /\
      width (out w') = 5 + 1 /\
      precision (out w') = 5 /\
      fill (out w') = "0" /\
      Z.land (flags (out w')) ios.adjustfield = ios.internal /\
      written (out w') = [] /\
      reports w' = []).
Proof.
  split.
  - destruct (integer_precision_becomes_width ErrorReturns
                [sample_arg 4 "255"] false (-1) 0%nat fresh_world)
      as [Hlocals _].
    apply (Hlocals [] (cstring ".*x|")
             (mkWorld (mkStream [] 0 4 ios.skipws " ") [])
             (mkLocals false 0 false true 1 (cstring "x|")));
      reflexivity.
  - destruct (integer_precision_becomes_width ErrorReturns [] false (-1)
                0%nat fresh_world) as [_ Hliteral].
    exact (Hliteral (cstring "+") (cstring "5") (cstring "l") "d"
             (cstring "|") eq_refl eq_refl eq_refl eq_refl).
Defined.

(** C7: a precision written as '.', '-' and digits is no error: the
    precision step reports nothing, returns under either error policy with
    the cursor behind the digits, and sets the precision of the stream to 0,
    which is what the stream holds when [streamStateFromFormat] is left;
    when the character at the precision step is not '.', the stream leaves
    the function with the precision 6 of the reset.  The second and third
    parts state it from the cursor that the flags and the width leave, the
    last two for every specifier whose flags are followed at once by the
    precision, or by a character that starts neither a width nor a
    precision. *)
Theorem negative_precision_is_zero policy fs :
  (forall c ai w,
      parse_precision policy fs ("." :: "-" :: c) ai w
      = (mkWorld (set_precision 0 (out w)) (reports w),
         Normal (true, ai, snd (parseIntAndAdvance c)))) /\
  (forall sp nt c ai w w2 sp1 we1 ws ai2 c3,
      parse_flags_width policy fs sp c ai w
      = (w2, Normal (sp1, we1, ws, ai2, "." :: "-" :: c3)) ->
      precision
        (out (fst (streamStateFromFormat policy fs sp nt ("%" :: c) ai w)))
      = 0) /\
  (forall sp nt c ai w w2 sp1 we1 ws ai2 c2,
      parse_flags_width policy fs sp c ai w
      = (w2, Normal (sp1, we1, ws, ai2, c2)) ->
      deref c2 <> "." ->
      precision
        (out (fst (streamStateFromFormat policy fs sp nt ("%" :: c) ai w)))
      = 6) /\
  (forall sp nt fl rest ai w,
      forallb is_flag fl = true ->
      precision
        (out (fst (streamStateFromFormat policy fs sp nt
                     ("%" :: fl ++ "." :: "-" :: rest) ai w)))
      = 0) /\
  (forall sp nt fl tail ai w,
      forallb is_flag fl = true ->
      ends_number (deref tail) = true ->
      precision
        (out (fst (streamStateFromFormat policy fs sp nt
                     ("%" :: fl ++ tail) ai w)))
      = 6).
Proof.
  assert (Hneg : forall sp nt c ai w w2 sp1 we1 ws ai2 c3,
             parse_flags_width policy fs sp c ai w
             = (w2, Normal (sp1, we1, ws, ai2, "." :: "-" :: c3)) ->
             precision
               (out (fst (streamStateFromFormat policy fs sp nt
                            ("%" :: c) ai w))) = 0).
  { intros sp nt c ai w w2 sp1 we1 ws ai2 c3 H.
    pose proof (prefix_after_flags_width _ _ _ _ _ _ _ _ _ _ _ _ H) as Hpre.
    rewrite (bind_normal _ _ _ _ _ (parse_precision_negative _ _ _ _ _))
      in Hpre.
    unfold ret in Hpre.
    rewrite (spec_keeps_prefix_precision _ _ _ nt _ _ _ _ _ Hpre).
    reflexivity. }
  assert (Hnone : forall sp nt c ai w w2 sp1 we1 ws ai2 c2,
             parse_flags_width policy fs sp c ai w
             = (w2, Normal (sp1, we1, ws, ai2, c2)) ->
             deref c2 <> "." ->
             precision
               (out (fst (streamStateFromFormat policy fs sp nt
                            ("%" :: c) ai w))) = 6).
  { intros sp nt c ai w w2 sp1 we1 ws ai2 c2 H Hdot.
    pose proof (prefix_after_flags_width _ _ _ _ _ _ _ _ _ _ _ _ H) as Hpre.
    rewrite (bind_normal _ _ _ _ _ (parse_precision_absent _ _ _ _ _ Hdot))
      in Hpre.
    unfold ret in Hpre.
    rewrite (spec_keeps_prefix_precision _ _ _ nt _ _ _ _ _ Hpre).
    eapply flags_width_precision; eassumption. }
  split; [|split; [|split; [|split]]].
  - intros c ai w. apply parse_precision_negative.
  - exact Hneg.
  - exact Hnone.
  - intros sp nt fl rest ai w Hfl.
    destruct (flags_width_without_width policy fs sp fl
                ("." :: "-" :: rest) ai w Hfl eq_refl eq_refl eq_refl)
      as (o' & _ & _ & EFW).
    apply (Hneg _ nt _ _ _ _ _ _ _ _ _ EFW).
  - intros sp nt fl tail ai w Hfl Hend.
    apply ends_number_inv in Hend as (Hf & Hd & Hs & Hp).
    destruct (flags_width_without_width policy fs sp fl tail ai w Hfl Hf Hd Hs)
      as (o' & _ & _ & EFW).
    apply (Hnone _ nt _ _ _ _ _ _ _ _ _ EFW).
    now apply Ascii.eqb_neq.
Qed.

Lemma negative_precision_is_zero_witness :
  precision
    (out (fst (streamStateFromFormat ErrorUnwinds [] false (-1)
                 (cstring "%-8.-12f|") 0 fresh_world))) = 0 /\
  precision
    (out (fst (streamStateFromFormat ErrorUnwinds [] false (-1)
                 (cstring "%-8f|") 0 fresh_world))) = 6 /\
  precision
    (out (fst (streamStateFromFormat ErrorUnwinds [] false (-1)
                 (cstring "%+.-3e|") 0 fresh_world))) = 0 /\
  precision
    (out (fst (streamStateFromFormat ErrorUnwinds [] false (-1)
                 (cstring "%+e|") 0 fresh_world))) = 6.
Proof.
  destruct (negative_precision_is_zero ErrorUnwinds [])
    as (_ & Hneg & Hnone & Hneg' & Hnone').
  split; [|split; [|split]].
  - apply (Hneg false (-1) (cstring "-8.-12f|") 0%nat fresh_world
             (mkWorld (mkStream [] 8 6 (Z.lor ios.skipws ios.left) " ") [])
             false 0 true 0%nat (cstring "12f|")).
    reflexivity.
  - apply (Hnone false (-1) (cstring "-8f|") 0%nat fresh_world
             (mkWorld (mkStream [] 8 6 (Z.lor ios.skipws ios.left) " ") [])
             false 0 true 0%nat (cstring "f|")).
    + reflexivity.
    + simpl. discriminate.
  - apply (Hneg' false (-1) (cstring "+") (cstring "3e|") 0%nat fresh_world).
    reflexivity.
  - apply (Hnone' false (-1) (cstring "+") (cstring "e|") 0%nat fresh_world);
      reflexivity.
Defined.





(** The default case of the [switch], from the locals at line 166. *)
Lemma unknown_conversion_from_locals policy fs sp nt c ai w w1 l ch rest :
  parse_spec_prefix policy fs sp c ai w = (w1, Normal l) ->
  l_c l = ch :: rest ->
  is_conv ch known_conversions = false ->
  ch <> NUL ->
  streamStateFromFormat policy fs sp nt ("%" :: c) ai w
  = (w1, Normal (mkSpec (l_spacePadPositive l) nt (l_argIndex l) rest)).
Proof.
  intros Hpre Hc Hch H0.
  rewrite (spec_after_prefix _ _ _ nt _ _ _ _ _ Hpre).
  rewrite Hc. cbn [deref].
  unfold bind at 1. rewrite conversion_default by assumption.
  reflexivity.
Qed.

(** C10: when the character at the conversion position is none of
    d i u o x X p e E f F g G c s a A n and is not the terminator,
    [streamStateFromFormat] returns normally with the cursor just past that
    character; the stream and the list of reports are exactly what the
    parsing of flags, width, precision and length modifier left: the
    character adds no report and changes no stream setting.  The first part
    states it from the locals of the code at line 166, the second for every
    specifier written as flags, length modifiers and such a character, where
    the stream is the one the flag loop leaves. *)
Theorem unknown_conversion_is_skipped policy fs sp nt ai w :
  (forall c w1 l ch rest,
      parse_spec_prefix policy fs sp c ai w = (w1, Normal l) ->
      l_c l = ch :: rest ->
      is_conv ch known_conversions = false ->
      ch <> NUL ->
      streamStateFromFormat policy fs sp nt ("%" :: c) ai w
      = (w1, Normal (mkSpec (l_spacePadPositive l) nt (l_argIndex l) rest))) /\
  (forall fl lens ch rest,
      forallb is_flag fl = true ->
      forallb is_length_modifier lens = true ->
      ends_number ch = true ->
      is_length_modifier ch = false ->
      is_conv ch known_conversions = false ->
      ch <> NUL ->
      exists o',
        parse_flags (reset_stream (out w)) sp 0 (fl ++ lens ++ ch :: rest)
        = (o', if has_flag "+" fl then false else sp || has_flag " " fl,
           if has_flag "+" fl then 1 else 0, lens ++ ch :: rest) /\
        streamStateFromFormat policy fs sp nt
          ("%" :: fl ++ lens ++ ch :: rest) ai w
        = (mkWorld o' (reports w),
           Normal (mkSpec
                     (if has_flag "+" fl then false else sp || has_flag " " fl)
                     nt ai rest))).
Proof.
  split.
  - intros c w1 l ch rest. apply unknown_conversion_from_locals.
  - intros fl lens ch rest Hfl Hlens Hend Hnolen Hconv H0.
    destruct (prefix_of_plain policy fs sp fl lens ch rest ai w Hfl Hlens
                Hend Hnolen) as (o' & EF & _ & Hpre).
    exists o'. split; [exact EF|].
    apply (unknown_conversion_from_locals _ _ _ nt _ _ _ _ _ ch rest Hpre);
      [reflexivity | assumption | assumption].
Qed.

Lemma unknown_conversion_is_skipped_witness :
  (streamStateFromFormat ErrorUnwinds [] false (-1) (cstring "%-08.3lqxyz") 0
     fresh_world
   = (mkWorld (mkStream [] 8 3 (Z.lor ios.skipws ios.left) " ") [],
      Normal (mkSpec false (-1) 0 (cstring "xyz")))) /\
  (exists o',
      parse_flags (reset_stream fresh_stream) false 0 (cstring "-#llyz")
      = (o', false, 0, cstring "llyz") /\
      streamStateFromFormat ErrorUnwinds [] false (-1) (cstring "%-#llyz") 0
        fresh_world
      = (mkWorld o' [], Normal (mkSpec false (-1) 0 (cstring "z")))).
Proof.
  destruct (unknown_conversion_is_skipped ErrorUnwinds [] false (-1) 0%nat
              fresh_world) as [Hlocals Hplain].
  split.
  - apply (Hlocals (cstring "-08.3lqxyz")
             (mkWorld (mkStream [] 8 3 (Z.lor ios.skipws ios.left) " ") [])
             (mkLocals false 0 true true 0 (cstring "qxyz")) "q"
             (cstring "xyz")).
    + vm_compute. reflexivity.
    + reflexivity.
    + reflexivity.
    + discriminate.
  - apply (Hplain (cstring "-#") (cstring "ll") "y" (cstring "z"));
      try reflexivity.
    discriminate.
Defined.

(** ** The driver on mismatched counts *)

(** Runs the driver as far as the next call of the scanner. *)
Ltac expose :=
  unfold bind, get_out, set_out, on_out, ret;
  cbv beta iota; cbn [out reports].

Ltac run :=
  cbn -[Z.lor Z.ldiff Z.land restore_stream reset_stream setf_mask setf put
        app printFormatStringLiteral write insert_string].

Ltac enter_driver :=
  unfold formatImpl;
  cbn [formatImpl_loop numFormatters List.length Nat.ltb Nat.leb];
  expose.

(** C2: for the format string "%d %d" and exactly one argument, the driver
    reports the mismatch of the counts: the argument is rendered under the
    first specifier, the blank is copied, and the specifier left without an
    argument is reported with the message "tinyformat: Too many conversion
    specifiers in format string".  This is the only report.  When the report
    comes back the saved configuration is restored, otherwise the stream is
    left as it was at the report. *)
Theorem missing_argument_reported policy a w :
  let o2 :=
    put [" "] (format a (decimal_stream (out w)) (cstring "%d %d")
                        (cstring " %d") (-1)) in
  formatImpl policy [a] (cstring "%d %d") w
  = match policy with
    | ErrorReturns =>
        (mkWorld (restore_stream (width (out w)) (precision (out w))
                                 (flags (out w)) (fill (out w)) o2)
                 (reports w ++ [msg.too_many_specs]),
         Normal tt)
    | ErrorUnwinds =>
        (mkWorld o2 (reports w ++ [msg.too_many_specs]), Unwinding)
    end.
Proof.
  intros o2. subst o2. unfold decimal_stream.
  enter_driver.
  change (cstring "%d %d") with ("%" :: cstring "d %d").
  rewrite scanner_stops by (simpl; discriminate).
  run. expose.
  rewrite scanner_literal_char by reflexivity.
  rewrite scanner_stops by (simpl; discriminate).
  run.
  destruct policy; reflexivity.
Qed.

(** C3, as the code has it: for the format string "%d" followed by literal
    text, and exactly two arguments, the driver reports "tinyformat: Not
    enough conversion specifiers in format string", and nothing else; the
    report is made when the second argument finds no specifier, after the
    first argument has been rendered under "%d" and the literal text behind
    the specifier has been written.  When the report comes back, the second
    argument is rendered too and the saved configuration is restored. *)
Theorem surplus_argument_reported policy a0 a1 lit w :
  forallb literal_char lit = true ->
  let o1 :=
    put lit (format a0 (decimal_stream (out w)) ("%" :: "d" :: lit) lit (-1)) in
  formatImpl policy [a0; a1] ("%" :: "d" :: lit) w
  = match policy with
    | ErrorReturns =>
        (mkWorld (restore_stream (width (out w)) (precision (out w))
                                 (flags (out w)) (fill (out w))
                                 (format a1 o1 [] [] (-1)))
                 (reports w ++ [msg.no_spec]),
         Normal tt)
    | ErrorUnwinds =>
        (mkWorld o1 (reports w ++ [msg.no_spec]), Unwinding)
    end.
Proof.
  intros Hlit o1. subst o1. unfold decimal_stream.
  enter_driver.
  rewrite scanner_stops by (simpl; discriminate).
  run. expose.
  rewrite scanner_plain_text by assumption.
  run.
  destruct policy; [|reflexivity].
  run. expose. rewrite scanner_at_end. reflexivity.
Qed.

Lemma surplus_argument_reported_witness :
  formatImpl ErrorUnwinds [sample_arg 1 "one"; sample_arg 2 "two"]
    (cstring "%d") fresh_world
  = (mkWorld (mkStream (cstring "one") 0 6 (Z.lor ios.skipws ios.dec) " ")
             [msg.no_spec],
     Unwinding).
Proof.
  apply (surplus_argument_reported ErrorUnwinds (sample_arg 1 "one")
           (sample_arg 2 "two") [] fresh_world).
  reflexivity.
Defined.

(** C3, as the claim has it, fails: on "%d" with two arguments the only
    report is "tinyformat: Not enough conversion specifiers in format
    string"; the message "tinyformat: Too many conversion specifiers in
    format string" is not among the reports, under either error policy. *)
Lemma surplus_argument_not_too_many_specifiers :
  (reports (fst (formatImpl ErrorReturns
                   [sample_arg 1 "one"; sample_arg 2 "two"]
                   (cstring "%d") fresh_world)) = [msg.no_spec] /\
   ~ In msg.too_many_specs
        (reports (fst (formatImpl ErrorReturns
                         [sample_arg 1 "one"; sample_arg 2 "two"]
                         (cstring "%d") fresh_world)))) /\
  (reports (fst (formatImpl ErrorUnwinds
                   [sample_arg 1 "one"; sample_arg 2 "two"]
                   (cstring "%d") fresh_world)) = [msg.no_spec] /\
   ~ In msg.too_many_specs
        (reports (fst (formatImpl ErrorUnwinds
                         [sample_arg 1 "one"; sample_arg 2 "two"]
                         (cstring "%d") fresh_world)))).
Proof.
  split; (split; [reflexivity|]);
    vm_compute; intros [H|[]]; discriminate H.
Qed.

(** C1 fails on the code: with "%*d" and one argument, the argument is
    consumed as the width, line 264 reports "tinyformat: Not enough format
    arguments", and the [return] of line 265 leaves [formatImpl] before
    lines 295-298: the call returns with the width 5 of the specifier still
    in the stream, whose width was 0 before the call. *)
Theorem early_return_skips_restore :
  let r := formatImpl ErrorReturns [sample_arg 5 "42"] (cstring "%*d")
             fresh_world in
  snd r = Normal tt /\
  reports (fst r) = [msg.no_format_arg] /\
  config (out (fst r)) = (5, 6, Z.lor ios.skipws ios.dec, " ") /\
  config fresh_stream = (0, 6, Z.lor ios.skipws ios.dec, " ") /\
  config (out (fst r)) <> config fresh_stream.
Proof.
  vm_compute. repeat split. discriminate.
Qed.

(** ** The loop of the driver *)

(** The fuel of [formatImpl] is enough: the loop is never left for lack of
    it. *)
Lemma formatImpl_loop_fuel policy fs fuel :
  forall fmt ai w w' x,
    (numFormatters fs <= fuel + ai)%nat ->
    formatImpl_loop policy fs fuel fmt ai w = (w', Normal x) ->
    x <> OutOfFuel.
Proof.
  induction fuel as [|fuel IH]; intros fmt ai w w' x Hfuel; simpl.
  - destruct (Nat.ltb_spec ai (numFormatters fs)); [lia|].
    intros H'; inversion H'; subst. discriminate.
  - destruct (Nat.ltb_spec ai (numFormatters fs)).
    2:{ intros H'; inversion H'; subst. discriminate. }
    rewrite (bind_normal _ _ w w (out w)) by reflexivity.
    destruct (printFormatStringLiteral (out w) fmt) as [o1 fmt1].
    rewrite (bind_normal _ _ w (mkWorld o1 (reports w)) tt) by reflexivity.
    destruct (streamStateFromFormat policy fs false (-1) fmt1 ai
                (mkWorld o1 (reports w))) as [w2 [r|]] eqn:ES.
    2:{ rewrite (bind_unwinding _ _ _ _ ES). discriminate. }
    rewrite (bind_normal _ _ _ _ _ ES).
    apply spec_argIndex in ES.
    destruct (nth_error fs (res_argIndex r)) as [arg|].
    + match goal with
      | |- bind (on_out ?f) _ _ = _ -> _ =>
          rewrite (bind_normal _ _ w2 (mkWorld (f (out w2)) (reports w2)) tt)
            by reflexivity
      end.
      apply IH. lia.
    + unfold bind, ret.
      destruct (TINYFORMAT_ERROR policy msg.no_format_arg w2) as [w3 [[]|]];
        intros H'; inversion H'; subst; discriminate.
Qed.

(** How the loop is left when errors are only recorded: either its
    condition fails, or line 265 returns right after the report of
    line 264. *)
Lemma formatImpl_loop_exits fs fuel :
  forall fmt ai w,
    (numFormatters fs <= fuel + ai)%nat ->
    exists w' x,
      formatImpl_loop ErrorReturns fs fuel fmt ai w = (w', Normal x) /\
      ((exists fmt', x = LoopDone fmt') \/
       (x = EarlyReturn /\ exists rs, reports w' = rs ++ [msg.no_format_arg])).
Proof.
  induction fuel as [|fuel IH]; intros fmt ai w Hfuel; simpl.
  - destruct (Nat.ltb_spec ai (numFormatters fs)); [lia|].
    exists w, (LoopDone fmt). split; [reflexivity|]. left. eauto.
  - destruct (Nat.ltb_spec ai (numFormatters fs)).
    2:{ exists w, (LoopDone fmt). split; [reflexivity|]. left. eauto. }
    rewrite (bind_normal _ _ w w (out w)) by reflexivity.
    destruct (printFormatStringLiteral (out w) fmt) as [o1 fmt1].
    rewrite (bind_normal _ _ w (mkWorld o1 (reports w)) tt) by reflexivity.
    destruct (returns_streamStateFromFormat fs false (-1) fmt1 ai
                (mkWorld o1 (reports w))) as (w2 & r & ES).
    rewrite (bind_normal _ _ _ _ _ ES).
    apply spec_argIndex in ES.
    destruct (nth_error fs (res_argIndex r)) as [arg|].
    + match goal with
      | |- exists _ _, bind (on_out ?f) _ _ = _ /\ _ =>
          rewrite (bind_normal _ _ w2 (mkWorld (f (out w2)) (reports w2)) tt)
            by reflexivity
      end.
      apply IH. lia.
    + exists (mkWorld (out w2) (reports w2 ++ [msg.no_format_arg])), EarlyReturn.
      split; [reflexivity|]. right. split; [reflexivity|].
      exists (reports w2). reflexivity.
Qed.

(** X23: when errors are only recorded, [formatImpl] always returns, and the
    configuration of the stream is the one it had before the call on every
    path but one: the return of line 265, taken right after the report
    "tinyformat: Not enough format arguments". *)
Theorem restored_unless_early_return fs fmt w :
  exists w',
    formatImpl ErrorReturns fs fmt w = (w', Normal tt) /\
    (config (out w') = config (out w) \/
     exists rs, reports w' = rs ++ [msg.no_format_arg]).
Proof.
  unfold formatImpl.
  rewrite (bind_normal _ _ w w (out w)) by reflexivity.
  destruct (formatImpl_loop_exits fs (numFormatters fs) fmt 0 w ltac:(lia))
    as (w1 & x & E & [[fmt' ->] | [-> Hrep]]).
  - rewrite (bind_normal _ _ _ _ _ E).
    rewrite (bind_normal _ _ w1 w1 (out w1)) by reflexivity.
    destruct (printFormatStringLiteral (out w1) fmt') as [o2 fmt2].
    rewrite (bind_normal _ _ w1 (mkWorld o2 (reports w1)) tt) by reflexivity.
    destruct (negb (Ascii.eqb (deref fmt2) NUL)).
    + eexists. split; [reflexivity|]. left. reflexivity.
    + eexists. split; [reflexivity|]. left. reflexivity.
  - rewrite (bind_normal _ _ _ _ _ E).
    exists w1. split; [reflexivity|]. right. exact Hrep.
Qed.

(** * Further properties of the code *)

(** ** [parseIntAndAdvance] *)

Lemma digit_value_range (ch : ascii) :
  is_digit ch = true -> 0 <= digit_value ch <= 9.
Proof.
  unfold is_digit, digit_value. rewrite andb_true_iff, !Z.leb_le.
  change (code "0") with 48. change (code "9") with 57. lia.
Qed.

Lemma numeral_fold_ge (ds : list ascii) :
  forallb is_digit ds = true ->
  forall i, 0 <= i ->
    i <= fold_left (fun i ch => 10 * i + digit_value ch) ds i.
Proof.
  induction ds as [|d ds IH]; intros Hds i Hi; cbn [fold_left]; [lia|].
  cbn [forallb] in Hds. apply andb_true_iff in Hds as [Hd Hds].
  pose proof (digit_value_range d Hd).
  specialize (IH Hds (10 * i + digit_value d) ltac:(lia)). lia.
Qed.

Lemma parseInt_loop_numeral (ds tail : cstr) :
  forallb is_digit ds = true ->
  is_digit (deref tail) = false ->
  forall i,
    0 <= i ->
    fold_left (fun i ch => 10 * i + digit_value ch) ds i < 2 ^ 31 ->
    parseInt_loop i (ds ++ tail)
    = (fold_left (fun i ch => 10 * i + digit_value ch) ds i, tail).
Proof.
  intros Hds Htail.
  induction ds as [|d ds IH]; intros i Hi Hlt; cbn [app fold_left parseInt_loop].
  - destruct tail as [|ch tail]; [reflexivity|].
    cbn [deref] in Htail. cbn [parseInt_loop]. now rewrite Htail.
  - cbn [forallb] in Hds. apply andb_true_iff in Hds as [Hd Hds].
    rewrite Hd. cbn [fold_left] in Hlt.
    pose proof (digit_value_range d Hd) as Hr.
    pose proof (numeral_fold_ge ds Hds (10 * i + digit_value d) ltac:(lia)).
    fold (digit_value d).
    rewrite int_wrap_small by (unfold in_int; lia).
    apply IH; [assumption | lia | assumption].
Qed.

(** X1: on a run of digits followed by a character that is no digit,
    [parseIntAndAdvance] returns the number the digits denote in base ten,
    provided it fits an [int], and leaves the cursor at that character; in
    particular, with no digit at all it returns 0 and does not move. *)
Theorem parseIntAndAdvance_reads_numeral (ds tail : cstr) :
  forallb is_digit ds = true ->
  is_digit (deref tail) = false ->
  numeral_value ds < 2 ^ 31 ->
  parseIntAndAdvance (ds ++ tail) = (numeral_value ds, tail).
Proof.
  intros Hds Htail Hlt.
  apply (parseInt_loop_numeral ds tail Hds Htail 0); [lia | exact Hlt].
Qed.

Lemma parseIntAndAdvance_reads_numeral_witness :
  parseIntAndAdvance (cstring "2147483647d") = (2147483647, cstring "d") /\
  parseIntAndAdvance (cstring "x12") = (0, cstring "x12").
Proof.
  split.
  - apply (parseIntAndAdvance_reads_numeral (cstring "2147483647")
             (cstring "d")); [reflexivity | reflexivity |].
    vm_compute. reflexivity.
  - apply (parseIntAndAdvance_reads_numeral [] (cstring "x12"));
      [reflexivity | reflexivity |].
    vm_compute. reflexivity.
Defined.

(** ** [printFormatStringLiteral] *)

Lemma scanner_at_nul (rest : cstr) (o : ostream) :
  printFormatStringLiteral o (NUL :: rest) = (o, NUL :: rest).
Proof.
  unfold printFormatStringLiteral. cbn [scan_literal].
  change (Ascii.eqb NUL NUL) with true. cbv iota. now rewrite write_0.
Qed.

(** What one scan does to the stream and to the cursor. *)
Lemma scanner_spec (n : nat) :
  forall fmt, (List.length fmt <= n)%nat ->
  forall o, exists s consumed rest,
    printFormatStringLiteral o fmt = (put s o, rest) /\
    fmt = consumed ++ rest /\
    non_percents s = non_percents consumed /\
    percents consumed = (2 * percents s)%nat /\
    scan_stop rest = true.
Proof.
  induction n as [|n IH]; intros fmt Hlen o.
  - destruct fmt; [|simpl in Hlen; lia].
    exists [], [], []. rewrite scanner_at_end, put_nil. repeat split.
  - destruct fmt as [|ch c1].
    { exists [], [], []. rewrite scanner_at_end, put_nil. repeat split. }
    destruct (Ascii.eqb ch NUL) eqn:E0.
    { apply Ascii.eqb_eq in E0. subst ch.
      exists [], [], (NUL :: c1). rewrite scanner_at_nul, put_nil.
      repeat split. }
    destruct (Ascii.eqb ch "%") eqn:Ep.
    + apply Ascii.eqb_eq in Ep. subst ch.
      destruct (Ascii.eqb (deref c1) "%") eqn:E1.
      * destruct c1 as [|ch1 c2]; [discriminate E1|].
        cbn [deref] in E1. apply Ascii.eqb_eq in E1. subst ch1.
        destruct (IH c2 ltac:(simpl in Hlen; lia) (put ["%"] o))
          as (s & consumed & rest & E & Hc & Hn & Hp & Hs).
        exists ("%" :: s), ("%" :: "%" :: consumed), rest.
        rewrite scanner_escape, E, put_put, Hc.
        repeat split; try assumption.
        unfold percents in *. cbn [filter]. change (Ascii.eqb "%" "%") with true.
        cbn [List.length]. lia.
      * exists [], [], ("%" :: c1).
        rewrite scanner_stops by (now apply Ascii.eqb_neq).
        rewrite put_nil. repeat split.
        unfold scan_stop. cbn [deref advance tl].
        rewrite E1. reflexivity.
    + destruct (IH c1 ltac:(simpl in Hlen; lia) (put [ch] o))
        as (s & consumed & rest & E & Hc & Hn & Hp & Hs).
      exists (ch :: s), (ch :: consumed), rest.
      rewrite scanner_literal_char
        by (unfold literal_char; now rewrite E0, Ep).
      rewrite E, put_put, Hc.
      repeat split; try assumption.
      * unfold non_percents in *. cbn [filter]. rewrite Ep. cbn [negb].
        now rewrite Hn.
      * unfold percents in *. cbn [filter].
        rewrite Ascii.eqb_sym, Ep. exact Hp.
Qed.

Lemma scanner_rests (rest : cstr) (o : ostream) :
  scan_stop rest = true -> printFormatStringLiteral o rest = (o, rest).
Proof.
  unfold scan_stop. rewrite orb_true_iff, andb_true_iff, negb_true_iff.
  intros [H0 | [Hp Hn]].
  - destruct rest as [|ch rest]; [apply scanner_at_end|].
    cbn [deref] in H0. apply Ascii.eqb_eq in H0. subst ch.
    apply scanner_at_nul.
  - destruct rest as [|ch rest]; [discriminate Hp|].
    cbn [deref advance tl] in Hp, Hn. apply Ascii.eqb_eq in Hp. subst ch.
    apply scanner_stops. now apply Ascii.eqb_neq.
Qed.

(** X2: the cursor that [printFormatStringLiteral] returns is at the
    terminator of the string, or at a '%' that is not followed by a second
    '%': the start of a specifier. *)
Theorem scanner_stops_at_specifier (o : ostream) (fmt : cstr) :
  scan_stop (snd (printFormatStringLiteral o fmt)) = true.
Proof.
  destruct (scanner_spec (List.length fmt) fmt (Nat.le_refl _) o)
    as (s & consumed & rest & E & _ & _ & _ & Hs).
  rewrite E. exact Hs.
Qed.

Lemma unescape_literal (ch : ascii) (c : list ascii) :
  Ascii.eqb ch "%" = false -> unescape (ch :: c) = ch :: unescape c.
Proof.
  intros H. cbn [unescape]. rewrite H. cbn [andb].
  now destruct c.
Qed.

Lemma unescape_pair (c : list ascii) :
  unescape ("%" :: "%" :: c) = "%" :: unescape c.
Proof. reflexivity. Qed.

(** What one scan writes: the text it passes over, with the pairs of '%'
    replaced. *)
Lemma scanner_unescapes (n : nat) :
  forall fmt, (List.length fmt <= n)%nat ->
  forall o, exists consumed,
    fst (printFormatStringLiteral o fmt) = put (unescape consumed) o /\
    fmt = consumed ++ snd (printFormatStringLiteral o fmt).
Proof.
  induction n as [|n IH]; intros fmt Hlen o.
  - destruct fmt; [|simpl in Hlen; lia].
    exists []. rewrite scanner_at_end. cbn [fst snd unescape app].
    now rewrite put_nil.
  - destruct fmt as [|ch c1].
    { exists []. rewrite scanner_at_end. cbn [fst snd unescape app].
      now rewrite put_nil. }
    destruct (Ascii.eqb ch NUL) eqn:E0.
    { apply Ascii.eqb_eq in E0. subst ch.
      exists []. rewrite scanner_at_nul. cbn [fst snd unescape app].
      now rewrite put_nil. }
    destruct (Ascii.eqb ch "%") eqn:Ep.
    + apply Ascii.eqb_eq in Ep. subst ch.
      destruct (Ascii.eqb (deref c1) "%") eqn:E1.
      * destruct c1 as [|ch1 c2]; [discriminate E1|].
        cbn [deref] in E1. apply Ascii.eqb_eq in E1. subst ch1.
        destruct (IH c2 ltac:(simpl in Hlen; lia) (put ["%"] o))
          as (consumed & E & Hc).
        exists ("%" :: "%" :: consumed).
        rewrite scanner_escape, E, unescape_pair, put_put.
        split; [reflexivity|].
        cbn [app]. now rewrite <- Hc.
      * exists [].
        rewrite scanner_stops by (now apply Ascii.eqb_neq).
        cbn [fst snd unescape app]. now rewrite put_nil.
    + destruct (IH c1 ltac:(simpl in Hlen; lia) (put [ch] o))
        as (consumed & E & Hc).
      exists (ch :: consumed).
      rewrite scanner_literal_char
        by (unfold literal_char; now rewrite E0, Ep).
      rewrite E, unescape_literal, put_put by assumption.
      split; [reflexivity|].
      cbn [app]. now rewrite <- Hc.
Qed.

(** X3: [printFormatStringLiteral] only appends to the stream and leaves
    its formatting configuration alone; the returned cursor is inside the
    format string, and the text appended is exactly the text passed over
    with every pair of '%' replaced by one '%' where the pair stood.  In
    particular the other characters are the same in the same order, and the
    '%' are half as many, so every '%' passed over belongs to a pair. *)
Theorem scanner_copies_unescaped (o : ostream) (fmt : cstr) :
  exists consumed,
    fst (printFormatStringLiteral o fmt) = put (unescape consumed) o /\
    config (fst (printFormatStringLiteral o fmt)) = config o /\
    fmt = consumed ++ snd (printFormatStringLiteral o fmt) /\
    non_percents (unescape consumed) = non_percents consumed /\
    percents consumed = (2 * percents (unescape consumed))%nat.
Proof.
  destruct (scanner_unescapes (List.length fmt) fmt (Nat.le_refl _) o)
    as (consumed & E & Hc).
  destruct (scanner_spec (List.length fmt) fmt (Nat.le_refl _) o)
    as (s & consumed' & rest & E' & Hc' & Hn & Hp & _).
  rewrite E' in E, Hc. cbn [fst snd] in E, Hc.
  assert (consumed' = consumed) as ->.
  { apply (app_inv_tail rest). now rewrite <- Hc, <- Hc'. }
  assert (s = unescape consumed) as ->.
  { apply (f_equal written) in E. unfold put in E. cbn [written] in E.
    now apply app_inv_head in E. }
  exists consumed. rewrite E'. cbn [fst snd].
  split; [reflexivity|]. split; [reflexivity|].
  split; [exact Hc|]. split; assumption.
Qed.

(** X4: scanning again from the cursor that a scan returned writes nothing
    and returns the same cursor. *)
Theorem scanner_is_stable (o : ostream) (fmt : cstr) :
  printFormatStringLiteral (fst (printFormatStringLiteral o fmt))
                           (snd (printFormatStringLiteral o fmt))
  = printFormatStringLiteral o fmt.
Proof.
  destruct (scanner_spec (List.length fmt) fmt (Nat.le_refl _) o)
    as (s & consumed & rest & E & _ & _ & _ & Hs).
  rewrite E. cbn [fst snd]. now apply scanner_rests.
Qed.

(** ** [streamStateFromFormat]: what it leaves alone *)

Lemma parse_flags_keeps_written (c : cstr) :
  forall o sp we,
    written (fst (fst (fst (parse_flags o sp we c)))) = written o.
Proof.
  induction c as [|ch c IH]; intros o sp we; [reflexivity|].
  cbn [parse_flags].
  destruct (Ascii.eqb ch "#"); [now rewrite IH|].
  destruct (Ascii.eqb ch "0");
    [rewrite IH; now destruct (test_flag ios.left o)|].
  destruct (Ascii.eqb ch "-"); [now rewrite IH|].
  destruct (Ascii.eqb ch " "); [now rewrite IH|].
  destruct (Ascii.eqb ch "+"); [now rewrite IH|].
  reflexivity.
Qed.

Lemma parse_width_keeps_written policy fs c ai :
  preserves written (parse_width policy fs c ai).
Proof. unfold parse_width, next_int. repeat preserves_step. Qed.

Lemma parse_precision_keeps_written policy fs c ai :
  preserves written (parse_precision policy fs c ai).
Proof. unfold parse_precision, next_int. repeat preserves_step. Qed.

Lemma conversion_keeps_written policy ch ps nt :
  preserves written (conversion policy ch ps nt).
Proof. unfold conversion. repeat preserves_step. Qed.

Lemma flags_width_keeps_written policy fs sp c ai :
  preserves written (parse_flags_width policy fs sp c ai).
Proof.
  intros w w' r. unfold parse_flags_width.
  rewrite (bind_normal _ _ w (mkWorld (reset_stream (out w)) (reports w)) tt)
    by reflexivity.
  rewrite (bind_normal _ _ _ (mkWorld (reset_stream (out w)) (reports w))
             (reset_stream (out w))) by reflexivity.
  pose proof (parse_flags_keeps_written c (reset_stream (out w)) sp 0) as Hf.
  destruct (parse_flags (reset_stream (out w)) sp 0 c)
    as [[[o1 sp0] we0] c1] eqn:EF.
  cbn [fst] in Hf.
  rewrite (bind_normal _ _ _ (mkWorld o1 (reports w)) tt) by reflexivity.
  intros H.
  assert (Hp : preserves written
                 ('(widthSet, argIndex, c2) <- parse_width policy fs c1 ai ;;
                  ret (sp0, we0, widthSet, argIndex, c2))).
  { apply preserves_bind; [apply parse_width_keeps_written|].
    intros [[ws a2] c2]. apply preserves_ret. }
  rewrite (Hp _ _ _ H). cbn [out]. exact Hf.
Qed.

Lemma prefix_keeps_written policy fs sp c ai :
  preserves written (parse_spec_prefix policy fs sp c ai).
Proof.
  unfold parse_spec_prefix.
  apply preserves_bind; [apply flags_width_keeps_written|].
  intros [[[[sp1 we1] ws] ai2] c2].
  apply preserves_bind; [apply parse_precision_keeps_written|].
  intros [[ps ai3] c3]. apply preserves_ret.
Qed.

Lemma spec_keeps_written policy fs sp nt c ai :
  preserves written (streamStateFromFormat policy fs sp nt c ai).
Proof.
  unfold streamStateFromFormat.
  destruct (negb (Ascii.eqb (deref c) "%")).
  - repeat preserves_step.
  - apply preserves_bind; [apply prefix_keeps_written|]. intros l.
    apply preserves_bind; [apply conversion_keeps_written|].
    intros [ic nt'|]; repeat preserves_step.
Qed.

(** X5: [streamStateFromFormat] writes nothing: whatever the specifier and
    however the function is left, the text on the stream is the text that
    was there. *)
Theorem specifier_writes_nothing policy fs sp nt c ai w :
  written (out (fst (streamStateFromFormat policy fs sp nt c ai w)))
  = written (out w).
Proof.
  destruct (streamStateFromFormat policy fs sp nt c ai w) as [w' r] eqn:E.
  apply (spec_keeps_written _ _ _ _ _ _ _ _ _ E).
Qed.

Lemma reset_stream_eq (o1 o2 : ostream) :
  written o1 = written o2 ->
  Z.ldiff (flags o1) reset_mask = Z.ldiff (flags o2) reset_mask ->
  reset_stream o1 = reset_stream o2.
Proof.
  intros Hw Hf.
  unfold reset_stream, unsetf, set_flags, set_fill, set_precision, set_width.
  cbn [written width precision flags fill].
  fold reset_mask. now rewrite Hw, Hf.
Qed.

(** X6: every specifier starts from a clean slate.  At a '%', the result of
    [streamStateFromFormat] does not depend on the width, the precision and
    the fill character the stream came in with, nor on those of its flags
    that lines 71-73 clear: two streams that agree on the text written and
    on the other flags give the same stream, the same outputs and the same
    reports. *)
Theorem specifier_starts_clean policy fs sp nt c ai o1 o2 rs :
  written o1 = written o2 ->
  Z.ldiff (flags o1) reset_mask = Z.ldiff (flags o2) reset_mask ->
  streamStateFromFormat policy fs sp nt ("%" :: c) ai (mkWorld o1 rs)
  = streamStateFromFormat policy fs sp nt ("%" :: c) ai (mkWorld o2 rs).
Proof.
  intros Hw Hf.
  pose proof (reset_stream_eq o1 o2 Hw Hf) as Hr.
  assert (Hfw : parse_flags_width policy fs sp c ai (mkWorld o1 rs)
                = parse_flags_width policy fs sp c ai (mkWorld o2 rs)).
  { unfold parse_flags_width.
    rewrite (bind_normal _ _ (mkWorld o1 rs)
               (mkWorld (reset_stream o1) rs) tt) by reflexivity.
    rewrite (bind_normal _ _ (mkWorld o2 rs)
               (mkWorld (reset_stream o2) rs) tt) by reflexivity.
    now rewrite Hr. }
  unfold streamStateFromFormat. cbn [deref advance tl]. const_chars.
  unfold parse_spec_prefix.
  unfold bind at 1 2. unfold bind at 3 4.
  now rewrite Hfw.
Qed.

Lemma specifier_starts_clean_witness :
  streamStateFromFormat ErrorReturns [] false (-1) (cstring "%+5.2f|") 0
    (mkWorld (mkStream (cstring "a") 12 3 (Z.lor ios.skipws ios.hex) "*") [])
  = streamStateFromFormat ErrorReturns [] false (-1) (cstring "%+5.2f|") 0
      (mkWorld (mkStream (cstring "a") 0 6
                  (Z.lor ios.skipws (Z.lor ios.dec ios.uppercase)) " ") []).
Proof.
  apply (specifier_starts_clean ErrorReturns [] false (-1)
           (cstring "+5.2f|") 0); reflexivity.
Defined.

(** ** [streamStateFromFormat]: the argument index and the cursor *)

Lemma arg_step_next_int policy fs reason ai :
  ensures (next_int policy fs reason ai) (fun r => arg_step fs ai (snd r)).
Proof.
  unfold next_int. destruct (nth_error fs ai) eqn:E.
  - apply ensures_ret. cbn [snd]. unfold arg_step.
    assert (ai < List.length fs)%nat
      by (apply nth_error_Some; congruence).
    lia.
  - eapply ensures_bind; [apply ensures_any|].
    intros _ _. apply ensures_ret. cbn [snd]. unfold arg_step. lia.
Qed.

Lemma arg_step_parse_width policy fs c ai :
  ensures (parse_width policy fs c ai)
          (fun r => arg_step fs ai (snd (fst r))).
Proof.
  unfold parse_width.
  eapply ensures_bind; [apply ensures_any|].
  intros [ws c1] _.
  destruct (Ascii.eqb (deref c1) "*").
  - eapply ensures_bind; [apply arg_step_next_int|].
    intros [v ai1] Hai. cbn [snd] in Hai.
    eapply ensures_bind; [apply ensures_any|]. intros v' _.
    eapply ensures_bind; [apply ensures_any|]. intros _ _.
    apply ensures_ret. exact Hai.
  - apply ensures_ret. cbn [fst snd]. unfold arg_step. lia.
Qed.

Lemma arg_step_parse_precision policy fs c ai :
  ensures (parse_precision policy fs c ai)
          (fun r => arg_step fs ai (snd (fst r))).
Proof.
  unfold parse_precision.
  destruct (Ascii.eqb (deref c) ".");
    [|apply ensures_ret; cbn [fst snd]; unfold arg_step; lia].
  eapply ensures_bind with (Q := fun r => arg_step fs ai (snd (fst r))).
  - destruct (Ascii.eqb (deref (advance c)) "*").
    + eapply ensures_bind; [apply arg_step_next_int|].
      intros [p ai1] Hai. apply ensures_ret. exact Hai.
    + destruct (is_digit (deref (advance c))).
      * destruct (parseIntAndAdvance (advance c)).
        apply ensures_ret. cbn [fst snd]. unfold arg_step. lia.
      * destruct (Ascii.eqb (deref (advance c)) "-").
        -- destruct (parseIntAndAdvance (advance (advance c))).
           apply ensures_ret. cbn [fst snd]. unfold arg_step. lia.
        -- apply ensures_ret. cbn [fst snd]. unfold arg_step. lia.
  - intros [[p ai1] c1] Hai. cbn [fst snd] in Hai.
    eapply ensures_bind; [apply ensures_any|]. intros _ _.
    apply ensures_ret. exact Hai.
Qed.

(** What comes back from a specifier that starts with '%', in full. *)
Lemma spec_result_from_prefix policy fs sp nt c ai w w' r :
  streamStateFromFormat policy fs sp nt ("%" :: c) ai w = (w', Normal r) ->
  exists w1 l,
    parse_spec_prefix policy fs sp c ai w = (w1, Normal l) /\
    res_spacePadPositive r = l_spacePadPositive l /\
    res_argIndex r = l_argIndex l /\
    (res_fmtEnd r = l_c l \/ res_fmtEnd r = advance (l_c l)).
Proof.
  destruct (parse_spec_prefix policy fs sp c ai w) as [w1 [l|]] eqn:Hpre.
  - rewrite (spec_after_prefix _ _ _ nt _ _ _ _ _ Hpre).
    intros H. exists w1, l. split; [reflexivity|].
    unfold bind, ret, on_out in H.
    destruct (conversion policy (deref (l_c l)) (l_precisionSet l) nt w1)
      as [w2 [[ic nt'|]|]]; try discriminate.
    + destruct (ic && l_precisionSet l && negb (l_widthSet l));
        inversion H; subst; cbn; auto.
    + inversion H; subst; cbn; auto.
  - rewrite (spec_prefix_unwinds _ _ _ nt _ _ _ _ Hpre). discriminate.
Qed.

Lemma spec_not_at_percent policy fs sp nt c ai w w' r :
  deref c <> "%" ->
  streamStateFromFormat policy fs sp nt c ai w = (w', Normal r) ->
  r = mkSpec sp nt ai c /\ out w' = out w /\
  reports w' = reports w ++ [msg.no_spec].
Proof.
  intros Hc. apply Ascii.eqb_neq in Hc.
  unfold streamStateFromFormat. rewrite Hc. cbn [negb].
  unfold bind, ret, TINYFORMAT_ERROR.
  destruct policy; intros H; inversion H; subst; auto.
Qed.

(** X7: a specifier takes at most two arguments for its own use (a
    variable width and a variable precision) and none behind the end of the
    argument list: the index that [streamStateFromFormat] hands back is the
    one it got, or one or two more, and when the index it got was within the
    list the one it hands back is at most the length of the list. *)
Theorem specifier_argument_index policy fs sp nt c ai w w' r :
  streamStateFromFormat policy fs sp nt c ai w = (w', Normal r) ->
  (ai <= res_argIndex r <= ai + 2)%nat /\
  (res_argIndex r <= Nat.max ai (numFormatters fs))%nat.
Proof.
  intros H. unfold numFormatters.
  destruct (Ascii.eqb (deref c) "%") eqn:Ec.
  - destruct c as [|ch c]; [discriminate Ec|].
    cbn [deref] in Ec. apply Ascii.eqb_eq in Ec. subst ch.
    destruct (spec_result_from_prefix _ _ _ _ _ _ _ _ _ H)
      as (w1 & l & Hpre & _ & -> & _).
    destruct (prefix_inv _ _ _ _ _ _ _ _ Hpre)
      as (sp1 & we1 & w2 & ws & ai2 & c2 & ps & c3 & EFW & EP & _).
    destruct (flags_width_inv _ _ _ _ _ _ _ _ _ _ _ _ EFW)
      as (o1 & c1 & _ & EW).
    apply arg_step_parse_width in EW.
    apply arg_step_parse_precision in EP.
    unfold arg_step in EW, EP. cbn [fst snd] in EW, EP. lia.
  - apply Ascii.eqb_neq in Ec.
    destruct (spec_not_at_percent _ _ _ _ _ _ _ _ _ Ec H) as (-> & _).
    cbn [res_argIndex]. lia.
Qed.

Lemma specifier_argument_index_witness :
  (0 <= 2 <= 0 + 2)%nat /\
  (2 <= Nat.max 0
          (numFormatters [sample_arg 7 "7"; sample_arg 2 "2"; sample_arg 1 "1"]))%nat.
Proof.
  apply (specifier_argument_index ErrorUnwinds
           [sample_arg 7 "7"; sample_arg 2 "2"; sample_arg 1 "1"]
           false (-1) (cstring "%*.*f|") 0 fresh_world
           (mkWorld (mkStream [] 7 2 (Z.lor ios.skipws ios.fixed) " ") [])
           (mkSpec false (-1) 2 (cstring "|"))).
  reflexivity.
Defined.

(** Cursors. *)
Lemma cursor_in_refl (c : cstr) : cursor_in c c.
Proof. exists []. reflexivity. Qed.

Lemma cursor_in_trans (a b c : cstr) :
  cursor_in a b -> cursor_in b c -> cursor_in a c.
Proof.
  intros [p ->] [q ->]. exists (p ++ q). now rewrite app_assoc.
Qed.

Lemma cursor_in_advance (c : cstr) : cursor_in c (advance c).
Proof.
  destruct c as [|ch c]; [apply cursor_in_refl|]. exists [ch]. reflexivity.
Qed.

Lemma cursor_in_cons (ch : ascii) (c r : cstr) :
  cursor_in c r -> cursor_in (ch :: c) r.
Proof. intros [p ->]. exists (ch :: p). reflexivity. Qed.

Lemma parse_flags_cursor (c : cstr) :
  forall o sp we, cursor_in c (snd (parse_flags o sp we c)).
Proof.
  induction c as [|ch c IH]; intros o sp we; [apply cursor_in_refl|].
  cbn [parse_flags].
  destruct (Ascii.eqb ch "#"); [apply cursor_in_cons, IH|].
  destruct (Ascii.eqb ch "0"); [apply cursor_in_cons, IH|].
  destruct (Ascii.eqb ch "-"); [apply cursor_in_cons, IH|].
  destruct (Ascii.eqb ch " "); [apply cursor_in_cons, IH|].
  destruct (Ascii.eqb ch "+"); [apply cursor_in_cons, IH|].
  apply cursor_in_refl.
Qed.

Lemma parseInt_loop_cursor (c : cstr) :
  forall i, cursor_in c (snd (parseInt_loop i c)).
Proof.
  induction c as [|ch c IH]; intros i; [apply cursor_in_refl|].
  cbn [parseInt_loop].
  destruct (is_digit ch); [apply cursor_in_cons, IH | apply cursor_in_refl].
Qed.

Lemma skip_length_modifier_cursor (c : cstr) :
  cursor_in c (skip_length_modifier c).
Proof.
  induction c as [|ch c IH]; [apply cursor_in_refl|].
  cbn [skip_length_modifier].
  destruct (is_length_modifier ch);
    [apply cursor_in_cons, IH | apply cursor_in_refl].
Qed.

Lemma parse_width_cursor policy fs c ai :
  ensures (parse_width policy fs c ai) (fun r => cursor_in c (snd r)).
Proof.
  unfold parse_width.
  eapply ensures_bind with (Q := fun r => cursor_in c (snd r)).
  - destruct (is_digit (deref c)).
    + pose proof (parseInt_loop_cursor c 0) as Hc.
      unfold parseIntAndAdvance.
      destruct (parseInt_loop 0 c) as [i c']. cbn [snd] in Hc.
      eapply ensures_bind; [apply ensures_any|]. intros _ _.
      apply ensures_ret. exact Hc.
    + apply ensures_ret. apply cursor_in_refl.
  - intros [ws c1] Hc1. cbn [snd] in Hc1.
    destruct (Ascii.eqb (deref c1) "*").
    + eapply ensures_bind; [apply ensures_any|]. intros [v ai1] _.
      eapply ensures_bind; [apply ensures_any|]. intros v' _.
      eapply ensures_bind; [apply ensures_any|]. intros _ _.
      apply ensures_ret. cbn [snd].
      apply (cursor_in_trans _ _ _ Hc1), cursor_in_advance.
    + apply ensures_ret. exact Hc1.
Qed.

Lemma parse_precision_cursor policy fs c ai :
  ensures (parse_precision policy fs c ai) (fun r => cursor_in c (snd r)).
Proof.
  unfold parse_precision.
  destruct (Ascii.eqb (deref c) ".");
    [|apply ensures_ret; apply cursor_in_refl].
  pose proof (cursor_in_advance c) as Ha.
  eapply ensures_bind with (Q := fun r => cursor_in c (snd r)).
  - destruct (Ascii.eqb (deref (advance c)) "*").
    + eapply ensures_bind; [apply ensures_any|]. intros [p ai1] _.
      apply ensures_ret. cbn [snd].
      apply (cursor_in_trans _ _ _ Ha), cursor_in_advance.
    + destruct (is_digit (deref (advance c))).
      * pose proof (parseInt_loop_cursor (advance c) 0) as Hc.
        unfold parseIntAndAdvance.
        destruct (parseInt_loop 0 (advance c)) as [p c']. cbn [snd] in Hc.
        apply ensures_ret. cbn [snd]. apply (cursor_in_trans _ _ _ Ha Hc).
      * destruct (Ascii.eqb (deref (advance c)) "-").
        -- pose proof (parseInt_loop_cursor (advance (advance c)) 0) as Hc.
           unfold parseIntAndAdvance.
           destruct (parseInt_loop 0 (advance (advance c))) as [p c'].
           cbn [snd] in Hc.
           apply ensures_ret. cbn [snd].
           apply (cursor_in_trans _ _ _ Ha).
           apply (cursor_in_trans _ _ _ (cursor_in_advance _) Hc).
        -- apply ensures_ret. exact Ha.
  - intros [[p ai1] c1] Hc1. cbn [snd] in Hc1.
    eapply ensures_bind; [apply ensures_any|]. intros _ _.
    apply ensures_ret. exact Hc1.
Qed.

Lemma prefix_cursor policy fs sp c ai w w1 l :
  parse_spec_prefix policy fs sp c ai w = (w1, Normal l) ->
  cursor_in c (l_c l).
Proof.
  intros H.
  destruct (prefix_inv _ _ _ _ _ _ _ _ H)
    as (sp1 & we1 & w2 & ws & ai2 & c2 & ps & c3 & EFW & EP & ->).
  destruct (flags_width_inv _ _ _ _ _ _ _ _ _ _ _ _ EFW)
    as (o1 & c1 & EF & EW).
  pose proof (parse_flags_cursor c (reset_stream (out w)) sp 0) as Hf.
  rewrite EF in Hf. cbn [snd] in Hf.
  apply parse_width_cursor in EW. apply parse_precision_cursor in EP.
  cbn [snd] in EW, EP. cbn [l_c].
  apply (cursor_in_trans _ _ _ Hf).
  apply (cursor_in_trans _ _ _ EW).
  apply (cursor_in_trans _ _ _ EP).
  apply skip_length_modifier_cursor.
Qed.

(** X8: [streamStateFromFormat] moves the cursor forward only, and only
    over a specifier.  At a '%', what it returns is a cursor into the same
    string behind that '%', so the string that is left is shorter; anywhere
    else it returns the cursor it got. *)
Theorem specifier_moves_forward policy fs sp nt fmtStart ai w w' r :
  streamStateFromFormat policy fs sp nt fmtStart ai w = (w', Normal r) ->
  (forall c, fmtStart = "%" :: c ->
     cursor_in c (res_fmtEnd r) /\
     (List.length (res_fmtEnd r) < List.length fmtStart)%nat) /\
  (deref fmtStart <> "%" -> res_fmtEnd r = fmtStart).
Proof.
  intros H. split.
  - intros c ->.
    destruct (spec_result_from_prefix _ _ _ _ _ _ _ _ _ H)
      as (w1 & l & Hpre & _ & _ & Hend).
    pose proof (prefix_cursor _ _ _ _ _ _ _ _ Hpre) as Hc.
    assert (Hin : cursor_in c (res_fmtEnd r)).
    { destruct Hend as [-> | ->]; [exact Hc|].
      apply (cursor_in_trans _ _ _ Hc), cursor_in_advance. }
    split; [exact Hin|].
    destruct Hin as [p ->]. cbn [List.length]. rewrite length_app. lia.
  - intros Hc.
    destruct (spec_not_at_percent _ _ _ _ _ _ _ _ _ Hc H) as (-> & _).
    reflexivity.
Qed.

Lemma specifier_moves_forward_witness :
  (forall c, cstring "%-+08.3lf and more" = "%" :: c ->
     cursor_in c (cstring " and more") /\
     (List.length (cstring " and more")
      < List.length (cstring "%-+08.3lf and more"))%nat) /\
  (deref (cstring "%-+08.3lf and more") <> "%" ->
   cstring " and more" = cstring "%-+08.3lf and more").
Proof.
  apply (specifier_moves_forward ErrorUnwinds [] false (-1)
           (cstring "%-+08.3lf and more") 0 fresh_world
           (mkWorld (mkStream [] 8 3
                       (Z.lor ios.skipws
                          (Z.lor ios.left (Z.lor ios.showpos ios.fixed))) " ")
                    [])
           (mkSpec false (-1) 0 (cstring " and more"))).
  reflexivity.
Defined.

(** ** Specifiers without a width *)

(** The flag loop reads the flags and nothing of what follows them. *)
Lemma parse_flags_app (fl rest : cstr) :
  forallb is_flag fl = true ->
  is_flag (deref rest) = false ->
  forall o sp we,
    parse_flags o sp we (fl ++ rest)
    = (fst (fst (fst (parse_flags o sp we fl))),
       snd (fst (fst (parse_flags o sp we fl))),
       snd (fst (parse_flags o sp we fl)), rest).
Proof.
  intros Hfl Hrest.
  induction fl as [|ch fl IH]; intros o sp we.
  - cbn [app]. rewrite parse_flags_stops by assumption. reflexivity.
  - cbn [forallb] in Hfl. apply andb_true_iff in Hfl as [Hch Hfl].
    specialize (IH Hfl). rewrite <- app_comm_cons.
    destruct (is_flag_cases ch Hch) as [-> | [-> | [-> | [-> | ->]]]].
    + rewrite !parse_flags_hash. apply IH.
    + rewrite !parse_flags_zero. apply IH.
    + rewrite !parse_flags_minus. apply IH.
    + rewrite !parse_flags_space. apply IH.
    + rewrite !parse_flags_plus. apply IH.
Qed.

Lemma flags_width_plain policy fs sp fl tail ai w :
  forallb is_flag fl = true ->
  is_flag (deref tail) = false ->
  is_digit (deref tail) = false ->
  Ascii.eqb (deref tail) "*" = false ->
  parse_flags_width policy fs sp (fl ++ tail) ai w
  = (mkWorld (flags_stream sp fl (out w)) (reports w),
     Normal (flags_space_pad sp fl, flags_width_extra fl, false, ai, tail)).
Proof.
  intros Hfl Hf Hd Hs.
  destruct (flags_width_without_width policy fs sp fl tail ai w Hfl Hf Hd Hs)
    as (o' & EF & _ & EFW).
  rewrite (parse_flags_app fl tail Hfl Hf) in EF.
  inversion EF as [[Ho Esp Ewe]].
  rewrite EFW. unfold flags_stream, flags_space_pad, flags_width_extra.
  now rewrite Ho.
Qed.

Lemma deref_after_modifiers (lens tail : cstr) :
  forallb is_length_modifier lens = true ->
  ends_number (deref tail) = true ->
  ends_number (deref (lens ++ tail)) = true.
Proof.
  intros Hl Ht. destruct lens as [|x lens]; [exact Ht|].
  cbn [forallb] in Hl. apply andb_true_iff in Hl as [Hx _].
  cbn [app deref]. now apply length_modifier_ends_number.
Qed.

Lemma length_modifier_is_no_minus (ch : ascii) :
  is_length_modifier ch = true -> Ascii.eqb ch "-" = false.
Proof.
  unfold is_length_modifier. rewrite !orb_true_iff, !Ascii.eqb_eq.
  intros [[[[[-> | ->] | ->] | ->] | ->] | ->]; reflexivity.
Qed.

(** The part before the conversion character of a specifier made of flags
    and length modifiers. *)
Lemma prefix_plain policy fs sp fl lens tail ai w :
  forallb is_flag fl = true ->
  forallb is_length_modifier lens = true ->
  ends_number (deref tail) = true ->
  is_length_modifier (deref tail) = false ->
  parse_spec_prefix policy fs sp (fl ++ lens ++ tail) ai w
  = (mkWorld (flags_stream sp fl (out w)) (reports w),
     Normal (mkLocals (flags_space_pad sp fl) (flags_width_extra fl)
                      false false ai tail)).
Proof.
  intros Hfl Hlens Hend Hnolen.
  pose proof (deref_after_modifiers lens tail Hlens Hend) as Ht.
  apply ends_number_inv in Ht as (Htf & Htd & Hts & Htp).
  rewrite (prefix_after_flags_width _ _ _ _ _ _ _ _ _ _ _ _
             (flags_width_plain policy fs sp fl (lens ++ tail) ai w
                Hfl Htf Htd Hts)).
  assert (Hdot : deref (lens ++ tail) <> ".") by (now apply Ascii.eqb_neq).
  rewrite (bind_normal _ _ _ _ _ (parse_precision_absent policy fs _ ai _ Hdot)).
  unfold ret.
  now rewrite skip_length_modifier_app.
Qed.

(** The same with a precision written in digits. *)
Lemma prefix_with_precision policy fs sp fl ds lens tail ai w :
  forallb is_flag fl = true ->
  forallb is_digit ds = true ->
  forallb is_length_modifier lens = true ->
  ends_number (deref tail) = true ->
  Ascii.eqb (deref tail) "-" = false ->
  is_length_modifier (deref tail) = false ->
  parse_spec_prefix policy fs sp (fl ++ "." :: ds ++ lens ++ tail) ai w
  = (mkWorld (set_precision (decimal_value ds) (flags_stream sp fl (out w)))
             (reports w),
     Normal (mkLocals (flags_space_pad sp fl) (flags_width_extra fl)
                      false true ai tail)).
Proof.
  intros Hfl Hds Hlens Hend Hminus Hnolen.
  pose proof (deref_after_modifiers lens tail Hlens Hend) as Ht.
  apply ends_number_inv in Ht as (_ & Htd & Hts & _).
  assert (Htm : Ascii.eqb (deref (lens ++ tail)) "-" = false).
  { destruct lens as [|x lens]; [exact Hminus|].
    cbn [forallb] in Hlens. apply andb_true_iff in Hlens as [Hx _].
    cbn [app deref]. now apply length_modifier_is_no_minus. }
  rewrite (prefix_after_flags_width _ _ _ _ _ _ _ _ _ _ _ _
             (flags_width_plain policy fs sp fl ("." :: ds ++ lens ++ tail)
                ai w Hfl eq_refl eq_refl eq_refl)).
  rewrite (bind_normal _ _ _ _ _
             (parse_precision_digits policy fs ds _ ai _ Hds Htd Hts Htm)).
  unfold ret.
  now rewrite skip_length_modifier_app.
Qed.

(** Two specifiers with the same part before the conversion character. *)
Lemma spec_of_equal_prefix policy fs sp nt c1 c2 ai w :
  parse_spec_prefix policy fs sp c1 ai w
  = parse_spec_prefix policy fs sp c2 ai w ->
  streamStateFromFormat policy fs sp nt ("%" :: c1) ai w
  = streamStateFromFormat policy fs sp nt ("%" :: c2) ai w.
Proof.
  intros H.
  unfold streamStateFromFormat. cbn [deref advance tl]. const_chars.
  unfold bind at 1 2. now rewrite H.
Qed.

(** X9: length modifiers have no effect.  A specifier made of flags, an
    optional precision in digits, length modifiers and a conversion
    character gives the same stream, outputs, reports and cursor as the
    specifier without the length modifiers. *)
Theorem length_modifiers_are_ignored policy fs sp nt fl lens tail ai w :
  forallb is_flag fl = true ->
  forallb is_length_modifier lens = true ->
  ends_number (deref tail) = true ->
  is_length_modifier (deref tail) = false ->
  streamStateFromFormat policy fs sp nt ("%" :: fl ++ lens ++ tail) ai w
  = streamStateFromFormat policy fs sp nt ("%" :: fl ++ tail) ai w /\
  (forall ds,
      forallb is_digit ds = true ->
      Ascii.eqb (deref tail) "-" = false ->
      streamStateFromFormat policy fs sp nt
        ("%" :: fl ++ "." :: ds ++ lens ++ tail) ai w
      = streamStateFromFormat policy fs sp nt
          ("%" :: fl ++ "." :: ds ++ tail) ai w).
Proof.
  intros Hfl Hlens Hend Hnolen. split.
  - apply spec_of_equal_prefix.
    rewrite (prefix_plain policy fs sp fl lens tail ai w) by assumption.
    symmetry.
    apply (prefix_plain policy fs sp fl [] tail ai w); auto.
  - intros ds Hds Hminus.
    apply spec_of_equal_prefix.
    rewrite (prefix_with_precision policy fs sp fl ds lens tail ai w)
      by assumption.
    symmetry.
    apply (prefix_with_precision policy fs sp fl ds [] tail ai w); auto.
Qed.

Lemma length_modifiers_are_ignored_witness :
  streamStateFromFormat ErrorReturns [] false (-1) (cstring "%+#llx|") 0
    fresh_world
  = streamStateFromFormat ErrorReturns [] false (-1) (cstring "%+#x|") 0
      fresh_world /\
  (forall ds,
      forallb is_digit ds = true ->
      Ascii.eqb (deref (cstring "x|")) "-" = false ->
      streamStateFromFormat ErrorReturns [] false (-1)
        ("%" :: cstring "+#" ++ "." :: ds ++ cstring "ll" ++ cstring "x|") 0
        fresh_world
      = streamStateFromFormat ErrorReturns [] false (-1)
          ("%" :: cstring "+#" ++ "." :: ds ++ cstring "x|") 0 fresh_world).
Proof.
  apply (length_modifiers_are_ignored ErrorReturns [] false (-1)
           (cstring "+#") (cstring "ll") (cstring "x|") 0 fresh_world);
    reflexivity.
Defined.

(** ** Specifiers that are reported *)

(** X10: a specifier that the end of the string cuts short, after its flags
    and length modifiers or after a precision in digits, is reported with
    "tinyformat: Conversion spec incorrectly terminated by end of string";
    when the report comes back, the cursor returned is at the terminator,
    not behind it, and the stream keeps what the flags and the precision
    set. *)
Theorem unterminated_specifier_is_reported policy fs sp nt fl lens ai w :
  forallb is_flag fl = true ->
  forallb is_length_modifier lens = true ->
  streamStateFromFormat policy fs sp nt ("%" :: fl ++ lens) ai w
  = (mkWorld (flags_stream sp fl (out w)) (reports w ++ [msg.unterminated]),
     match policy with
     | ErrorReturns => Normal (mkSpec (flags_space_pad sp fl) nt ai [])
     | ErrorUnwinds => Unwinding
     end) /\
  (forall ds,
      forallb is_digit ds = true ->
      streamStateFromFormat policy fs sp nt
        ("%" :: fl ++ "." :: ds ++ lens) ai w
      = (mkWorld (set_precision (decimal_value ds)
                                (flags_stream sp fl (out w)))
                 (reports w ++ [msg.unterminated]),
         match policy with
         | ErrorReturns => Normal (mkSpec (flags_space_pad sp fl) nt ai [])
         | ErrorUnwinds => Unwinding
         end)).
Proof.
  intros Hfl Hlens. split.
  - pose proof (prefix_plain policy fs sp fl lens [] ai w Hfl Hlens
                  eq_refl eq_refl) as Hpre.
    rewrite app_nil_r in Hpre.
    rewrite (spec_after_prefix _ _ _ nt _ _ _ _ _ Hpre).
    destruct policy; reflexivity.
  - intros ds Hds.
    pose proof (prefix_with_precision policy fs sp fl ds lens [] ai w Hfl Hds
                  Hlens eq_refl eq_refl eq_refl) as Hpre.
    rewrite app_nil_r in Hpre.
    rewrite (spec_after_prefix _ _ _ nt _ _ _ _ _ Hpre).
    destruct policy; reflexivity.
Qed.

Lemma unterminated_specifier_is_reported_witness :
  streamStateFromFormat ErrorReturns [] false (-1) (cstring "%-l") 0
    fresh_world
  = (mkWorld (mkStream [] 0 6 (Z.lor ios.skipws ios.left) " ")
             [msg.unterminated],
     Normal (mkSpec false (-1) 0 [])).
Proof.
  destruct (unterminated_specifier_is_reported ErrorReturns [] false (-1)
              (cstring "-") (cstring "l") 0%nat fresh_world eq_refl eq_refl)
    as [H _].
  exact H.
Defined.

(** ** The width *)

Lemma parse_flags_compose (fl : cstr) :
  forallb is_flag fl = true ->
  forall c o sp we,
    parse_flags o sp we (fl ++ c)
    = parse_flags (fst (fst (fst (parse_flags o sp we fl))))
                  (snd (fst (fst (parse_flags o sp we fl))))
                  (snd (fst (parse_flags o sp we fl))) c.
Proof.
  intros Hfl c.
  induction fl as [|ch fl IH]; intros o sp we; [reflexivity|].
  cbn [forallb] in Hfl. apply andb_true_iff in Hfl as [Hch Hfl].
  specialize (IH Hfl). rewrite <- app_comm_cons.
  destruct (is_flag_cases ch Hch) as [-> | [-> | [-> | [-> | ->]]]].
  - rewrite !parse_flags_hash. apply IH.
  - rewrite !parse_flags_zero. apply IH.
  - rewrite !parse_flags_minus. apply IH.
  - rewrite !parse_flags_space. apply IH.
  - rewrite !parse_flags_plus. apply IH.
Qed.

Lemma has_flag_app (ch : ascii) (fl fl' : list ascii) :
  has_flag ch (fl ++ fl') = has_flag ch fl || has_flag ch fl'.
Proof. unfold has_flag. apply existsb_app. Qed.

(** A minus sign behind the flags: left adjustment and a blank fill, the
    rest as the flags left it. *)
Lemma flags_then_minus (sp : bool) (fl : list ascii) (o : ostream) :
  forallb is_flag fl = true ->
  flags_stream sp (fl ++ ["-"]) o
  = setf_mask ios.left ios.adjustfield (set_fill " " (flags_stream sp fl o)) /\
  flags_space_pad sp (fl ++ ["-"]) = flags_space_pad sp fl /\
  flags_width_extra (fl ++ ["-"]) = flags_width_extra fl.
Proof.
  intros Hfl. unfold flags_stream, flags_space_pad, flags_width_extra.
  rewrite (parse_flags_compose fl Hfl), !has_flag_app.
  rewrite parse_flags_minus.
  cbn [parse_flags fst has_flag existsb]. const_chars.
  now rewrite !orb_false_r.
Qed.

Lemma digit_is_no_flag (d : ascii) :
  is_digit d = true -> Ascii.eqb d "0" = false -> is_flag d = false.
Proof.
  intros Hd H0. destruct (is_flag d) eqn:E; [|reflexivity].
  destruct (is_flag_cases d E) as [-> | [-> | [-> | [-> | ->]]]];
    discriminate.
Qed.

Lemma parse_width_digits policy fs d ds tail ai w :
  is_digit d = true ->
  forallb is_digit ds = true ->
  is_digit (deref tail) = false ->
  Ascii.eqb (deref tail) "*" = false ->
  parse_width policy fs (d :: ds ++ tail) ai w
  = (mkWorld (set_width (decimal_value (d :: ds)) (out w)) (reports w),
     Normal (true, ai, tail)).
Proof.
  intros Hd Hds Ht Hs.
  unfold parse_width. cbn [deref]. rewrite Hd.
  unfold parseIntAndAdvance.
  change (d :: ds ++ tail) with ((d :: ds) ++ tail).
  rewrite parseInt_loop_app by (cbn [forallb]; now rewrite ?Hd, ?Hds).
  unfold bind, ret, on_out. cbn [out reports]. now rewrite Hs.
Qed.

Lemma parse_width_star policy fs rest a ai w :
  nth_error fs ai = Some a ->
  parse_width policy fs ("*" :: rest) ai w
  = (mkWorld
       (if int_wrap (toInt a) <? 0
        then set_width (int_wrap (- int_wrap (toInt a)))
               (setf_mask ios.left ios.adjustfield (set_fill " " (out w)))
        else set_width (int_wrap (toInt a)) (out w))
       (reports w),
     Normal (true, S ai, rest)).
Proof.
  intros Ha. unfold parse_width, next_int. cbn [deref advance tl].
  change (is_digit "*") with false. const_chars. rewrite Ha.
  unfold bind, ret, on_out. cbn [out reports].
  destruct (int_wrap (toInt a) <? 0); reflexivity.
Qed.

(** The flag loop behind the reset, on flags followed by something else. *)
Lemma flags_from_reset (sp : bool) (fl rest : cstr) (o : ostream) :
  forallb is_flag fl = true ->
  is_flag (deref rest) = false ->
  parse_flags (reset_stream o) sp 0 (fl ++ rest)
  = (flags_stream sp fl o, flags_space_pad sp fl, flags_width_extra fl, rest).
Proof.
  intros Hfl Hrest.
  destruct (parse_flags_spec fl rest Hfl Hrest (reset_stream o) sp 0)
    as (o' & EF & _).
  rewrite showpos_after_reset in EF. cbn [negb] in EF.
  rewrite andb_true_r in EF.
  pose proof EF as EF2.
  rewrite (parse_flags_app fl rest Hfl Hrest) in EF2.
  injection EF2 as Ho _ _.
  rewrite EF. unfold flags_stream, flags_space_pad, flags_width_extra.
  now rewrite Ho.
Qed.

(** A specifier with a width and no precision, from the state behind the
    width. *)
Lemma spec_after_width policy fs sp nt c ai w w2 sp1 we1 ai2 c2 :
  parse_flags_width policy fs sp c ai w
  = (w2, Normal (sp1, we1, true, ai2, c2)) ->
  deref c2 <> "." ->
  streamStateFromFormat policy fs sp nt ("%" :: c) ai w
  = (x <- conversion policy (deref (skip_length_modifier c2)) false nt ;;
     match x with
     | ReturnAtTerminator =>
         ret (mkSpec sp1 nt ai2 (skip_length_modifier c2))
     | Break _ ntrunc =>
         ret (mkSpec sp1 ntrunc ai2 (advance (skip_length_modifier c2)))
     end) w2.
Proof.
  intros H Hdot.
  pose proof (prefix_after_flags_width _ _ _ _ _ _ _ _ _ _ _ _ H) as Hpre.
  rewrite (bind_normal _ _ _ _ _ (parse_precision_absent _ _ _ _ _ Hdot))
    in Hpre.
  unfold ret in Hpre.
  rewrite (spec_after_prefix _ _ _ nt _ _ _ _ _ Hpre).
  cbn [l_c l_precisionSet l_widthSet l_spacePadPositive l_argIndex].
  unfold bind.
  destruct (conversion policy (deref (skip_length_modifier c2)) false nt w2)
    as [w3 [[ic nt'|]|]]; [|reflexivity|reflexivity].
  rewrite andb_false_r. reflexivity.
Qed.

Lemma spec_after_width_next policy sp1 nt ai2 c2 w2 :
  ((x <- conversion policy (deref (skip_length_modifier c2)) false nt ;;
    match x with
    | ReturnAtTerminator =>
        ret (mkSpec sp1 nt (S ai2) (skip_length_modifier c2))
    | Break _ ntrunc =>
        ret (mkSpec sp1 ntrunc (S ai2) (advance (skip_length_modifier c2)))
    end) w2)
  = (fst ((x <- conversion policy (deref (skip_length_modifier c2)) false nt ;;
           match x with
           | ReturnAtTerminator =>
               ret (mkSpec sp1 nt ai2 (skip_length_modifier c2))
           | Break _ ntrunc =>
               ret (mkSpec sp1 ntrunc ai2 (advance (skip_length_modifier c2)))
           end) w2),
     one_more_argument
       (snd ((x <- conversion policy (deref (skip_length_modifier c2)) false nt ;;
              match x with
              | ReturnAtTerminator =>
                  ret (mkSpec sp1 nt ai2 (skip_length_modifier c2))
              | Break _ ntrunc =>
                  ret (mkSpec sp1 ntrunc ai2
                              (advance (skip_length_modifier c2)))
              end) w2))).
Proof.
  unfold bind.
  destruct (conversion policy (deref (skip_length_modifier c2)) false nt w2)
    as [w3 [[ic nt'|]|]]; reflexivity.
Qed.

(** X12: a width taken from the arguments acts as the same width written
    in the specifier.  With the argument at the index equal to a number
    written in digits, "%[flags]*..." leaves the stream and returns what
    "%[flags]digits..." does, with one more argument taken; with the
    argument equal to minus that number, it does what the specifier with a
    '-' flag added and the digits does: left adjustment and the absolute
    value as the width.  The specifier has no precision. *)
Theorem variable_width_matches_literal
  policy fs sp nt fl d ds rest a ai w :
  forallb is_flag fl = true ->
  is_digit d = true ->
  Ascii.eqb d "0" = false ->
  forallb is_digit ds = true ->
  ends_number (deref rest) = true ->
  nth_error fs ai = Some a ->
  (toInt a = decimal_value (d :: ds) ->
   0 <= decimal_value (d :: ds) ->
   streamStateFromFormat policy fs sp nt ("%" :: fl ++ "*" :: rest) ai w
   = (fst (streamStateFromFormat policy fs sp nt
             ("%" :: fl ++ d :: ds ++ rest) ai w),
      one_more_argument
        (snd (streamStateFromFormat policy fs sp nt
                ("%" :: fl ++ d :: ds ++ rest) ai w)))) /\
  (toInt a = - decimal_value (d :: ds) ->
   0 < decimal_value (d :: ds) ->
   streamStateFromFormat policy fs sp nt ("%" :: fl ++ "*" :: rest) ai w
   = (fst (streamStateFromFormat policy fs sp nt
             ("%" :: (fl ++ ["-"]) ++ d :: ds ++ rest) ai w),
      one_more_argument
        (snd (streamStateFromFormat policy fs sp nt
                ("%" :: (fl ++ ["-"]) ++ d :: ds ++ rest) ai w)))).
Proof.
  intros Hfl Hd H0 Hds Hend Ha.
  apply ends_number_inv in Hend as (_ & Htd & Hts & Htp).
  assert (Hdot : deref rest <> ".") by (now apply Ascii.eqb_neq).
  pose proof (digit_is_no_flag d Hd H0) as Hdf.
  pose proof (parseInt_loop_in_int (d :: ds) 0 zero_in_int) as Hin.
  fold (parseIntAndAdvance (d :: ds)) in Hin. fold (decimal_value (d :: ds)) in Hin.
  pose proof (flags_from_reset sp fl ("*" :: rest) (out w) Hfl eq_refl)
    as Hstar.
  pose proof (flags_width_run policy fs sp _ ai w _ _ _ _ _ _ _ _ Hstar
                (parse_width_star policy fs rest a ai _ Ha)) as Hfw_star.
  cbn [out reports] in Hfw_star.
  split.
  - intros Hv Hpos.
    pose proof (flags_from_reset sp fl (d :: ds ++ rest) (out w) Hfl Hdf)
      as Hlit.
    pose proof (flags_width_run policy fs sp _ ai w _ _ _ _ _ _ _ _ Hlit
                  (parse_width_digits policy fs d ds rest ai _ Hd Hds Htd Hts))
      as Hfw_lit.
    cbn [out reports] in Hfw_lit.
    rewrite (int_wrap_small (toInt a)) in Hfw_star by (now rewrite Hv).
    rewrite Hv in Hfw_star.
    replace (decimal_value (d :: ds) <? 0) with false in Hfw_star
      by (symmetry; apply Z.ltb_ge; lia).
    rewrite (spec_after_width _ _ _ nt _ _ _ _ _ _ _ _ Hfw_star Hdot).
    rewrite (spec_after_width _ _ _ nt _ _ _ _ _ _ _ _ Hfw_lit Hdot).
    apply spec_after_width_next.
  - intros Hv Hpos.
    destruct (flags_then_minus sp fl (out w) Hfl) as (Hst & Hsp & Hwe).
    assert (Hfl' : forallb is_flag (fl ++ ["-"]) = true)
      by (rewrite forallb_app, Hfl; reflexivity).
    pose proof (flags_from_reset sp (fl ++ ["-"]) (d :: ds ++ rest) (out w)
                  Hfl' Hdf) as Hlit.
    pose proof (flags_width_run policy fs sp _ ai w _ _ _ _ _ _ _ _ Hlit
                  (parse_width_digits policy fs d ds rest ai _ Hd Hds Htd Hts))
      as Hfw_lit.
    cbn [out reports] in Hfw_lit.
    rewrite Hst, Hsp, Hwe in Hfw_lit.
    assert (Hina : in_int (toInt a)) by (unfold in_int in *; lia).
    rewrite (int_wrap_small (toInt a) Hina) in Hfw_star.
    replace (toInt a <? 0) with true in Hfw_star
      by (symmetry; apply Z.ltb_lt; lia).
    replace (- toInt a) with (decimal_value (d :: ds)) in Hfw_star by lia.
    rewrite (int_wrap_small _ Hin) in Hfw_star.
    rewrite (spec_after_width _ _ _ nt _ _ _ _ _ _ _ _ Hfw_star Hdot).
    rewrite (spec_after_width _ _ _ nt _ _ _ _ _ _ _ _ Hfw_lit Hdot).
    apply spec_after_width_next.
Qed.

Lemma variable_width_matches_literal_witness :
  streamStateFromFormat ErrorReturns [sample_arg 12 "x"] false (-1)
    (cstring "%+*d|") 0 fresh_world
  = (fst (streamStateFromFormat ErrorReturns [sample_arg 12 "x"] false (-1)
            (cstring "%+12d|") 0 fresh_world),
     one_more_argument
       (snd (streamStateFromFormat ErrorReturns [sample_arg 12 "x"] false (-1)
               (cstring "%+12d|") 0 fresh_world))) /\
  streamStateFromFormat ErrorReturns [sample_arg (-12) "x"] false (-1)
    (cstring "%+*d|") 0 fresh_world
  = (fst (streamStateFromFormat ErrorReturns [sample_arg (-12) "x"] false (-1)
            (cstring "%+-12d|") 0 fresh_world),
     one_more_argument
       (snd (streamStateFromFormat ErrorReturns [sample_arg (-12) "x"] false
               (-1) (cstring "%+-12d|") 0 fresh_world))).
Proof.
  split.
  - destruct (variable_width_matches_literal ErrorReturns
                [sample_arg 12 "x"] false (-1) (cstring "+") "1" (cstring "2")
                (cstring "d|") (sample_arg 12 "x") 0%nat fresh_world
                eq_refl eq_refl eq_refl eq_refl eq_refl eq_refl) as [H _].
    apply H; [reflexivity | vm_compute; discriminate].
  - destruct (variable_width_matches_literal ErrorReturns
                [sample_arg (-12) "x"] false (-1) (cstring "+") "1"
                (cstring "2") (cstring "d|") (sample_arg (-12) "x") 0%nat
                fresh_world eq_refl eq_refl eq_refl eq_refl eq_refl eq_refl)
      as [_ H].
    apply H; [reflexivity | vm_compute; reflexivity].
Defined.

(** ** Fields of the format flags *)

Lemma land_zero_bits (m a : Z) :
  Z.land m a = 0 -> forall n, Z.testbit m n && Z.testbit a n = false.
Proof.
  intros H n. now rewrite <- Z.land_spec, H, Z.bits_0.
Qed.

(** [setf(v, mask)] and [setf(v)] leave a field alone that they have no bit
    in common with. *)
Lemma field_kept_by_setf_mask (v mask a : Z) (o : ostream) :
  Z.land mask a = 0 ->
  Z.land (flags (setf_mask v mask o)) a = Z.land (flags o) a.
Proof.
  intros H. unfold setf_mask; cbn [flags set_flags].
  apply Z.bits_inj'. intros n _.
  rewrite !Z.land_spec, Z.lor_spec, Z.ldiff_spec, Z.land_spec.
  pose proof (land_zero_bits _ _ H n) as Hn.
  destruct (Z.testbit (flags o) n), (Z.testbit v n), (Z.testbit mask n),
    (Z.testbit a n); try reflexivity; discriminate Hn.
Qed.

Lemma field_kept_by_setf (v a : Z) (o : ostream) :
  Z.land v a = 0 ->
  Z.land (flags (setf v o)) a = Z.land (flags o) a.
Proof.
  intros H. unfold setf; cbn [flags set_flags].
  apply Z.bits_inj'. intros n _.
  rewrite !Z.land_spec, Z.lor_spec.
  pose proof (land_zero_bits _ _ H n) as Hn.
  destruct (Z.testbit (flags o) n), (Z.testbit v n), (Z.testbit a n);
    try reflexivity; discriminate Hn.
Qed.

Lemma field_after_setf (v : Z) (o : ostream) :
  Z.land (flags (setf v o)) v = v.
Proof.
  unfold setf; cbn [flags set_flags].
  apply Z.bits_inj'. intros n _.
  rewrite Z.land_spec, Z.lor_spec.
  destruct (Z.testbit (flags o) n), (Z.testbit v n); reflexivity.
Qed.

Lemma field_kept_by_ldiff (f m a : Z) :
  Z.land m a = 0 -> Z.land (Z.ldiff f m) a = Z.land f a.
Proof.
  intros H. apply Z.bits_inj'. intros n _.
  rewrite !Z.land_spec, Z.ldiff_spec.
  pose proof (land_zero_bits _ _ H n) as Hn.
  destruct (Z.testbit f n), (Z.testbit m n), (Z.testbit a n);
    try reflexivity; discriminate Hn.
Qed.

Lemma field_cleared_by_ldiff (f m a : Z) :
  Z.ldiff a m = 0 -> Z.land (Z.ldiff f m) a = 0.
Proof.
  intros H. apply Z.bits_inj'. intros n _.
  rewrite Z.land_spec, Z.ldiff_spec, Z.bits_0.
  assert (Hn : Z.testbit a n && negb (Z.testbit m n) = false)
    by (now rewrite <- Z.ldiff_spec, H, Z.bits_0).
  destruct (Z.testbit f n), (Z.testbit m n), (Z.testbit a n);
    try reflexivity; discriminate Hn.
Qed.

(** The reset clears every field inside its mask. *)
Lemma field_after_reset (a : Z) (o : ostream) :
  Z.ldiff a reset_mask = 0 -> Z.land (flags (reset_stream o)) a = 0.
Proof.
  intros H. unfold reset_stream, unsetf. cbn [flags set_flags set_fill
    set_precision set_width].
  fold reset_mask. now apply field_cleared_by_ldiff.
Qed.

(** Testing [left] reads the adjustment field. *)
Lemma test_left_in_field (o : ostream) :
  test_flag ios.left o
  = negb (Z.land (Z.land (flags o) ios.adjustfield) ios.left =? 0).
Proof.
  unfold test_flag. rewrite <- Z.land_assoc.
  change (Z.land ios.adjustfield ios.left) with ios.left. reflexivity.
Qed.

(** The flag loop leaves alone the fields it has no flag in. *)
Lemma parse_flags_keeps_field (a : Z) :
  Z.land (Z.lor ios.showpoint ios.showbase) a = 0 ->
  Z.land ios.adjustfield a = 0 ->
  Z.land ios.showpos a = 0 ->
  forall c o sp we,
    Z.land (flags (fst (fst (fst (parse_flags o sp we c))))) a
    = Z.land (flags o) a.
Proof.
  intros H1 H2 H3 c.
  induction c as [|ch c IH]; intros o sp we; [reflexivity|].
  cbn [parse_flags].
  destruct (Ascii.eqb ch "#");
    [rewrite IH; now apply field_kept_by_setf|].
  destruct (Ascii.eqb ch "0").
  { rewrite IH. destruct (test_flag ios.left o); [reflexivity|].
    now rewrite field_kept_by_setf_mask. }
  destruct (Ascii.eqb ch "-");
    [rewrite IH; now rewrite field_kept_by_setf_mask|].
  destruct (Ascii.eqb ch " "); [now rewrite IH|].
  destruct (Ascii.eqb ch "+");
    [rewrite IH; now apply field_kept_by_setf|].
  reflexivity.
Qed.

(** What the flags do to the adjustment, the fill character, the base and
    point flags and the sign flag, from any stream. *)
Lemma parse_flags_fields (fl : list ascii) :
  forallb is_flag fl = true ->
  forall o sp we,
    let o' := fst (fst (fst (parse_flags o sp we fl))) in
    let zero := has_flag "0" fl && negb (test_flag ios.left o) in
    Z.land (flags o') ios.adjustfield
    = (if has_flag "-" fl then ios.left
       else if zero then ios.internal
       else Z.land (flags o) ios.adjustfield) /\
    fill o'
    = (if has_flag "-" fl then " " else if zero then "0" else fill o) /\
    Z.land (flags o') (Z.lor ios.showpoint ios.showbase)
    = (if has_flag "#" fl then Z.lor ios.showpoint ios.showbase
       else Z.land (flags o) (Z.lor ios.showpoint ios.showbase)) /\
    Z.land (flags o') ios.showpos
    = (if has_flag "+" fl then ios.showpos
       else Z.land (flags o) ios.showpos).
Proof.
  intros Hfl.
  induction fl as [|ch fl IH]; intros o sp we.
  - cbn. auto.
  - cbn [forallb] in Hfl. apply andb_true_iff in Hfl as [Hch Hfl].
    specialize (IH Hfl). cbv zeta. rewrite !has_flag_cons.
    destruct (is_flag_cases ch Hch) as [-> | [-> | [-> | [-> | ->]]]];
      const_chars.
    + rewrite parse_flags_hash.
      destruct (IH (setf (Z.lor ios.showpoint ios.showbase) o) sp we)
        as (Ha & Hf & Hs & Hp).
      rewrite Ha, Hf, Hs, Hp.
      rewrite !test_left_in_field.
      rewrite (field_kept_by_setf _ ios.adjustfield) by reflexivity.
      rewrite (field_kept_by_setf _ ios.showpos) by reflexivity.
      rewrite field_after_setf.
      destruct (has_flag "#" fl); auto.
    + rewrite parse_flags_zero.
      destruct (test_flag ios.left o) eqn:EL.
      * destruct (IH o sp we) as (Ha & Hf & Hs & Hp).
        rewrite Ha, Hf, Hs, Hp, EL. cbn [negb]. rewrite !andb_false_r. auto.
      * destruct (IH (setf_mask ios.internal ios.adjustfield (set_fill "0" o))
                     sp we) as (Ha & Hf & Hs & Hp).
        rewrite Ha, Hf, Hs, Hp.
        rewrite test_left_in_field, field_after_setf_mask.
        change (negb (Z.land (Z.land ios.internal ios.adjustfield) ios.left =? 0))
          with false.
        cbn [negb]. rewrite !andb_true_r.
        rewrite (field_kept_by_setf_mask _ _ (Z.lor ios.showpoint ios.showbase))
          by reflexivity.
        rewrite (field_kept_by_setf_mask _ _ ios.showpos) by reflexivity.
        cbn [flags fill set_fill setf_mask set_flags].
        destruct (has_flag "-" fl), (has_flag "0" fl); auto.
    + rewrite parse_flags_minus.
      destruct (IH (setf_mask ios.left ios.adjustfield (set_fill " " o)) sp we)
        as (Ha & Hf & Hs & Hp).
      rewrite Ha, Hf, Hs, Hp.
      rewrite test_left_in_field, field_after_setf_mask.
      change (negb (Z.land (Z.land ios.left ios.adjustfield) ios.left =? 0))
        with true.
      cbn [negb]. rewrite !andb_false_r.
      rewrite (field_kept_by_setf_mask _ _ (Z.lor ios.showpoint ios.showbase))
        by reflexivity.
      rewrite (field_kept_by_setf_mask _ _ ios.showpos) by reflexivity.
      cbn [flags fill set_fill setf_mask set_flags].
      destruct (has_flag "-" fl); auto.
    + rewrite parse_flags_space.
      destruct (IH o (if test_flag ios.showpos o then sp else true) we)
        as (Ha & Hf & Hs & Hp).
      rewrite Ha, Hf, Hs, Hp. auto.
    + rewrite parse_flags_plus.
      destruct (IH (setf ios.showpos o) false 1) as (Ha & Hf & Hs & Hp).
      rewrite Ha, Hf, Hs, Hp.
      rewrite !test_left_in_field.
      rewrite (field_kept_by_setf _ ios.adjustfield) by reflexivity.
      rewrite (field_kept_by_setf _ (Z.lor ios.showpoint ios.showbase))
        by reflexivity.
      rewrite field_after_setf.
      destruct (has_flag "+" fl); auto.
Qed.

(** The [switch] leaves alone the fields it has no flag in, and the fill
    character. *)
Lemma conversion_keeps_field policy ch ps nt (a : Z) :
  Z.land ios.basefield a = 0 ->
  Z.land ios.floatfield a = 0 ->
  Z.land ios.uppercase a = 0 ->
  Z.land ios.boolalpha a = 0 ->
  preserves (fun o => Z.land (flags o) a) (conversion policy ch ps nt).
Proof.
  intros Hb Hf Hu Ha. unfold conversion.
  repeat match goal with
  | |- preserves _ (bind _ _) => apply preserves_bind; [|intros]
  | |- preserves _ (ret _) => apply preserves_ret
  | |- preserves _ get_out => apply preserves_get_out
  | |- preserves _ (TINYFORMAT_ERROR _ _) => apply preserves_error
  | |- preserves _ (on_out (setf_mask _ _)) =>
      apply preserves_on_out; intros; now apply field_kept_by_setf_mask
  | |- preserves _ (on_out (setf _)) =>
      apply preserves_on_out; intros; now apply field_kept_by_setf
  | |- preserves _ (on_out _) =>
      apply preserves_on_out; intros; cbn [flags set_flags];
      now apply field_kept_by_ldiff
  | |- preserves _ (if ?b then _ else _) => destruct b
  end.
Qed.

Lemma conversion_keeps_fill policy ch ps nt :
  preserves fill (conversion policy ch ps nt).
Proof. unfold conversion. repeat preserves_step. Qed.

(** Behind a prefix without a precision, the function is left with every
    attribute of the stream that the [switch] leaves alone. *)
Lemma spec_without_precision_keeps {X} (attr : ostream -> X)
  policy fs sp nt c ai w w1 l :
  (forall ch, preserves attr (conversion policy ch false nt)) ->
  parse_spec_prefix policy fs sp c ai w = (w1, Normal l) ->
  l_precisionSet l = false ->
  attr (out (fst (streamStateFromFormat policy fs sp nt ("%" :: c) ai w)))
  = attr (out w1).
Proof.
  intros Hconv Hpre Hps.
  rewrite (spec_after_prefix _ _ _ nt _ _ _ _ _ Hpre). rewrite Hps.
  match goal with
  | |- attr (out (fst (?m w1))) = _ => assert (Hp : preserves attr m)
  end.
  { apply preserves_bind; [apply Hconv|].
    intros [ic nt'|]; [|apply preserves_ret].
    rewrite andb_false_r. cbn [andb].
    apply preserves_bind; [apply preserves_ret|]. intros _.
    apply preserves_ret. }
  match goal with
  | |- attr (out (fst (?m w1))) = _ => destruct (m w1) as [w' r] eqn:E
  end.
  apply (Hp _ _ _ E).
Qed.

(** X13: the flags choose the adjustment and the fill character, whatever
    their order: with a '-' the adjustment is left and the fill character a
    blank, also when a '0' is among the flags; with a '0' and no '-' the
    adjustment is internal and the fill character '0'; with neither, no
    adjustment flag is set and the fill character is a blank.  '#' sets the
    show-base and show-point flags, '+' the show-sign flag, and without them
    these are clear.  This is what the stream holds when
    [streamStateFromFormat] is left, for a specifier with neither width nor
    precision, whatever its conversion character. *)
Theorem flags_choose_adjustment policy fs sp nt fl lens tail ai w :
  forallb is_flag fl = true ->
  forallb is_length_modifier lens = true ->
  ends_number (deref tail) = true ->
  is_length_modifier (deref tail) = false ->
  let o' :=
    out (fst (streamStateFromFormat policy fs sp nt
                ("%" :: fl ++ lens ++ tail) ai w)) in
  Z.land (flags o') ios.adjustfield
  = (if has_flag "-" fl then ios.left
     else if has_flag "0" fl then ios.internal else 0) /\
  fill o'
  = (if has_flag "-" fl then " " else if has_flag "0" fl then "0" else " ") /\
  Z.land (flags o') (Z.lor ios.showpoint ios.showbase)
  = (if has_flag "#" fl then Z.lor ios.showpoint ios.showbase else 0) /\
  Z.land (flags o') ios.showpos
  = (if has_flag "+" fl then ios.showpos else 0).
Proof.
  intros Hfl Hlens Hend Hnolen o'. subst o'.
  pose proof (prefix_plain policy fs sp fl lens tail ai w Hfl Hlens Hend
                Hnolen) as Hpre.
  destruct (parse_flags_fields fl Hfl (reset_stream (out w)) sp 0)
    as (Ha & Hf & Hs & Hp).
  fold (flags_stream sp fl (out w)) in Ha, Hf, Hs, Hp.
  rewrite test_left_in_field in Ha, Hf.
  rewrite !field_after_reset in Ha, Hf, Hs, Hp by reflexivity.
  change (negb (Z.land 0 ios.left =? 0)) with false in Ha, Hf.
  cbn [negb] in Ha, Hf. rewrite andb_true_r in Ha, Hf.
  change (fill (reset_stream (out w))) with " " in Hf.
  repeat split.
  - rewrite (spec_without_precision_keeps
               (fun o => Z.land (flags o) ios.adjustfield)
               _ _ _ nt _ _ _ _ _
               (fun ch => conversion_keeps_field policy ch false nt
                            ios.adjustfield eq_refl eq_refl eq_refl eq_refl)
               Hpre eq_refl).
    exact Ha.
  - rewrite (spec_without_precision_keeps fill _ _ _ nt _ _ _ _ _
               (fun ch => conversion_keeps_fill policy ch false nt)
               Hpre eq_refl).
    exact Hf.
  - rewrite (spec_without_precision_keeps
               (fun o => Z.land (flags o) (Z.lor ios.showpoint ios.showbase))
               _ _ _ nt _ _ _ _ _
               (fun ch => conversion_keeps_field policy ch false nt
                            (Z.lor ios.showpoint ios.showbase) eq_refl eq_refl eq_refl eq_refl)
               Hpre eq_refl).
    exact Hs.
  - rewrite (spec_without_precision_keeps
               (fun o => Z.land (flags o) ios.showpos)
               _ _ _ nt _ _ _ _ _
               (fun ch => conversion_keeps_field policy ch false nt
                            ios.showpos eq_refl eq_refl eq_refl eq_refl)
               Hpre eq_refl).
    exact Hp.
Qed.

Lemma flags_choose_adjustment_witness :
  let o' :=
    out (fst (streamStateFromFormat ErrorReturns [] false (-1)
                (cstring "%0#-lx|") 0 fresh_world)) in
  Z.land (flags o') ios.adjustfield = ios.left /\
  fill o' = " " /\
  Z.land (flags o') (Z.lor ios.showpoint ios.showbase)
  = Z.lor ios.showpoint ios.showbase /\
  Z.land (flags o') ios.showpos = 0.
Proof.
  apply (flags_choose_adjustment ErrorReturns [] false (-1) (cstring "0#-")
           (cstring "l") (cstring "x|") 0 fresh_world); reflexivity.
Defined.

(** ** Space padding *)

Lemma insert_string_appends (s : list ascii) (o : ostream) :
  exists pad,
    written (insert_string s o)
    = written o
      ++ (if Z.land (flags o) ios.adjustfield =? ios.left
          then s ++ pad else pad ++ s) /\
    (forall ch, In ch pad -> ch = fill o).
Proof.
  unfold insert_string.
  exists (repeat (fill o) (Z.to_nat (width o - Z.of_nat (List.length s)))).
  split; [reflexivity|].
  intros ch H. now apply repeat_spec in H.
Qed.

(** X15: the text that the space-padding path of [formatImpl] puts on the
    destination holds no '+', provided the fill character is not '+'; the
    text is appended to what was written, the width is back at 0 and the
    rest of the configuration is untouched. *)
Theorem space_padding_shows_no_plus arg fmt fmtEnd nt o :
  fill o <> "+" ->
  exists s,
    written (format_space_padded arg fmt fmtEnd nt o) = written o ++ s /\
    ~ In "+" s /\
    config (format_space_padded arg fmt fmtEnd nt o)
    = (0, precision o, flags o, fill o).
Proof.
  intros Hfill. unfold format_space_padded.
  match goal with
  | |- context [insert_string ?t o] =>
      destruct (insert_string_appends t o) as (pad & Hw & Hpad);
      assert (Ht : ~ In "+" t)
  end.
  { intros H. apply in_map_iff in H as (ch & Hch & _).
    destruct (Ascii.eqb ch "+") eqn:E; [discriminate Hch|].
    apply Ascii.eqb_neq in E. congruence. }
  assert (Hp : ~ In "+" pad).
  { intros H. apply Hpad in H. congruence. }
  eexists. split; [exact Hw|]. split; [|reflexivity].
  destruct (Z.land (flags o) ios.adjustfield =? ios.left);
    intros H; apply in_app_or in H; tauto.
Qed.

Lemma space_padding_shows_no_plus_witness :
  exists s,
    written (format_space_padded (sample_arg 42 "+42") [] [] (-1)
               (set_width 5 fresh_stream))
    = written (set_width 5 fresh_stream) ++ s /\
    ~ In "+" s /\
    config (format_space_padded (sample_arg 42 "+42") [] [] (-1)
              (set_width 5 fresh_stream))
    = (0, precision (set_width 5 fresh_stream),
       flags (set_width 5 fresh_stream), fill (set_width 5 fresh_stream)).
Proof.
  apply (space_padding_shows_no_plus (sample_arg 42 "+42") [] [] (-1)
           (set_width 5 fresh_stream)).
  discriminate.
Defined.

(** ** The fill character behind a specifier *)

Section KeepsInvariant.
Context (P : ostream -> Prop).

Lemma keeps_ret {A} (a : A) : keeps_invariant P (ret a).
Proof. intros w w' r H HP. inversion H; subst. exact HP. Qed.

Lemma keeps_bind {A B} (m : M A) (k : A -> M B) :
  keeps_invariant P m -> (forall a, keeps_invariant P (k a)) ->
  keeps_invariant P (bind m k).
Proof.
  intros Hm Hk w w' r. unfold bind.
  destruct (m w) as [w1 [a|]] eqn:E; intros H HP.
  - exact (Hk a _ _ _ H (Hm _ _ _ E HP)).
  - inversion H; subst. exact (Hm _ _ _ E HP).
Qed.

Lemma keeps_on_out (f : ostream -> ostream) :
  (forall o, P o -> P (f o)) -> keeps_invariant P (on_out f).
Proof. intros Hf w w' r H HP. inversion H; subst. apply Hf, HP. Qed.

Lemma keeps_get_out : keeps_invariant P get_out.
Proof. intros w w' r H HP. inversion H; subst. exact HP. Qed.

Lemma keeps_error policy reason :
  keeps_invariant P (TINYFORMAT_ERROR policy reason).
Proof. intros w w' r H HP. inversion H; subst. exact HP. Qed.
End KeepsInvariant.

Lemma parse_flags_blank_or_zero (c : cstr) :
  forall o sp we,
    blank_or_zero o ->
    blank_or_zero (fst (fst (fst (parse_flags o sp we c)))).
Proof.
  induction c as [|ch c IH]; intros o sp we Ho; [exact Ho|].
  cbn [parse_flags].
  destruct (Ascii.eqb ch "#"); [apply IH, Ho|].
  destruct (Ascii.eqb ch "0").
  { apply IH. destruct (test_flag ios.left o); [exact Ho | now right]. }
  destruct (Ascii.eqb ch "-"); [apply IH; now left|].
  destruct (Ascii.eqb ch " "); [apply IH, Ho|].
  destruct (Ascii.eqb ch "+"); [apply IH, Ho|].
  exact Ho.
Qed.

Ltac keeps_step :=
  match goal with
  | |- keeps_invariant _ (bind _ _) => apply keeps_bind; [|intros]
  | |- keeps_invariant _ (ret _) => apply keeps_ret
  | |- keeps_invariant _ get_out => apply keeps_get_out
  | |- keeps_invariant _ (TINYFORMAT_ERROR _ _) => apply keeps_error
  | |- keeps_invariant blank_or_zero (on_out _) =>
      apply keeps_on_out; intros ? ?;
      first [assumption | now left | now right]
  | |- keeps_invariant _ (if ?b then _ else _) => destruct b
  | |- keeps_invariant _ (match ?x with _ => _ end) => destruct x
  end.

Lemma parse_width_blank_or_zero policy fs c ai :
  keeps_invariant blank_or_zero (parse_width policy fs c ai).
Proof. unfold parse_width, next_int. repeat keeps_step. Qed.

Lemma parse_precision_blank_or_zero policy fs c ai :
  keeps_invariant blank_or_zero (parse_precision policy fs c ai).
Proof. unfold parse_precision, next_int. repeat keeps_step. Qed.

Lemma conversion_blank_or_zero policy ch ps nt :
  keeps_invariant blank_or_zero (conversion policy ch ps nt).
Proof. unfold conversion. repeat keeps_step. Qed.

Lemma flags_width_blank_or_zero policy fs sp c ai w w2 r :
  parse_flags_width policy fs sp c ai w = (w2, r) ->
  blank_or_zero (out w2).
Proof.
  unfold parse_flags_width.
  rewrite (bind_normal _ _ w (mkWorld (reset_stream (out w)) (reports w)) tt)
    by reflexivity.
  rewrite (bind_normal _ _ _ (mkWorld (reset_stream (out w)) (reports w))
             (reset_stream (out w))) by reflexivity.
  pose proof (parse_flags_blank_or_zero c (reset_stream (out w)) sp 0
                (or_introl eq_refl)) as Hf.
  destruct (parse_flags (reset_stream (out w)) sp 0 c)
    as [[[o1 sp0] we0] c1] eqn:EF.
  cbn [fst] in Hf.
  rewrite (bind_normal _ _ _ (mkWorld o1 (reports w)) tt) by reflexivity.
  intros H.
  assert (Hk : keeps_invariant blank_or_zero
                 ('(widthSet, argIndex, c2) <- parse_width policy fs c1 ai ;;
                  ret (sp0, we0, widthSet, argIndex, c2))).
  { apply keeps_bind; [apply parse_width_blank_or_zero|].
    intros [[ws a2] c2]. apply keeps_ret. }
  exact (Hk _ _ _ H Hf).
Qed.

Lemma prefix_blank_or_zero policy fs sp c ai w w1 r :
  parse_spec_prefix policy fs sp c ai w = (w1, r) ->
  blank_or_zero (out w1).
Proof.
  unfold parse_spec_prefix. unfold bind at 1.
  destruct (parse_flags_width policy fs sp c ai w)
    as [w2 [[[[[sp1 we1] ws] ai2] c2]|]] eqn:EFW;
    pose proof (flags_width_blank_or_zero _ _ _ _ _ _ _ _ EFW) as H2.
  - intros H.
    assert (Hk : keeps_invariant blank_or_zero
                   ('(precisionSet, argIndex, c3) <-
                      parse_precision policy fs c2 ai2 ;;
                    ret (mkLocals sp1 we1 ws precisionSet argIndex
                                  (skip_length_modifier c3)))).
    { apply keeps_bind; [apply parse_precision_blank_or_zero|].
      intros [[ps ai3] c3]. apply keeps_ret. }
    exact (Hk _ _ _ H H2).
  - intros H. inversion H; subst. exact H2.
Qed.

(** X16: however a specifier is written and however
    [streamStateFromFormat] is left, the fill character it leaves in the
    stream is a blank or a '0', whatever it was before. *)
Theorem specifier_fill_is_blank_or_zero policy fs sp nt c ai w :
  blank_or_zero
    (out (fst (streamStateFromFormat policy fs sp nt ("%" :: c) ai w))).
Proof.
  destruct (parse_spec_prefix policy fs sp c ai w) as [w1 [l|]] eqn:Hpre.
  - pose proof (prefix_blank_or_zero _ _ _ _ _ _ _ _ Hpre) as H1.
    rewrite (spec_after_prefix _ _ _ nt _ _ _ _ _ Hpre).
    match goal with
    | |- blank_or_zero (out (fst (?m w1))) =>
        assert (Hk : keeps_invariant blank_or_zero m);
        [|destruct (m w1) as [w' r] eqn:E; exact (Hk _ _ _ E H1)]
    end.
    apply keeps_bind; [apply conversion_blank_or_zero|].
    intros [ic nt'|]; [|apply keeps_ret].
    apply keeps_bind; [|intros; apply keeps_ret].
    destruct (ic && l_precisionSet l && negb (l_widthSet l));
      [|apply keeps_ret].
    apply keeps_on_out. intros o _. now right.
  - rewrite (spec_prefix_unwinds _ _ _ nt _ _ _ _ Hpre).
    apply (prefix_blank_or_zero _ _ _ _ _ _ _ _ Hpre).
Qed.

(** ** The driver when a report leaves the function *)

Lemma once_ret {A} (a : A) : reports_at_most_once (ret a).
Proof. intros w w' r H. inversion H; subst. reflexivity. Qed.

Lemma once_get_out : reports_at_most_once get_out.
Proof. intros w w' r H. inversion H; subst. reflexivity. Qed.

Lemma once_set_out (o : ostream) : reports_at_most_once (set_out o).
Proof. intros w w' r H. inversion H; subst. reflexivity. Qed.

Lemma once_on_out (f : ostream -> ostream) : reports_at_most_once (on_out f).
Proof. intros w w' r H. inversion H; subst. reflexivity. Qed.

Lemma once_error (reason : string) :
  reports_at_most_once (TINYFORMAT_ERROR ErrorUnwinds reason).
Proof. intros w w' r H. inversion H; subst. exists reason. reflexivity. Qed.

Lemma once_bind {A B} (m : M A) (k : A -> M B) :
  reports_at_most_once m -> (forall a, reports_at_most_once (k a)) ->
  reports_at_most_once (bind m k).
Proof.
  intros Hm Hk w w' r. unfold bind.
  destruct (m w) as [w1 [a|]] eqn:E; intros H.
  - pose proof (Hm _ _ _ E) as H1. cbv beta iota in H1.
    pose proof (Hk a _ _ _ H) as H2.
    destruct r; now rewrite <- H1.
  - inversion H; subst. exact (Hm _ _ _ E).
Qed.

Ltac once_step :=
  match goal with
  | |- reports_at_most_once (bind _ _) => apply once_bind; [|intros]
  | |- reports_at_most_once (ret _) => apply once_ret
  | |- reports_at_most_once get_out => apply once_get_out
  | |- reports_at_most_once (set_out _) => apply once_set_out
  | |- reports_at_most_once (on_out _) => apply once_on_out
  | |- reports_at_most_once (TINYFORMAT_ERROR ErrorUnwinds _) =>
      apply once_error
  | |- reports_at_most_once (if ?b then _ else _) => destruct b
  | |- reports_at_most_once (match ?x with _ => _ end) => destruct x
  end.

Lemma once_parse_width fs c ai :
  reports_at_most_once (parse_width ErrorUnwinds fs c ai).
Proof. unfold parse_width, next_int. repeat once_step. Qed.

Lemma once_parse_precision fs c ai :
  reports_at_most_once (parse_precision ErrorUnwinds fs c ai).
Proof. unfold parse_precision, next_int. repeat once_step. Qed.

Lemma once_conversion ch ps nt :
  reports_at_most_once (conversion ErrorUnwinds ch ps nt).
Proof. unfold conversion. repeat once_step. Qed.

Lemma once_streamStateFromFormat fs sp nt c ai :
  reports_at_most_once (streamStateFromFormat ErrorUnwinds fs sp nt c ai).
Proof.
  unfold streamStateFromFormat, parse_spec_prefix, parse_flags_width.
  repeat (once_step || apply once_parse_width || apply once_parse_precision
          || apply once_conversion).
Qed.

(** The loop of the driver: a turn that returns has reported nothing and
    goes on, so the loop is left at its condition. *)
Lemma once_formatImpl_loop fs fuel :
  forall fmt ai,
    (numFormatters fs <= fuel + ai)%nat ->
    forall w w' r,
      formatImpl_loop ErrorUnwinds fs fuel fmt ai w = (w', r) ->
      match r with
      | Normal x => reports w' = reports w /\ exists fmt', x = LoopDone fmt'
      | Unwinding => exists reason, reports w' = reports w ++ [reason]
      end.
Proof.
  induction fuel as [|fuel IH]; intros fmt ai Hfuel w w' r; cbn [formatImpl_loop].
  - destruct (Nat.ltb_spec ai (numFormatters fs)); [lia|].
    intros H'; inversion H'; subst. split; [reflexivity | eauto].
  - destruct (Nat.ltb_spec ai (numFormatters fs)).
    2:{ intros H'; inversion H'; subst. split; [reflexivity | eauto]. }
    rewrite (bind_normal _ _ w w (out w)) by reflexivity.
    destruct (printFormatStringLiteral (out w) fmt) as [o1 fmt1].
    rewrite (bind_normal _ _ w (mkWorld o1 (reports w)) tt) by reflexivity.
    destruct (streamStateFromFormat ErrorUnwinds fs false (-1) fmt1 ai
                (mkWorld o1 (reports w))) as [w2 [r2|]] eqn:ES;
      pose proof (once_streamStateFromFormat _ _ _ _ _ _ _ _ ES) as Hrep;
      cbv beta iota in Hrep; cbn [reports] in Hrep.
    2:{ rewrite (bind_unwinding _ _ _ _ ES).
        intros H'; inversion H'; subst. exact Hrep. }
    rewrite (bind_normal _ _ _ _ _ ES).
    apply spec_argIndex in ES.
    destruct (nth_error fs (res_argIndex r2)) as [arg|].
    + match goal with
      | |- bind (on_out ?f) _ _ = _ -> _ =>
          rewrite (bind_normal _ _ w2 (mkWorld (f (out w2)) (reports w2)) tt)
            by reflexivity
      end.
      intros H'. apply IH in H'; [|lia].
      cbn [reports] in H'. rewrite Hrep in H'. exact H'.
    + unfold bind, ret, TINYFORMAT_ERROR.
      intros H'; inversion H'; subst. cbn [reports].
      exists msg.no_format_arg. now rewrite Hrep.
Qed.

(** X17: when a report leaves the function (a macro that throws), formatting
    halts at the first report: either [formatImpl] returns, and then it has
    reported nothing and the configuration of the stream is the one it had
    before the call, or it is left at a report, and then exactly one reason
    has been added to the reports. *)
Theorem formatting_halts_at_first_report fs fmt w w' r :
  formatImpl ErrorUnwinds fs fmt w = (w', r) ->
  match r with
  | Normal _ => reports w' = reports w /\ config (out w') = config (out w)
  | Unwinding => exists reason, reports w' = reports w ++ [reason]
  end.
Proof.
  unfold formatImpl.
  rewrite (bind_normal _ _ w w (out w)) by reflexivity.
  destruct (formatImpl_loop ErrorUnwinds fs (numFormatters fs) fmt 0 w)
    as [w1 [x|]] eqn:EL;
    pose proof (once_formatImpl_loop fs (numFormatters fs) fmt 0 ltac:(lia)
                  _ _ _ EL) as HL; cbv beta iota in HL.
  - destruct HL as [Hrep [fmt' ->]].
    rewrite (bind_normal _ _ _ _ _ EL).
    rewrite (bind_normal _ _ w1 w1 (out w1)) by reflexivity.
    destruct (printFormatStringLiteral (out w1) fmt') as [o2 fmt2].
    rewrite (bind_normal _ _ w1 (mkWorld o2 (reports w1)) tt) by reflexivity.
    destruct (negb (Ascii.eqb (deref fmt2) NUL)).
    + unfold bind, TINYFORMAT_ERROR. cbn [out reports].
      intros H; inversion H; subst. cbn [reports].
      exists msg.too_many_specs. now rewrite Hrep.
    + unfold bind, ret, on_out. cbn [out reports].
      intros H; inversion H; subst. cbn [reports out].
      split; [exact Hrep | reflexivity].
  - rewrite (bind_unwinding _ _ _ _ EL).
    intros H; inversion H; subst. exact HL.
Qed.

Lemma formatting_halts_at_first_report_witness :
  (exists reason,
      reports (mkWorld (set_width 5 (decimal_stream fresh_stream))
                 [msg.no_format_arg])
      = reports fresh_world ++ [reason]) /\
  (reports (mkWorld (put (cstring "[7]") fresh_stream) [])
   = reports fresh_world /\
   config (out (mkWorld (put (cstring "[7]") fresh_stream) []))
   = config (out fresh_world)).
Proof.
  split.
  - exact (formatting_halts_at_first_report [sample_arg 5 "5"]
             (cstring "%*d") fresh_world
             (mkWorld (set_width 5 (decimal_stream fresh_stream))
                [msg.no_format_arg])
             Unwinding eq_refl).
  - exact (formatting_halts_at_first_report [sample_arg 7 "7"]
             (cstring "[%d]") fresh_world
             (mkWorld (put (cstring "[7]") fresh_stream) []) (Normal tt)
             eq_refl).
Defined.

(** ** The destination only grows *)

Lemma grows_ret {A} (a : A) : grows (ret a).
Proof.
  intros w w' r H. inversion H; subst. exists []. now rewrite app_nil_r.
Qed.

Lemma grows_error policy reason : grows (TINYFORMAT_ERROR policy reason).
Proof.
  intros w w' r H. exists [].
  destruct policy; inversion H; subst; cbn [out]; now rewrite app_nil_r.
Qed.

Lemma grows_bind {A B} (m : M A) (k : A -> M B) :
  grows m -> (forall a, grows (k a)) -> grows (bind m k).
Proof.
  intros Hm Hk w w' r. unfold bind.
  destruct (m w) as [w1 [a|]] eqn:E; intros H.
  - destruct (Hm _ _ _ E) as [s1 H1]. destruct (Hk a _ _ _ H) as [s2 H2].
    exists (s1 ++ s2). now rewrite H2, H1, app_assoc.
  - inversion H; subst. exact (Hm _ _ _ E).
Qed.

Lemma grows_on_out (f : ostream -> ostream) :
  (forall o, exists s, written (f o) = written o ++ s) -> grows (on_out f).
Proof. intros Hf w w' r H. inversion H; subst. cbn [out]. apply Hf. Qed.

Lemma grows_of_preserves {A} (m : M A) : preserves written m -> grows m.
Proof.
  intros Hm w w' r H. exists []. rewrite app_nil_r. exact (Hm _ _ _ H).
Qed.

Lemma scanner_appends (o : ostream) (fmt : cstr) :
  exists s, written (fst (printFormatStringLiteral o fmt)) = written o ++ s.
Proof.
  destruct (scanner_spec (List.length fmt) fmt (le_n _) o)
    as (s & consumed & rest & E & _).
  exists s. now rewrite E.
Qed.

Lemma grows_scan (k : cstr -> M unit) (fmt : cstr) :
  (forall c, grows (k c)) ->
  grows (o <- get_out ;;
         let (o, fmt) := printFormatStringLiteral o fmt in
         set_out o ;; k fmt).
Proof.
  intros Hk w w' r.
  rewrite (bind_normal _ _ w w (out w)) by reflexivity.
  destruct (scanner_appends (out w) fmt) as [s Hs].
  destruct (printFormatStringLiteral (out w) fmt) as [o1 fmt1].
  cbn [fst] in Hs.
  rewrite (bind_normal _ _ w (mkWorld o1 (reports w)) tt) by reflexivity.
  intros H. destruct (Hk _ _ _ _ H) as [s2 H2]. cbn [out] in H2.
  exists (s ++ s2). now rewrite H2, Hs, app_assoc.
Qed.

Lemma format_space_padded_appends arg fmt fmtEnd nt o :
  exists s, written (format_space_padded arg fmt fmtEnd nt o) = written o ++ s.
Proof.
  unfold format_space_padded.
  destruct (insert_string_appends
              (map (fun ch => if Ascii.eqb ch "+" then " " else ch)
                 (written (format arg
                    (setf ios.showpos
                       (mkStream [] (width o) (precision o) (flags o) (fill o)))
                    fmt fmtEnd nt))) o) as (pad & E & _).
  eexists. exact E.
Qed.

Lemma grows_formatImpl_loop policy fs :
  Forall appends_only fs ->
  forall fuel fmt ai, grows (formatImpl_loop policy fs fuel fmt ai).
Proof.
  intros Hfs. induction fuel as [|fuel IH]; intros fmt ai; cbn [formatImpl_loop].
  - destruct (ai <? numFormatters fs)%nat; apply grows_ret.
  - destruct (ai <? numFormatters fs)%nat; [|apply grows_ret].
    intros w w' r.
    rewrite (bind_normal _ _ w w (out w)) by reflexivity.
    destruct (scanner_appends (out w) fmt) as [s Hs].
    destruct (printFormatStringLiteral (out w) fmt) as [o1 fmt1].
    cbn [fst] in Hs.
    rewrite (bind_normal _ _ w (mkWorld o1 (reports w)) tt) by reflexivity.
    intros H.
    assert (G : grows
      (r <- streamStateFromFormat policy fs false (-1) fmt1 ai ;;
       match nth_error fs (res_argIndex r) with
       | None => TINYFORMAT_ERROR policy msg.no_format_arg ;; ret EarlyReturn
       | Some arg =>
           on_out (if negb (res_spacePadPositive r)
                   then fun o => format arg o fmt1 (res_fmtEnd r) (res_ntrunc r)
                   else format_space_padded arg fmt1 (res_fmtEnd r)
                          (res_ntrunc r)) ;;
           formatImpl_loop policy fs fuel (res_fmtEnd r) (S (res_argIndex r))
       end)).
    { apply grows_bind;
        [apply grows_of_preserves, spec_keeps_written|].
      intros r2. destruct (nth_error fs (res_argIndex r2)) as [arg|] eqn:En.
      - apply grows_bind; [|intros; apply IH].
        apply grows_on_out. intros o.
        destruct (negb (res_spacePadPositive r2)).
        + apply nth_error_In in En.
          rewrite Forall_forall in Hfs. apply (Hfs _ En).
        + apply format_space_padded_appends.
      - apply grows_bind; [apply grows_error | intros; apply grows_ret]. }
    destruct (G _ _ _ H) as [s2 H2]. cbn [out] in H2.
    exists (s ++ s2). now rewrite H2, Hs, app_assoc.
Qed.

(** X18: [formatImpl] only adds to the destination.  When every argument
    renders by appending to the stream it is given, the text on the stream
    after [formatImpl], however it is left and whatever it reports, is the
    text that was there followed by what was added: nothing written before
    is lost or changed, also on the space-padding path. *)
Theorem formatting_only_appends policy fs fmt w :
  Forall appends_only fs ->
  exists s,
    written (out (fst (formatImpl policy fs fmt w))) = written (out w) ++ s.
Proof.
  intros Hfs.
  destruct (formatImpl policy fs fmt w) as [w' r] eqn:E. cbn [fst].
  revert w w' r E. change (grows (formatImpl policy fs fmt)).
  unfold formatImpl.
  apply grows_bind; [apply grows_of_preserves; intros w w' r H;
                     now inversion H|].
  intros o. apply grows_bind; [now apply grows_formatImpl_loop|].
  intros [fmt'| |]; try apply grows_ret.
  apply grows_scan. intros c.
  apply grows_bind.
  - destruct (negb (Ascii.eqb (deref c) NUL));
      [apply grows_error | apply grows_ret].
  - intros _. apply grows_of_preserves. intros w w' r H.
    now inversion H.
Qed.

Lemma sample_arg_appends (n : Z) (text : string) :
  appends_only (sample_arg n text).
Proof.
  intros o fmt fmtEnd nt. cbn [sample_arg format].
  destruct (insert_string_appends (cstring text) o) as (pad & E & _).
  eexists. exact E.
Qed.

Lemma formatting_only_appends_witness :
  Forall appends_only [sample_arg 7 "7"] /\
  exists s,
    written (out (fst (formatImpl ErrorReturns [sample_arg 7 "7"]
                         (cstring "a%3d%d") fresh_world)))
    = written (out fresh_world) ++ s.
Proof.
  assert (H : Forall appends_only [sample_arg 7 "7"])
    by (constructor; [apply sample_arg_appends | constructor]).
  split; [exact H|].
  exact (formatting_only_appends ErrorReturns [sample_arg 7 "7"]
           (cstring "a%3d%d") fresh_world H).
Defined.

(** ** Literal text in front of a format string *)

Lemma formatImpl_after_scan policy fs (fmt1 fmt2 : cstr) (s : list ascii) w :
  (forall o, printFormatStringLiteral o fmt1
             = printFormatStringLiteral (put s o) fmt2) ->
  formatImpl policy fs fmt1 w
  = formatImpl policy fs fmt2 (mkWorld (put s (out w)) (reports w)).
Proof.
  intros Hscan.
  destruct fs as [|a fs]; unfold formatImpl;
    cbn [formatImpl_loop numFormatters List.length Nat.ltb Nat.leb];
    unfold bind, get_out, set_out, ret; cbv beta iota;
    cbn [out reports put width precision flags fill];
    rewrite Hscan;
    destruct (printFormatStringLiteral (put s (out w)) fmt2) as [o2 c2];
    reflexivity.
Qed.

(** X19: literal text in front of a format string is written first, and
    formatting goes on as if [formatImpl] had been called with the rest of
    the format string on the stream that holds the text: for a run of
    characters that are neither '%' nor the terminator, and for the escape
    "%%", which counts as one '%'.  This holds for every list of arguments
    and whatever is reported afterwards. *)
Theorem literal_prefix_is_written_first policy fs (lit fmt : cstr) w :
  forallb literal_char lit = true ->
  formatImpl policy fs (lit ++ fmt) w
  = formatImpl policy fs fmt (mkWorld (put lit (out w)) (reports w)) /\
  formatImpl policy fs (lit ++ "%" :: "%" :: fmt) w
  = formatImpl policy fs fmt (mkWorld (put (lit ++ ["%"]) (out w)) (reports w)).
Proof.
  intros Hlit. split.
  - apply formatImpl_after_scan. intros o.
    now apply scanner_literal_run.
  - apply formatImpl_after_scan. intros o.
    rewrite scanner_literal_run by assumption.
    rewrite <- put_put.
    unfold printFormatStringLiteral. cbn [scan_literal deref].
    const_chars. rewrite write_0.
    apply (scan_literal_run fmt ["%"] (put lit o)).
Qed.

Lemma literal_prefix_is_written_first_witness :
  forallb literal_char (cstring "n = ") = true /\
  formatImpl ErrorReturns [sample_arg 7 "7"] (cstring "n = " ++ cstring "%d")
    fresh_world
  = formatImpl ErrorReturns [sample_arg 7 "7"] (cstring "%d")
      (mkWorld (put (cstring "n = ") (out fresh_world)) (reports fresh_world)).
Proof.
  split; [reflexivity|].
  apply (literal_prefix_is_written_first ErrorReturns [sample_arg 7 "7"]
           (cstring "n = ") (cstring "%d") fresh_world).
  reflexivity.
Defined.

(** ** Specifiers without a variable width or precision *)

Lemma plain_conversion_inv (ch : ascii) :
  plain_conversion ch = true ->
  ends_number ch = true /\ is_length_modifier ch = false /\
  is_conv ch "aA" = false /\ is_conv ch "n" = false /\
  Ascii.eqb ch NUL = false /\ Ascii.eqb ch "%" = false.
Proof.
  unfold plain_conversion. intros H.
  do 5 (apply andb_true_iff in H as [H ?]).
  repeat match goal with
         | X : negb _ = true |- _ => apply negb_true_iff in X
         end.
  tauto.
Qed.

(** The flag loop over flags and the digits of a width stops inside the
    digits: a leading '0' of the width is read as a flag. *)
Lemma parse_flags_digits_cursor (ds tail : cstr) :
  forallb is_digit ds = true ->
  is_flag (deref tail) = false ->
  forall o sp we,
    exists ds', forallb is_digit ds' = true /\
                snd (parse_flags o sp we (ds ++ tail)) = ds' ++ tail.
Proof.
  intros Hds Ht. induction ds as [|d ds IH]; intros o sp we.
  - exists []. split; [reflexivity|]. cbn [app].
    now rewrite parse_flags_stops.
  - cbn [forallb] in Hds. apply andb_true_iff in Hds as [Hd Hds].
    destruct (Ascii.eqb d "0") eqn:E0.
    + apply Ascii.eqb_eq in E0. subst d. cbn [app].
      rewrite parse_flags_zero. now apply IH.
    + exists (d :: ds). split; [cbn [forallb]; now rewrite Hd, Hds|].
      rewrite parse_flags_stops; [reflexivity|].
      cbn [app deref]. now apply digit_is_no_flag.
Qed.

Lemma parse_flags_plain_cursor (fl ds tail : cstr) :
  forallb is_flag fl = true ->
  forallb is_digit ds = true ->
  is_flag (deref tail) = false ->
  forall o sp we,
    exists ds', forallb is_digit ds' = true /\
                snd (parse_flags o sp we (fl ++ ds ++ tail)) = ds' ++ tail.
Proof.
  intros Hfl Hds Ht. induction fl as [|ch fl IH]; intros o sp we.
  - cbn [app]. now apply parse_flags_digits_cursor.
  - cbn [forallb] in Hfl. apply andb_true_iff in Hfl as [Hch Hfl].
    specialize (IH Hfl). rewrite <- app_comm_cons.
    destruct (is_flag_cases ch Hch) as [-> | [-> | [-> | [-> | ->]]]].
    + rewrite parse_flags_hash. apply IH.
    + rewrite parse_flags_zero. apply IH.
    + rewrite parse_flags_minus. apply IH.
    + rewrite parse_flags_space. apply IH.
    + rewrite parse_flags_plus. apply IH.
Qed.

Lemma parse_width_plain policy fs ds tail ai o rs :
  forallb is_digit ds = true ->
  is_digit (deref tail) = false ->
  Ascii.eqb (deref tail) "*" = false ->
  exists o' ws,
    parse_width policy fs (ds ++ tail) ai (mkWorld o rs)
    = (mkWorld o' rs, Normal (ws, ai, tail)).
Proof.
  intros Hds Ht Hs. destruct ds as [|d ds].
  - exists o, false. cbn [app]. unfold parse_width. rewrite Ht.
    unfold bind, ret. now rewrite Hs.
  - cbn [forallb] in Hds. apply andb_true_iff in Hds as [Hd Hds].
    rewrite <- app_comm_cons.
    rewrite (parse_width_digits policy fs d ds tail ai _ Hd Hds Ht Hs).
    eauto.
Qed.

Lemma parse_precision_plain policy fs prec tail ai o rs :
  plain_precision prec = true ->
  ends_number (deref tail) = true ->
  exists o' ps,
    parse_precision policy fs (prec ++ tail) ai (mkWorld o rs)
    = (mkWorld o' rs, Normal (ps, ai, tail)).
Proof.
  intros Hp Ht.
  pose proof Ht as Hend.
  apply ends_number_inv in Ht as (Htf & Htd & Hts & Htp).
  destruct prec as [|ch ds].
  - exists o, false. cbn [app].
    apply parse_precision_absent. now apply Ascii.eqb_neq.
  - cbn [plain_precision] in Hp. apply andb_true_iff in Hp as [Hch Hds].
    apply Ascii.eqb_eq in Hch. subst ch.
    rewrite <- app_comm_cons. unfold parse_precision. cbn [deref advance tl].
    const_chars.
    destruct ds as [|d ds].
    + cbn [app]. rewrite Hts, Htd.
      assert (Hm : Ascii.eqb (deref tail) "-" = false).
      { unfold is_flag, is_conv in Htf. cbn [list_ascii_of_string existsb] in Htf.
        repeat (apply orb_false_iff in Htf as [? Htf]). assumption. }
      rewrite Hm. unfold bind, ret, on_out. cbn [out reports]. eauto.
    + cbn [forallb] in Hds. apply andb_true_iff in Hds as [Hd Hds].
      rewrite <- app_comm_cons. cbn [deref]. rewrite Hd.
      assert (Hst : Ascii.eqb d "*" = false).
      { destruct (Ascii.eqb d "*") eqn:E; [|reflexivity].
        apply Ascii.eqb_eq in E. subst d. discriminate Hd. }
      rewrite Hst. unfold parseIntAndAdvance.
      change (d :: ds ++ tail) with ((d :: ds) ++ tail).
      rewrite parseInt_loop_app by (cbn [forallb]; now rewrite ?Hd, ?Hds).
      unfold bind, ret, on_out. cbn [out reports]. eauto.
Qed.

Lemma conversion_plain policy conv ps nt o rs :
  plain_conversion conv = true ->
  exists o' ic nt',
    conversion policy conv ps nt (mkWorld o rs)
    = (mkWorld o' rs, Normal (Break ic nt')).
Proof.
  intros H. apply plain_conversion_inv in H as (_ & _ & Ha & Hn & H0 & _).
  unfold conversion. rewrite Ha, Hn, H0.
  repeat match goal with
         | |- context [if ?b then _ else _] => destruct b
         end;
    unfold bind, ret, on_out, get_out; cbn [out reports]; eauto.
Qed.

(** A specifier without '*' whose conversion character has no report:
    nothing is reported, no argument is consumed before the one to format,
    and the returned cursor is behind the conversion character. *)
Lemma spec_plain policy fs sp nt fl ds prec lens conv rest ai o rs :
  forallb is_flag fl = true ->
  forallb is_digit ds = true ->
  plain_precision prec = true ->
  forallb is_length_modifier lens = true ->
  plain_conversion conv = true ->
  exists o' r,
    streamStateFromFormat policy fs sp nt
      ("%" :: fl ++ ds ++ prec ++ lens ++ conv :: rest) ai (mkWorld o rs)
    = (mkWorld o' rs, Normal r) /\
    res_argIndex r = ai /\ res_fmtEnd r = rest.
Proof.
  intros Hfl Hds Hp Hlens Hconv.
  pose proof (plain_conversion_inv _ Hconv) as (Hend & Hnolen & _).
  assert (Htail : ends_number (deref (lens ++ conv :: rest)) = true)
    by (now apply deref_after_modifiers).
  assert (Hptail : ends_number (deref (prec ++ lens ++ conv :: rest)) = true
                   \/ deref (prec ++ lens ++ conv :: rest) = ".").
  { destruct prec as [|ch p]; [now left|]. right.
    cbn [plain_precision] in Hp. apply andb_true_iff in Hp as [Hch _].
    now apply Ascii.eqb_eq in Hch. }
  assert (Hpt : is_flag (deref (prec ++ lens ++ conv :: rest)) = false /\
                is_digit (deref (prec ++ lens ++ conv :: rest)) = false /\
                Ascii.eqb (deref (prec ++ lens ++ conv :: rest)) "*" = false).
  { destruct Hptail as [H | ->]; [|now vm_compute].
    apply ends_number_inv in H. tauto. }
  destruct Hpt as (Hpf & Hpd & Hps).
  unfold streamStateFromFormat. cbn [deref advance tl]. const_chars.
  unfold parse_spec_prefix, parse_flags_width.
  unfold bind at 1 2 3. unfold on_out at 1. unfold bind at 1.
  unfold get_out at 1. cbn [out reports].
  destruct (parse_flags_plain_cursor fl ds _ Hfl Hds Hpf
              (reset_stream o) sp 0) as (ds' & Hds' & Ecur).
  destruct (parse_flags (reset_stream o) sp 0
              (fl ++ ds ++ prec ++ lens ++ conv :: rest))
    as [[[o1 sp1] we1] c1].
  cbn [snd] in Ecur. subst c1.
  unfold bind at 1. unfold set_out at 1. cbn [out reports].
  destruct (parse_width_plain policy fs ds' _ ai o1 rs Hds' Hpd Hps)
    as (o2 & ws & EW).
  unfold bind at 1. rewrite EW.
  unfold ret at 1.
  destruct (parse_precision_plain policy fs prec _ ai o2 rs Hp Htail)
    as (o3 & ps & EP).
  unfold bind at 1. rewrite EP.
  unfold ret at 1.
  rewrite skip_length_modifier_app by (cbn [deref]; assumption).
  cbn [l_c l_precisionSet l_widthSet l_widthExtra l_argIndex
       l_spacePadPositive deref advance tl].
  destruct (conversion_plain policy conv ps nt o3 rs Hconv)
    as (o4 & ic & nt' & EC).
  unfold bind at 1. rewrite EC.
  destruct (ic && ps && negb ws);
    unfold bind, ret, on_out; cbn [out reports];
    eexists _, _; (split; [reflexivity|]); split; reflexivity.
Qed.

(** ** The conversion character, whatever comes before it *)

(** The part of a specifier before the conversion character, when it is
    written out: flags, a width in digits, a precision in digits, length
    modifiers.  Nothing is reported and no argument is taken. *)
Lemma prefix_of_plain_spec policy fs sp fl ds prec lens tail ai w :
  forallb is_flag fl = true ->
  forallb is_digit ds = true ->
  plain_precision prec = true ->
  forallb is_length_modifier lens = true ->
  ends_number (deref tail) = true ->
  is_length_modifier (deref tail) = false ->
  exists o1 l,
    parse_spec_prefix policy fs sp (fl ++ ds ++ prec ++ lens ++ tail) ai w
    = (mkWorld o1 (reports w), Normal l) /\
    l_argIndex l = ai /\ l_c l = tail.
Proof.
  intros Hfl Hds Hp Hlens Hend Hnolen.
  assert (Htail : ends_number (deref (lens ++ tail)) = true)
    by (now apply deref_after_modifiers).
  assert (Hpt : is_flag (deref (prec ++ lens ++ tail)) = false /\
                is_digit (deref (prec ++ lens ++ tail)) = false /\
                Ascii.eqb (deref (prec ++ lens ++ tail)) "*" = false).
  { destruct prec as [|ch p].
    - cbn [app]. apply ends_number_inv in Htail. tauto.
    - cbn [plain_precision] in Hp. apply andb_true_iff in Hp as [Hch _].
      apply Ascii.eqb_eq in Hch. subst ch. now vm_compute. }
  destruct Hpt as (Hpf & Hpd & Hps).
  destruct (parse_flags_plain_cursor fl ds _ Hfl Hds Hpf
              (reset_stream (out w)) sp 0) as (ds' & Hds' & Ecur).
  destruct (parse_flags (reset_stream (out w)) sp 0
              (fl ++ ds ++ prec ++ lens ++ tail))
    as [[[o1 sp1] we1] c1] eqn:EF.
  cbn [snd] in Ecur. subst c1.
  destruct (parse_width_plain policy fs ds' _ ai o1 (reports w) Hds' Hpd Hps)
    as (o2 & ws & EW).
  pose proof (flags_width_run _ _ _ _ _ _ _ _ _ _ _ _ _ _ EF EW) as EFW.
  destruct (parse_precision_plain policy fs prec _ ai o2 (reports w) Hp Htail)
    as (o3 & ps & EP).
  rewrite (prefix_after_flags_width _ _ _ _ _ _ _ _ _ _ _ _ EFW).
  rewrite (bind_normal _ _ _ _ _ EP).
  unfold ret.
  rewrite skip_length_modifier_app by assumption.
  eexists _, _. split; [reflexivity|]. split; reflexivity.
Qed.

Lemma unsupported_conversion_from_locals policy fs sp nt c ai w w1 l ch rest :
  parse_spec_prefix policy fs sp c ai w = (w1, Normal l) ->
  l_c l = ch :: rest ->
  In ch ["a"; "A"; "n"] ->
  streamStateFromFormat policy fs sp nt ("%" :: c) ai w
  = (mkWorld (out w1)
             (reports w1 ++ [if Ascii.eqb ch "n" then msg.percent_n
                             else msg.hex_float]),
     match policy with
     | ErrorReturns =>
         Normal (mkSpec (l_spacePadPositive l) nt (l_argIndex l) rest)
     | ErrorUnwinds => Unwinding
     end).
Proof.
  intros Hpre Hc Hch.
  rewrite (spec_after_prefix _ _ _ nt _ _ _ _ _ Hpre).
  rewrite Hc. cbn [deref advance tl].
  cbn [In] in Hch.
  destruct Hch as [<- | [<- | [<- | []]]]; destruct policy; reflexivity.
Qed.

(** X11: the conversions that are not supported are reported and nothing
    more: for 'a' and 'A' the report is "tinyformat: the %a and %A
    conversion specs are not supported", for 'n' it is "tinyformat: %n
    conversion spec not supported".  The stream is exactly the one that the
    part of the specifier before the conversion character left (its flags,
    its width and its precision stay as they were set), the report comes
    after the reports of that part, and when the report comes back
    [ntrunc] is as it came in and the cursor is just behind the character.
    The first part states it from the locals of the code at line 166, for
    every specifier that gets that far; the second for every specifier
    written as flags, length modifiers and the character, where the stream
    is the one the flags left and the report the only one; the third for
    every specifier written as flags, a width in digits, a precision in
    digits, length modifiers and the character, where the report is the
    only one and no argument is taken. *)
Theorem unsupported_conversion_is_reported policy fs sp nt ai w :
  (forall c w1 l ch rest,
      parse_spec_prefix policy fs sp c ai w = (w1, Normal l) ->
      l_c l = ch :: rest ->
      In ch ["a"; "A"; "n"] ->
      streamStateFromFormat policy fs sp nt ("%" :: c) ai w
      = (mkWorld (out w1)
                 (reports w1 ++ [if Ascii.eqb ch "n" then msg.percent_n
                                 else msg.hex_float]),
         match policy with
         | ErrorReturns =>
             Normal (mkSpec (l_spacePadPositive l) nt (l_argIndex l) rest)
         | ErrorUnwinds => Unwinding
         end)) /\
  (forall fl lens ch rest,
      forallb is_flag fl = true ->
      forallb is_length_modifier lens = true ->
      In ch ["a"; "A"; "n"] ->
      streamStateFromFormat policy fs sp nt
        ("%" :: fl ++ lens ++ ch :: rest) ai w
      = (mkWorld (flags_stream sp fl (out w))
                 (reports w ++ [if Ascii.eqb ch "n" then msg.percent_n
                                else msg.hex_float]),
         match policy with
         | ErrorReturns => Normal (mkSpec (flags_space_pad sp fl) nt ai rest)
         | ErrorUnwinds => Unwinding
         end)) /\
  (forall fl ds prec lens ch rest,
      forallb is_flag fl = true ->
      forallb is_digit ds = true ->
      plain_precision prec = true ->
      forallb is_length_modifier lens = true ->
      In ch ["a"; "A"; "n"] ->
      exists o1 sp1,
        streamStateFromFormat policy fs sp nt
          ("%" :: fl ++ ds ++ prec ++ lens ++ ch :: rest) ai w
        = (mkWorld o1
                   (reports w ++ [if Ascii.eqb ch "n" then msg.percent_n
                                  else msg.hex_float]),
           match policy with
           | ErrorReturns => Normal (mkSpec sp1 nt ai rest)
           | ErrorUnwinds => Unwinding
           end)).
Proof.
  assert (Hends : forall ch rest, In ch ["a"; "A"; "n"] ->
            ends_number (deref (ch :: rest)) = true /\
            is_length_modifier (deref (ch :: rest)) = false).
  { intros ch rest Hch. cbn [deref]. cbn [In] in Hch.
    destruct Hch as [<- | [<- | [<- | []]]]; split; reflexivity. }
  split; [|split].
  - intros c w1 l ch rest. apply unsupported_conversion_from_locals.
  - intros fl lens ch rest Hfl Hlens Hch.
    destruct (Hends ch rest Hch) as [Hend Hnolen].
    pose proof (prefix_plain policy fs sp fl lens (ch :: rest) ai w Hfl Hlens
                  Hend Hnolen) as Hpre.
    exact (unsupported_conversion_from_locals _ _ _ nt _ _ _ _ _ ch rest
             Hpre eq_refl Hch).
  - intros fl ds prec lens ch rest Hfl Hds Hp Hlens Hch.
    destruct (Hends ch rest Hch) as [Hend Hnolen].
    destruct (prefix_of_plain_spec policy fs sp fl ds prec lens (ch :: rest)
                ai w Hfl Hds Hp Hlens Hend Hnolen)
      as (o1 & l & Hpre & Hai & Hc).
    exists o1, (l_spacePadPositive l).
    rewrite (unsupported_conversion_from_locals _ _ _ nt _ _ _ _ _ ch rest
               Hpre Hc Hch).
    cbn [out reports]. now rewrite Hai.
Qed.

Lemma unsupported_conversion_is_reported_witness :
  (streamStateFromFormat ErrorReturns [sample_arg 9 "9"] false (-1)
     (cstring "%*.3n rest") 0 fresh_world
   = (mkWorld (mkStream [] 9 3 ios.skipws " ") [msg.percent_n],
      Normal (mkSpec false (-1) 1 (cstring " rest")))) /\
  (streamStateFromFormat ErrorReturns [] false (-1) (cstring "%+ln rest") 0
     fresh_world
   = (mkWorld (mkStream [] 0 6 (Z.lor ios.skipws ios.showpos) " ")
              [msg.percent_n],
      Normal (mkSpec false (-1) 0 (cstring " rest")))) /\
  (exists o1 sp1,
      streamStateFromFormat ErrorReturns [] false (-1)
        (cstring "%-8.3la rest") 0 fresh_world
      = (mkWorld o1 (reports fresh_world ++ [msg.hex_float]),
         Normal (mkSpec sp1 (-1) 0 (cstring " rest")))).
Proof.
  split; [|split].
  - destruct (unsupported_conversion_is_reported ErrorReturns
                [sample_arg 9 "9"] false (-1) 0%nat fresh_world)
      as (Hlocals & _ & _).
    apply (Hlocals (cstring "*.3n rest")
             (mkWorld (mkStream [] 9 3 ios.skipws " ") [])
             (mkLocals false 0 true true 1 (cstring "n rest")) "n"
             (cstring " rest")); [reflexivity | reflexivity |].
    cbn [In]. right. right. left. reflexivity.
  - destruct (unsupported_conversion_is_reported ErrorReturns [] false (-1)
                0%nat fresh_world) as (_ & Hflags & _).
    apply (Hflags (cstring "+") (cstring "l") "n" (cstring " rest"));
      [reflexivity | reflexivity |].
    cbn [In]. right. right. left. reflexivity.
  - destruct (unsupported_conversion_is_reported ErrorReturns [] false (-1)
                0%nat fresh_world) as (_ & _ & Hplain).
    apply (Hplain (cstring "-") (cstring "8") (cstring ".3") (cstring "l")
             "a" (cstring " rest"));
      [reflexivity | reflexivity | reflexivity | reflexivity |].
    cbn [In]. left. reflexivity.
Defined.

Section FieldsOfThePrefix.
Context (a : Z).
Hypothesis Hsharp : Z.land (Z.lor ios.showpoint ios.showbase) a = 0.
Hypothesis Hadjust : Z.land ios.adjustfield a = 0.
Hypothesis Hpos : Z.land ios.showpos a = 0.
Hypothesis Hreset : Z.ldiff a reset_mask = 0.

Lemma parse_width_keeps_field policy fs c ai :
  preserves (fun o => Z.land (flags o) a) (parse_width policy fs c ai).
Proof.
  unfold parse_width, next_int.
  repeat first
    [ preserves_step
    | apply preserves_on_out; intros o; cbn [flags set_width set_fill];
      now rewrite ?field_kept_by_setf_mask ].
Qed.

Lemma parse_precision_keeps_field policy fs c ai :
  preserves (fun o => Z.land (flags o) a) (parse_precision policy fs c ai).
Proof. unfold parse_precision, next_int. repeat preserves_step. Qed.

(** The flags of [a] are clear when the part before the conversion
    character is left: the reset clears them and nothing sets them. *)
Lemma flags_width_clears_field policy fs sp c ai w w' r :
  parse_flags_width policy fs sp c ai w = (w', r) ->
  Z.land (flags (out w')) a = 0.
Proof.
  unfold parse_flags_width.
  rewrite (bind_normal _ _ w (mkWorld (reset_stream (out w)) (reports w)) tt)
    by reflexivity.
  rewrite (bind_normal _ _ _ (mkWorld (reset_stream (out w)) (reports w))
             (reset_stream (out w))) by reflexivity.
  pose proof (parse_flags_keeps_field a Hsharp Hadjust Hpos c
                (reset_stream (out w)) sp 0) as Hf.
  destruct (parse_flags (reset_stream (out w)) sp 0 c)
    as [[[o1 sp0] we0] c1] eqn:EF.
  cbn [fst] in Hf.
  rewrite (bind_normal _ _ _ (mkWorld o1 (reports w)) tt) by reflexivity.
  intros H.
  assert (Hp : preserves (fun o => Z.land (flags o) a)
                 ('(widthSet, argIndex, c2) <- parse_width policy fs c1 ai ;;
                  ret (sp0, we0, widthSet, argIndex, c2))).
  { apply preserves_bind; [apply parse_width_keeps_field|].
    intros [[ws a2] c2]. apply preserves_ret. }
  rewrite (Hp _ _ _ H). cbn [out]. rewrite Hf.
  now apply field_after_reset.
Qed.

Lemma prefix_clears_field policy fs sp c ai w w1 r :
  parse_spec_prefix policy fs sp c ai w = (w1, r) ->
  Z.land (flags (out w1)) a = 0.
Proof.
  unfold parse_spec_prefix. unfold bind at 1.
  destruct (parse_flags_width policy fs sp c ai w)
    as [w2 [[[[[sp1 we1] ws] ai2] c2]|]] eqn:EFW.
  2:{ intros H. inversion H; subst.
      exact (flags_width_clears_field _ _ _ _ _ _ _ _ EFW). }
  intros H.
  assert (Hp : preserves (fun o => Z.land (flags o) a)
                 ('(precisionSet, argIndex, c3) <-
                    parse_precision policy fs c2 ai2 ;;
                  ret (mkLocals sp1 we1 ws precisionSet argIndex
                                (skip_length_modifier c3)))).
  { apply preserves_bind; [apply parse_precision_keeps_field|].
    intros [[ps a3] c3]. apply preserves_ret. }
  rewrite (Hp _ _ _ H).
  exact (flags_width_clears_field _ _ _ _ _ _ _ _ EFW).
Qed.
End FieldsOfThePrefix.

Lemma numeric_conversion_cases (ch : ascii) :
  is_conv ch numeric_conversions = true ->
  In ch ["d"; "i"; "u"; "o"; "x"; "X"; "p"; "e"; "E"; "f"; "F"; "g"; "G"].
Proof.
  unfold numeric_conversions. rewrite !is_conv_cons, is_conv_nil.
  rewrite !orb_true_iff, !Ascii.eqb_eq. cbn [In].
  intuition (subst; auto 20; discriminate).
Qed.

Ltac fields :=
  repeat first
    [ rewrite field_after_setf_mask
    | rewrite field_kept_by_setf_mask by reflexivity
    | rewrite field_after_setf
    | rewrite field_kept_by_setf by reflexivity
    | progress cbn [flags set_flags]
    | rewrite field_cleared_by_ldiff by reflexivity
    | rewrite field_kept_by_ldiff by reflexivity ].

Lemma numeric_conversion_from_locals policy fs sp nt c ai w w1 l ch rest :
  parse_spec_prefix policy fs sp c ai w = (w1, Normal l) ->
  l_c l = ch :: rest ->
  is_conv ch numeric_conversions = true ->
  exists o',
    streamStateFromFormat policy fs sp nt ("%" :: c) ai w
    = (mkWorld o' (reports w1),
       Normal (mkSpec (l_spacePadPositive l) nt (l_argIndex l) rest)) /\
    Z.land (flags o') ios.basefield = conversion_base ch /\
    Z.land (flags o') ios.floatfield = conversion_float ch /\
    Z.land (flags o') ios.uppercase = conversion_upper ch /\
    Z.land (flags o') ios.boolalpha = 0.
Proof.
  intros Hpre Hc Hch.
  pose proof (prefix_clears_field ios.basefield eq_refl eq_refl eq_refl
                eq_refl _ _ _ _ _ _ _ _ Hpre) as Hb.
  pose proof (prefix_clears_field ios.floatfield eq_refl eq_refl eq_refl
                eq_refl _ _ _ _ _ _ _ _ Hpre) as Hf.
  pose proof (prefix_clears_field ios.uppercase eq_refl eq_refl eq_refl
                eq_refl _ _ _ _ _ _ _ _ Hpre) as Hu.
  pose proof (prefix_clears_field ios.boolalpha eq_refl eq_refl eq_refl
                eq_refl _ _ _ _ _ _ _ _ Hpre) as Ha.
  rewrite (spec_after_prefix _ _ _ nt _ _ _ _ _ Hpre).
  rewrite Hc. cbn [deref advance tl].
  apply numeric_conversion_cases in Hch. cbn [In] in Hch.
  destruct (l_precisionSet l), (l_widthSet l);
    repeat (destruct Hch as [<- | Hch]); try destruct Hch;
    (eexists; split; [reflexivity|];
     cbn [out]; unfold precision_as_width;
     repeat progress
       (cbn [flags set_fill set_width set_precision]; fields);
     rewrite ?Hb, ?Hf, ?Hu, ?Ha;
     repeat split; reflexivity).
Qed.

(** X14: the conversion character of a number chooses the base, the
    notation and the case, and reports nothing, whatever comes before it in
    the specifier.  For one of d i u o x X p e E f F g G, the base field of
    the stream is decimal for d i u e E g G, octal for o and hexadecimal
    for x X p, and is left clear for f F; the float field is scientific for
    e E, fixed for f F and clear otherwise; the upper-case flag is set
    exactly for X E F G; boolalpha is clear; [ntrunc] is as it came in and
    the cursor is just behind the character.  The first part states it from
    the locals of the code at line 166, for every specifier that gets that
    far: the reports are those of the part before the conversion character
    (a '*' that finds no argument), and the conversion adds none.  The
    second is for every specifier written as flags, length modifiers and
    the character, the third for every specifier written as flags, a width
    in digits, a precision in digits, length modifiers and the character:
    there nothing at all is reported and no argument is taken. *)
Theorem numeric_conversion_selects_format policy fs sp nt ai w :
  (forall c w1 l ch rest,
      parse_spec_prefix policy fs sp c ai w = (w1, Normal l) ->
      l_c l = ch :: rest ->
      is_conv ch numeric_conversions = true ->
      exists o',
        streamStateFromFormat policy fs sp nt ("%" :: c) ai w
        = (mkWorld o' (reports w1),
           Normal (mkSpec (l_spacePadPositive l) nt (l_argIndex l) rest)) /\
        Z.land (flags o') ios.basefield = conversion_base ch /\
        Z.land (flags o') ios.floatfield = conversion_float ch /\
        Z.land (flags o') ios.uppercase = conversion_upper ch /\
        Z.land (flags o') ios.boolalpha = 0) /\
  (forall fl lens ch rest,
      forallb is_flag fl = true ->
      forallb is_length_modifier lens = true ->
      is_conv ch numeric_conversions = true ->
      exists o',
        streamStateFromFormat policy fs sp nt
          ("%" :: fl ++ lens ++ ch :: rest) ai w
        = (mkWorld o' (reports w),
           Normal (mkSpec (flags_space_pad sp fl) nt ai rest)) /\
        Z.land (flags o') ios.basefield = conversion_base ch /\
        Z.land (flags o') ios.floatfield = conversion_float ch /\
        Z.land (flags o') ios.uppercase = conversion_upper ch /\
        Z.land (flags o') ios.boolalpha = 0) /\
  (forall fl ds prec lens ch rest,
      forallb is_flag fl = true ->
      forallb is_digit ds = true ->
      plain_precision prec = true ->
      forallb is_length_modifier lens = true ->
      is_conv ch numeric_conversions = true ->
      exists o' sp1,
        streamStateFromFormat policy fs sp nt
          ("%" :: fl ++ ds ++ prec ++ lens ++ ch :: rest) ai w
        = (mkWorld o' (reports w), Normal (mkSpec sp1 nt ai rest)) /\
        Z.land (flags o') ios.basefield = conversion_base ch /\
        Z.land (flags o') ios.floatfield = conversion_float ch /\
        Z.land (flags o') ios.uppercase = conversion_upper ch /\
        Z.land (flags o') ios.boolalpha = 0).
Proof.
  assert (Hends : forall ch rest, is_conv ch numeric_conversions = true ->
            ends_number (deref (ch :: rest)) = true /\
            is_length_modifier (deref (ch :: rest)) = false).
  { intros ch rest Hch. cbn [deref].
    apply numeric_conversion_cases in Hch. cbn [In] in Hch.
    repeat (destruct Hch as [<- | Hch]); try destruct Hch;
      split; reflexivity. }
  split; [|split].
  - intros c w1 l ch rest. apply numeric_conversion_from_locals.
  - intros fl lens ch rest Hfl Hlens Hch.
    destruct (Hends ch rest Hch) as [Hend Hnolen].
    pose proof (prefix_plain policy fs sp fl lens (ch :: rest) ai w Hfl Hlens
                  Hend Hnolen) as Hpre.
    exact (numeric_conversion_from_locals _ _ _ nt _ _ _ _ _ ch rest
             Hpre eq_refl Hch).
  - intros fl ds prec lens ch rest Hfl Hds Hp Hlens Hch.
    destruct (Hends ch rest Hch) as [Hend Hnolen].
    destruct (prefix_of_plain_spec policy fs sp fl ds prec lens (ch :: rest)
                ai w Hfl Hds Hp Hlens Hend Hnolen)
      as (o1 & l & Hpre & Hai & Hc).
    destruct (numeric_conversion_from_locals _ _ _ nt _ _ _ _ _ ch rest
                Hpre Hc Hch) as (o' & E & Hfields).
    exists o', (l_spacePadPositive l).
    rewrite E. cbn [reports]. rewrite Hai.
    split; [reflexivity | exact Hfields].
Qed.

Lemma numeric_conversion_selects_format_witness :
  (exists o',
      streamStateFromFormat ErrorReturns [] false (-1) (cstring "%*.2E|") 0
        fresh_world
      = (mkWorld o' [msg.no_width_arg],
         Normal (mkSpec false (-1) 0 (cstring "|"))) /\
      Z.land (flags o') ios.basefield = ios.dec /\
      Z.land (flags o') ios.floatfield = ios.scientific /\
      Z.land (flags o') ios.uppercase = ios.uppercase /\
      Z.land (flags o') ios.boolalpha = 0) /\
  (exists o',
      streamStateFromFormat ErrorUnwinds [] false (-1) (cstring "%#lX|") 0
        fresh_world
      = (mkWorld o' [], Normal (mkSpec false (-1) 0 (cstring "|"))) /\
      Z.land (flags o') ios.basefield = ios.hex /\
      Z.land (flags o') ios.floatfield = 0 /\
      Z.land (flags o') ios.uppercase = ios.uppercase /\
      Z.land (flags o') ios.boolalpha = 0) /\
  (exists o' sp1,
      streamStateFromFormat ErrorUnwinds [] false (-1) (cstring "%+08.3lld|")
        0 fresh_world
      = (mkWorld o' [], Normal (mkSpec sp1 (-1) 0 (cstring "|"))) /\
      Z.land (flags o') ios.basefield = ios.dec /\
      Z.land (flags o') ios.floatfield = 0 /\
      Z.land (flags o') ios.uppercase = 0 /\
      Z.land (flags o') ios.boolalpha = 0).
Proof.
  split; [|split].
  - destruct (numeric_conversion_selects_format ErrorReturns [] false (-1)
                0%nat fresh_world) as (Hlocals & _ & _).
    exact (Hlocals (cstring "*.2E|")
             (mkWorld (mkStream [] 0 2 ios.skipws " ") [msg.no_width_arg])
             (mkLocals false 0 true true 0 (cstring "E|")) "E"
             (cstring "|") eq_refl eq_refl eq_refl).
  - destruct (numeric_conversion_selects_format ErrorUnwinds [] false (-1)
                0%nat fresh_world) as (_ & Hflags & _).
    exact (Hflags (cstring "#") (cstring "l") "X" (cstring "|")
             eq_refl eq_refl eq_refl).
  - destruct (numeric_conversion_selects_format ErrorUnwinds [] false (-1)
                0%nat fresh_world) as (_ & _ & Hplain).
    exact (Hplain (cstring "+0") (cstring "8") (cstring ".3") (cstring "ll")
             "d" (cstring "|") eq_refl eq_refl eq_refl eq_refl eq_refl).
Defined.

(** ** The driver on format strings without a variable width or precision *)

(** The body of a specifier does not start with '%'. *)
Lemma plain_spec_body_start fl ds prec lens conv rest :
  forallb is_flag fl = true ->
  forallb is_digit ds = true ->
  plain_precision prec = true ->
  forallb is_length_modifier lens = true ->
  plain_conversion conv = true ->
  deref (fl ++ ds ++ prec ++ lens ++ conv :: rest) <> "%".
Proof.
  intros Hfl Hds Hp Hlens Hconv.
  destruct fl as [|ch fl].
  2:{ cbn [forallb] in Hfl. apply andb_true_iff in Hfl as [Hch _].
      cbn [app deref].
      destruct (is_flag_cases ch Hch) as [-> | [-> | [-> | [-> | ->]]]];
        discriminate. }
  destruct ds as [|d ds].
  2:{ cbn [forallb] in Hds. apply andb_true_iff in Hds as [Hd _].
      cbn [app deref]. intros ->. discriminate Hd. }
  destruct prec as [|p prec].
  2:{ cbn [plain_precision] in Hp. apply andb_true_iff in Hp as [Hch _].
      apply Ascii.eqb_eq in Hch. subst p. cbn [app deref]. discriminate. }
  destruct lens as [|x lens].
  2:{ cbn [forallb] in Hlens. apply andb_true_iff in Hlens as [Hx _].
      cbn [app deref]. intros ->. discriminate Hx. }
  cbn [app deref].
  apply plain_conversion_inv in Hconv as (_ & _ & _ & _ & _ & H).
  now apply Ascii.eqb_neq.
Qed.

(** The literal scanner on a format string without specifiers reaches the
    end of the string. *)
Lemma scan_plain_end (fmt : cstr) :
  plain_format 0 fmt ->
  forall o, exists s, printFormatStringLiteral o fmt = (put s o, []).
Proof.
  intros H. remember 0%nat as n eqn:En.
  induction H as [|n ch fmt Hch H IH|n fmt H IH|]; intros o.
  - exists []. now rewrite scanner_at_end, put_nil.
  - destruct (IH En (put [ch] o)) as [s E].
    exists ([ch] ++ s). now rewrite scanner_literal_char, E, put_put.
  - destruct (IH En (put ["%"] o)) as [s E].
    exists (["%"] ++ s). now rewrite scanner_escape, E, put_put.
  - discriminate En.
Qed.

(** On a format string with a specifier, it stops at the first one. *)
Lemma scan_plain_spec (n : nat) (fmt : cstr) :
  plain_format (S n) fmt ->
  forall o, exists s fl ds prec lens conv rest,
    printFormatStringLiteral o fmt
    = (put s o, "%" :: fl ++ ds ++ prec ++ lens ++ conv :: rest) /\
    forallb is_flag fl = true /\
    forallb is_digit ds = true /\
    plain_precision prec = true /\
    forallb is_length_modifier lens = true /\
    plain_conversion conv = true /\
    plain_format n rest.
Proof.
  intros H. remember (S n) as m eqn:Em.
  induction H as [|m ch fmt Hch H IH|m fmt H IH
                  |m fl ds prec lens conv fmt Hfl Hds Hp Hlens Hconv H _];
    intros o.
  - discriminate Em.
  - destruct (IH Em (put [ch] o))
      as (s & fl & ds & prec & lens & conv & rest & E & Hrest).
    exists ([ch] ++ s), fl, ds, prec, lens, conv, rest.
    split; [|exact Hrest].
    now rewrite scanner_literal_char, E, put_put.
  - destruct (IH Em (put ["%"] o))
      as (s & fl & ds & prec & lens & conv & rest & E & Hrest).
    exists (["%"] ++ s), fl, ds, prec, lens, conv, rest.
    split; [|exact Hrest].
    now rewrite scanner_escape, E, put_put.
  - injection Em as ->.
    exists [], fl, ds, prec, lens, conv, fmt.
    split; [|tauto].
    rewrite put_nil. apply scanner_stops.
    now apply plain_spec_body_start.
Qed.

Lemma loop_done policy fs fuel fmt ai w :
  (numFormatters fs <= ai)%nat ->
  formatImpl_loop policy fs fuel fmt ai w = (w, Normal (LoopDone fmt)).
Proof.
  intros H. destruct fuel; cbn [formatImpl_loop];
    destruct (Nat.ltb_spec ai (numFormatters fs)); try lia; reflexivity.
Qed.

(** A turn of the loop at a specifier: the argument is rendered and the
    loop goes on behind the specifier, without a report. *)
Lemma loop_turn_spec policy fs fuel n fmt ai w :
  plain_format (S n) fmt ->
  (ai < numFormatters fs)%nat ->
  exists o1 rest,
    plain_format n rest /\
    formatImpl_loop policy fs (S fuel) fmt ai w
    = formatImpl_loop policy fs fuel rest (S ai) (mkWorld o1 (reports w)).
Proof.
  intros Hfmt Hai.
  destruct (scan_plain_spec n fmt Hfmt (out w))
    as (s & fl & ds & prec & lens & conv & rest & E &
        Hfl & Hds & Hp & Hlens & Hconv & Hrest).
  destruct (spec_plain policy fs false (-1) fl ds prec lens conv rest ai
              (put s (out w)) (reports w) Hfl Hds Hp Hlens Hconv)
    as (o2 & r & ES & Hidx & Hend).
  destruct (nth_error fs ai) as [arg|] eqn:En.
  2:{ apply nth_error_None in En. unfold numFormatters in Hai. lia. }
  eexists _, rest. split; [exact Hrest|].
  cbn [formatImpl_loop].
  destruct (Nat.ltb_spec ai (numFormatters fs)); [|lia].
  rewrite (bind_normal _ _ w w (out w)) by reflexivity.
  rewrite E.
  rewrite (bind_normal _ _ w (mkWorld (put s (out w)) (reports w)) tt)
    by reflexivity.
  rewrite (bind_normal _ _ _ _ _ ES).
  rewrite Hidx, Hend, En.
  match goal with
  | |- bind (on_out ?f) _ ?w0 = _ =>
      rewrite (bind_normal _ _ w0 (mkWorld (f (out w0)) (reports w0)) tt)
        by reflexivity
  end.
  cbn [out reports]. reflexivity.
Qed.

(** A turn of the loop when the format string has no specifier left: the
    missing specifier is reported. *)
Lemma loop_turn_end policy fs fuel fmt ai w :
  plain_format 0 fmt ->
  (ai < numFormatters fs)%nat ->
  exists o1,
    formatImpl_loop policy fs (S fuel) fmt ai w
    = match policy with
      | ErrorReturns =>
          formatImpl_loop policy fs fuel [] (S ai)
            (mkWorld o1 (reports w ++ [msg.no_spec]))
      | ErrorUnwinds =>
          (mkWorld o1 (reports w ++ [msg.no_spec]), Unwinding)
      end.
Proof.
  intros Hfmt Hai.
  destruct (scan_plain_end fmt Hfmt (out w)) as [s E].
  destruct (nth_error fs ai) as [arg|] eqn:En.
  2:{ apply nth_error_None in En. unfold numFormatters in Hai. lia. }
  cbn [formatImpl_loop].
  destruct (Nat.ltb_spec ai (numFormatters fs)); [|lia].
  rewrite (bind_normal _ _ w w (out w)) by reflexivity.
  rewrite E.
  rewrite (bind_normal _ _ w (mkWorld (put s (out w)) (reports w)) tt)
    by reflexivity.
  unfold streamStateFromFormat. cbn [deref]. const_chars.
  destruct policy.
  - eexists.
    unfold bind at 1 2. unfold TINYFORMAT_ERROR at 1. cbn [out reports].
    unfold ret at 1. cbn [res_argIndex res_fmtEnd res_ntrunc
                           res_spacePadPositive negb].
    rewrite En.
    unfold bind at 1. unfold on_out at 1. cbn [out reports].
    reflexivity.
  - eexists.
    unfold bind at 1 2. unfold TINYFORMAT_ERROR at 1. cbn [out reports].
    reflexivity.
Qed.

(** [k] turns over a format string with at least [k] specifiers. *)
Lemma loop_turns policy fs :
  forall k n fmt ai fuel w,
    plain_format n fmt ->
    (k <= n)%nat ->
    (ai + k <= numFormatters fs)%nat ->
    exists o' fmt',
      plain_format (n - k) fmt' /\
      formatImpl_loop policy fs (k + fuel) fmt ai w
      = formatImpl_loop policy fs fuel fmt' (ai + k)
          (mkWorld o' (reports w)).
Proof.
  induction k as [|k IH]; intros n fmt ai fuel w Hfmt Hk Hai.
  - exists (out w), fmt. rewrite Nat.sub_0_r, Nat.add_0_r.
    split; [exact Hfmt|]. now destruct w.
  - destruct n as [|n]; [lia|].
    destruct (loop_turn_spec policy fs (k + fuel) n fmt ai w Hfmt ltac:(lia))
      as (o1 & rest & Hrest & E).
    destruct (IH n rest (S ai) fuel (mkWorld o1 (reports w)) Hrest
                ltac:(lia) ltac:(lia)) as (o' & fmt' & Hfmt' & E').
    exists o', fmt'. split; [exact Hfmt'|].
    cbn [Nat.add]. rewrite E, E'. cbn [reports].
    now replace (ai + S k)%nat with (S ai + k)%nat by lia.
Qed.

(** The turns for the arguments that are left when the specifiers are used
    up, when a report comes back: one report for each. *)
Lemma loop_surplus fs :
  forall k fmt ai fuel w,
    plain_format 0 fmt ->
    numFormatters fs = (ai + k)%nat ->
    exists o' fmt',
      plain_format 0 fmt' /\
      formatImpl_loop ErrorReturns fs (k + fuel) fmt ai w
      = (mkWorld o' (reports w ++ repeat msg.no_spec k),
         Normal (LoopDone fmt')).
Proof.
  induction k as [|k IH]; intros fmt ai fuel w Hfmt Hai.
  - exists (out w), fmt. split; [exact Hfmt|].
    rewrite loop_done by lia. cbn [repeat]. rewrite app_nil_r.
    now destruct w.
  - destruct (loop_turn_end ErrorReturns fs (k + fuel) fmt ai w Hfmt
                ltac:(lia)) as [o1 E].
    destruct (IH [] (S ai) fuel (mkWorld o1 (reports w ++ [msg.no_spec]))
                plain_end ltac:(lia)) as (o' & fmt' & Hfmt' & E').
    exists o', fmt'. split; [exact Hfmt'|].
    cbn [Nat.add]. rewrite E, E'. cbn [reports repeat].
    now rewrite <- app_assoc.
Qed.

(** The code behind the loop, on a format string that has no specifier
    left. *)
Lemma finish_at_end policy fmt (k : unit -> M unit) w :
  plain_format 0 fmt ->
  exists s,
    (o <- get_out ;;
     let (o, fmt) := printFormatStringLiteral o fmt in
     set_out o ;;
     (if negb (Ascii.eqb (deref fmt) NUL)
      then TINYFORMAT_ERROR policy msg.too_many_specs
      else ret tt) ;;
     k tt) w
    = k tt (mkWorld (put s (out w)) (reports w)).
Proof.
  intros Hfmt. destruct (scan_plain_end fmt Hfmt (out w)) as [s E].
  exists s.
  rewrite (bind_normal _ _ w w (out w)) by reflexivity.
  rewrite E.
  rewrite (bind_normal _ _ w (mkWorld (put s (out w)) (reports w)) tt)
    by reflexivity.
  cbn [deref]. const_chars.
  now rewrite (bind_normal _ _ _ _ tt eq_refl).
Qed.

Lemma restore_stream_config (o0 o : ostream) :
  config (restore_stream (width o0) (precision o0) (flags o0) (fill o0) o)
  = config o0.
Proof. reflexivity. Qed.

(** X20: as many arguments as specifiers.  For a format string made of
    literal text, escapes "%%" and specifiers
    %[flags][width][.precision][length]conversion (no '*', and a conversion
    character that is none of 'a', 'A', 'n'), called with exactly one
    argument for each specifier, [formatImpl] returns, reports nothing, and
    leaves the configuration of the stream as it was before the call. *)
Theorem plain_format_matching_counts policy fs fmt w :
  plain_format (numFormatters fs) fmt ->
  exists o',
    formatImpl policy fs fmt w = (mkWorld o' (reports w), Normal tt) /\
    config o' = config (out w).
Proof.
  intros Hfmt.
  destruct (loop_turns policy fs (numFormatters fs) (numFormatters fs) fmt
              0 0 w Hfmt (le_n _) (le_n _)) as (o1 & fmt1 & Hfmt1 & E).
  rewrite Nat.add_0_r, Nat.sub_diag in *. cbn [Nat.add] in E.
  rewrite (loop_done policy fs 0 fmt1 (numFormatters fs)) in E by lia.
  unfold formatImpl.
  rewrite (bind_normal _ _ w w (out w)) by reflexivity.
  rewrite (bind_normal _ _ _ _ _ E).
  destruct (finish_at_end policy fmt1
              (fun _ => on_out (restore_stream (width (out w))
                                  (precision (out w)) (flags (out w))
                                  (fill (out w))))
              (mkWorld o1 (reports w)) Hfmt1) as [s ->].
  eexists. split; [reflexivity|]. apply restore_stream_config.
Qed.

Lemma plain_format_sample : plain_format 1 (cstring "n = %5.2f%%").
Proof.
  cbv [cstring list_ascii_of_string].
  repeat (apply plain_char; [reflexivity|]).
  apply (plain_spec 0 [] ["5"] ["."; "2"] [] "f" ["%"; "%"]);
    try reflexivity.
  apply plain_escape, plain_end.
Qed.

Lemma plain_format_matching_counts_witness :
  plain_format (numFormatters [sample_arg 7 "7.00"]) (cstring "n = %5.2f%%") /\
  exists o',
    formatImpl ErrorUnwinds [sample_arg 7 "7.00"] (cstring "n = %5.2f%%")
      fresh_world
    = (mkWorld o' (reports fresh_world), Normal tt) /\
    config o' = config (out fresh_world).
Proof.
  split; [exact plain_format_sample|].
  exact (plain_format_matching_counts ErrorUnwinds [sample_arg 7 "7.00"]
           (cstring "n = %5.2f%%") fresh_world plain_format_sample).
Defined.

(** X21: fewer arguments than specifiers.  For a format string of the same
    form that has more specifiers than there are arguments, exactly one
    report is made, whatever the arguments: "tinyformat: Too many
    conversion specifiers in format string", the report of line 292 behind
    the loop.  When the report comes back [formatImpl] returns and the
    configuration of the stream is the one it had before the call;
    otherwise the report ends the call. *)
Theorem plain_format_too_few_arguments policy fs n fmt w :
  plain_format n fmt ->
  (numFormatters fs < n)%nat ->
  exists o',
    formatImpl policy fs fmt w
    = (mkWorld o' (reports w ++ [msg.too_many_specs]),
       match policy with
       | ErrorReturns => Normal tt
       | ErrorUnwinds => Unwinding
       end) /\
    (policy = ErrorReturns -> config o' = config (out w)).
Proof.
  intros Hfmt Hn.
  destruct (loop_turns policy fs (numFormatters fs) n fmt
              0 0 w Hfmt ltac:(lia) (le_n _)) as (o1 & fmt1 & Hfmt1 & E).
  rewrite Nat.add_0_r in E. cbn [Nat.add] in E.
  rewrite (loop_done policy fs 0 fmt1 (numFormatters fs)) in E by lia.
  destruct (n - numFormatters fs)%nat as [|m] eqn:Em; [lia|].
  destruct (scan_plain_spec m fmt1 Hfmt1 o1)
    as (s & fl & ds & prec & lens & conv & rest & ES & _).
  unfold formatImpl.
  rewrite (bind_normal _ _ w w (out w)) by reflexivity.
  rewrite (bind_normal _ _ _ _ _ E).
  rewrite (bind_normal _ _ (mkWorld o1 (reports w)) (mkWorld o1 (reports w)) o1)
    by reflexivity.
  rewrite ES.
  rewrite (bind_normal _ _ (mkWorld o1 (reports w))
             (mkWorld (put s o1) (reports w)) tt) by reflexivity.
  cbn [deref]. const_chars.
  destruct policy.
  - rewrite (bind_normal _ _ _ _ tt eq_refl).
    eexists. split; [reflexivity|]. intros _. apply restore_stream_config.
  - rewrite (bind_unwinding _ _ _ _ eq_refl).
    eexists. split; [reflexivity|]. discriminate.
Qed.

Lemma plain_format_too_few_arguments_witness :
  plain_format 1 (cstring "n = %5.2f%%") /\
  (numFormatters [] < 1)%nat /\
  exists o',
    formatImpl ErrorReturns [] (cstring "n = %5.2f%%") fresh_world
    = (mkWorld o' (reports fresh_world ++ [msg.too_many_specs]), Normal tt) /\
    (ErrorReturns = ErrorReturns -> config o' = config (out fresh_world)).
Proof.
  split; [exact plain_format_sample|]. split; [cbn; lia|].
  exact (plain_format_too_few_arguments ErrorReturns [] 1
           (cstring "n = %5.2f%%") fresh_world plain_format_sample
           ltac:(cbn; lia)).
Defined.

(** X22: more arguments than specifiers.  For a format string of the same
    form that has fewer specifiers than there are arguments, the reports
    are those of line 63, "tinyformat: Not enough conversion specifiers in
    format string", and no other.  When the reports come back there is
    exactly one for each argument without a specifier, [formatImpl]
    returns, and the configuration of the stream is the one it had before
    the call; otherwise the first one ends the call. *)
Theorem plain_format_too_many_arguments policy fs n fmt w :
  plain_format n fmt ->
  (n < numFormatters fs)%nat ->
  exists o',
    formatImpl policy fs fmt w
    = match policy with
      | ErrorReturns =>
          (mkWorld o' (reports w
                       ++ repeat msg.no_spec (numFormatters fs - n)),
           Normal tt)
      | ErrorUnwinds =>
          (mkWorld o' (reports w ++ [msg.no_spec]), Unwinding)
      end /\
    (policy = ErrorReturns -> config o' = config (out w)).
Proof.
  intros Hfmt Hn.
  destruct (loop_turns policy fs n n fmt 0 (numFormatters fs - n) w Hfmt
              (le_n _) ltac:(lia)) as (o1 & fmt1 & Hfmt1 & E).
  replace (n + (numFormatters fs - n))%nat with (numFormatters fs) in E by lia.
  rewrite Nat.sub_diag in Hfmt1. cbn [Nat.add] in E.
  unfold formatImpl.
  rewrite (bind_normal _ _ w w (out w)) by reflexivity.
  destruct policy.
  - destruct (loop_surplus fs (numFormatters fs - n) fmt1 n 0
                (mkWorld o1 (reports w)) Hfmt1 ltac:(lia))
      as (o2 & fmt2 & Hfmt2 & E2).
    rewrite Nat.add_0_r in E2. rewrite E2 in E. cbn [reports] in E.
    rewrite (bind_normal _ _ _ _ _ E).
    destruct (finish_at_end ErrorReturns fmt2
                (fun _ => on_out (restore_stream (width (out w))
                                    (precision (out w)) (flags (out w))
                                    (fill (out w))))
                (mkWorld o2 (reports w
                             ++ repeat msg.no_spec (numFormatters fs - n)))
                Hfmt2) as [s ->].
    eexists. split; [reflexivity|]. intros _. apply restore_stream_config.
  - destruct (numFormatters fs - n)%nat as [|m] eqn:Em; [lia|].
    destruct (loop_turn_end ErrorUnwinds fs m fmt1 n
                (mkWorld o1 (reports w)) Hfmt1 Hn) as [o2 E2].
    rewrite E2 in E. cbn [reports] in E.
    rewrite (bind_unwinding _ _ _ _ E).
    eexists. split; [reflexivity|]. discriminate.
Qed.

Lemma plain_format_too_many_arguments_witness :
  plain_format 1 (cstring "n = %5.2f%%") /\
  (1 < numFormatters [sample_arg 7 "7.00"; sample_arg 8 "8"; sample_arg 9 "9"])%nat /\
  exists o',
    formatImpl ErrorReturns
      [sample_arg 7 "7.00"; sample_arg 8 "8"; sample_arg 9 "9"]
      (cstring "n = %5.2f%%") fresh_world
    = (mkWorld o' (reports fresh_world ++ repeat msg.no_spec (3 - 1)),
       Normal tt) /\
    (ErrorReturns = ErrorReturns -> config o' = config (out fresh_world)).
Proof.
  split; [exact plain_format_sample|]. split; [cbn; lia|].
  exact (plain_format_too_many_arguments ErrorReturns
           [sample_arg 7 "7.00"; sample_arg 8 "8"; sample_arg 9 "9"] 1
           (cstring "n = %5.2f%%") fresh_world plain_format_sample
           ltac:(cbn; lia)).
Defined.
